(** * backgommon: the order-lifecycle execution engine

    A shallow embedding of the Go packages [pkg/portfolio], [pkg/risk] and
    [pkg/runner] and the properties of their accounting state machine, with
    the tables of [pkg/types] the runner reads its rows from and the moving
    averages of [pkg/indicators].

    Conventions of the embedding.
    - [float64] is Rocq's primitive binary64 [float]; every [+ - * /] and
      comparison below is the IEEE operation Go performs, each rounded on its
      own, as on a target that does not fuse a product into a sum. Where
      [pkg/indicators] computes [x*y + z] the operation of the build is a
      parameter, [mulAdd].
    - [int] is a 64-bit two's complement integer, carried as a [Z] with the
      wrap-around of [+] and [-] written out ([Int.add], [Int.sub]).
    - A method with a pointer receiver that returns [error] becomes a function
      returning the receiver after the call together with [option error]
      ([None] is Go's [nil]), so that what a failing call leaves behind is a
      theorem and not an assumption.
    - Wall-clock stamps ([time.Now()]: [Position.ID], [OpenTime], [CloseTime],
      [Order.FilledAt]) are not carried; no modelled function reads them. *)

From Stdlib Require Import ZArith Floats Lia List.
From stdpp Require Import gmap strings list fin_maps sorting.

Local Open Scope Z_scope.

(** Go spells [a > b] and [a >= b]; on floats they are [b < a] and [b <= a]. *)
Notation "x >? y" := (PrimFloat.ltb y x) : float_scope.
Notation "x >=? y" := (PrimFloat.leb y x) : float_scope.

(** ** Machine integers *)

Module Int.
Definition min_int : Z := - 2 ^ 63.
Definition max_int : Z := 2 ^ 63 - 1.

(** The value of a mathematical integer once stored in an [int]. *)
Definition wrap (z : Z) : Z := (z + 2 ^ 63) mod 2 ^ 64 - 2 ^ 63.

Definition add (a b : Z) : Z := wrap (a + b).
Definition sub (a b : Z) : Z := wrap (a - b).

Definition in_range (z : Z) : Prop := min_int <= z <= max_int.

(** [float64(n)]: the conversion rounds to nearest, ties to even. *)
Definition to_float64 (n : Z) : float :=
SF2Prim (binary_normalize prec emax n 0 false).
End Int.

(** ** Errors

    Each constructor stands for one [fmt.Errorf] of the source; the message is
    given next to it. *)

Inductive error : Type :=
  (* position.go *)
  | ErrNonEntryOrder                          (* cannot create position from non-entry order type *)
  | ErrInvalidQuantity (q : Z)                (* invalid order quantity: %d *)
  | ErrInstrumentMismatch (o p : string)      (* order instrument %s does not match position instrument %s *)
  | ErrExitExceedsPosition (q size : Z)       (* exit quantity %d exceeds position size %d *)
  (* portfolio.go *)
  | ErrShortsNotAllowed                       (* short positions not allowed *)
  | ErrInsufficientCash (have need : float)   (* insufficient cash: have %.2f, need %.2f ... *)
  | ErrNoOpenPosition (instrument : string)   (* no open position for %s *)
  | ErrExitExceedsSize                        (* exit quantity exceeds position size *)
  | ErrNoPositionFound (instrument : string)  (* no position found for %s *)
  (* risk/manager.go *)
  | ErrPositionSize (value allowed : float)   (* position size %.2f ... exceeds maximum allowed %.2f ... *)
  | ErrLeverage (lev maxlev : float)          (* order leverage %.2fx exceeds portfolio maximum %.2fx *)
  (* runner.go *)
  | ErrStrategyNotSet                         (* strategy not set *)
  | ErrPortfolioNotSet                        (* portfolio not set *)
  | ErrRiskManagerNotSet                      (* risk manager not set *)
  | ErrDataNotSet                             (* data not set *)
  | ErrInitialization (cause : error)         (* initialization failed: %w *)
  | ErrData (timestamp : Z)                   (* data error at %v *)
  | ErrProcessing (timestamp : Z) (cause : error) (* processing error at %v: %w *)
  | ErrRiskValidation (cause : error)         (* risk validation failed: %w *)
  | ErrOrderProcessing (cause : error).       (* order processing failed: %w *)

(** ** pkg/portfolio/order.go *)

Inductive OrderSide : Type := Long | Short.
Inductive OrderType : Type := Entry | Exit.

Definition Opposite (s : OrderSide) : OrderSide :=
  match s with
  | Long => Short
  | Short => Long
  end.

Module Order.
Record t : Type := mk {
ID : string;
Instrument : string;
Side : OrderSide;
Type_ : OrderType;
Quantity : Z;
Price : float;
Leverage : float
}.

(** The zero value [Order{}]. *)
Definition zero : t := mk "" "" Long Entry 0 0%float 0%float.

Definition with_Leverage (l : float) (o : t) : t :=
mk (ID o) (Instrument o) (Side o) (Type_ o) (Quantity o) (Price o) l.
Definition with_Price (p : float) (o : t) : t :=
mk (ID o) (Instrument o) (Side o) (Type_ o) (Quantity o) p (Leverage o).
End Order.

(** [NewOrder]; [id] is the identifier the source derives from the clock. *)
Definition NewOrder (id instrument : string) (side : OrderSide)
    (orderType : OrderType) (qty : Z) (leverage : float) : Order.t :=
  let leverage := if (leverage <=? 0)%float then 1%float else leverage in
  Order.mk id instrument side orderType qty 0%float leverage.

(** [Order.Fill] *)
Definition Fill (o : Order.t) (price : float) : Order.t :=
  Order.with_Price price o.

(** ** pkg/portfolio/position.go *)

Inductive PositionStatus : Type := Open | Closed | PartiallyOpen.

(** What a constructor function of the source returns: a value or an error. *)
Inductive result (A : Type) : Type :=
  | Ok (a : A)
  | Fail (e : error).
Arguments Ok {A} a.
Arguments Fail {A} e.

Module Position.
Record t : Type := mk {
Instrument : string;
Side : OrderSide;
Quantity : Z;
OpenPrice : float;
ClosePrice : float;
Status : PositionStatus;
Orders : list Order.t;
Leverage : float;
StopLoss : float;
TakeProfit : float;
MaxDrawdown : float;
HighestPrice : float;
LowestPrice : float;
UnrealizedPnL : float;
RealizedPnL : float;
TrailingStopHigh : float
}.

(** Field assignments [pos.F = v]. *)
Definition with_Quantity (v : Z) (p : t) : t :=
mk (Instrument p) (Side p) v (OpenPrice p) (ClosePrice p) (Status p) (Orders p)
   (Leverage p) (StopLoss p) (TakeProfit p) (MaxDrawdown p) (HighestPrice p)
   (LowestPrice p) (UnrealizedPnL p) (RealizedPnL p) (TrailingStopHigh p).
Definition with_OpenPrice (v : float) (p : t) : t :=
mk (Instrument p) (Side p) (Quantity p) v (ClosePrice p) (Status p) (Orders p)
   (Leverage p) (StopLoss p) (TakeProfit p) (MaxDrawdown p) (HighestPrice p)
   (LowestPrice p) (UnrealizedPnL p) (RealizedPnL p) (TrailingStopHigh p).
Definition with_ClosePrice (v : float) (p : t) : t :=
mk (Instrument p) (Side p) (Quantity p) (OpenPrice p) v (Status p) (Orders p)
   (Leverage p) (StopLoss p) (TakeProfit p) (MaxDrawdown p) (HighestPrice p)
   (LowestPrice p) (UnrealizedPnL p) (RealizedPnL p) (TrailingStopHigh p).
Definition with_Status (v : PositionStatus) (p : t) : t :=
mk (Instrument p) (Side p) (Quantity p) (OpenPrice p) (ClosePrice p) v (Orders p)
   (Leverage p) (StopLoss p) (TakeProfit p) (MaxDrawdown p) (HighestPrice p)
   (LowestPrice p) (UnrealizedPnL p) (RealizedPnL p) (TrailingStopHigh p).
Definition with_Orders (v : list Order.t) (p : t) : t :=
mk (Instrument p) (Side p) (Quantity p) (OpenPrice p) (ClosePrice p) (Status p) v
   (Leverage p) (StopLoss p) (TakeProfit p) (MaxDrawdown p) (HighestPrice p)
   (LowestPrice p) (UnrealizedPnL p) (RealizedPnL p) (TrailingStopHigh p).
Definition with_MaxDrawdown (v : float) (p : t) : t :=
mk (Instrument p) (Side p) (Quantity p) (OpenPrice p) (ClosePrice p) (Status p) (Orders p)
   (Leverage p) (StopLoss p) (TakeProfit p) v (HighestPrice p)
   (LowestPrice p) (UnrealizedPnL p) (RealizedPnL p) (TrailingStopHigh p).
Definition with_HighestPrice (v : float) (p : t) : t :=
mk (Instrument p) (Side p) (Quantity p) (OpenPrice p) (ClosePrice p) (Status p) (Orders p)
   (Leverage p) (StopLoss p) (TakeProfit p) (MaxDrawdown p) v
   (LowestPrice p) (UnrealizedPnL p) (RealizedPnL p) (TrailingStopHigh p).
Definition with_LowestPrice (v : float) (p : t) : t :=
mk (Instrument p) (Side p) (Quantity p) (OpenPrice p) (ClosePrice p) (Status p) (Orders p)
   (Leverage p) (StopLoss p) (TakeProfit p) (MaxDrawdown p) (HighestPrice p)
   v (UnrealizedPnL p) (RealizedPnL p) (TrailingStopHigh p).
Definition with_UnrealizedPnL (v : float) (p : t) : t :=
mk (Instrument p) (Side p) (Quantity p) (OpenPrice p) (ClosePrice p) (Status p) (Orders p)
   (Leverage p) (StopLoss p) (TakeProfit p) (MaxDrawdown p) (HighestPrice p)
   (LowestPrice p) v (RealizedPnL p) (TrailingStopHigh p).
Definition with_RealizedPnL (v : float) (p : t) : t :=
mk (Instrument p) (Side p) (Quantity p) (OpenPrice p) (ClosePrice p) (Status p) (Orders p)
   (Leverage p) (StopLoss p) (TakeProfit p) (MaxDrawdown p) (HighestPrice p)
   (LowestPrice p) (UnrealizedPnL p) v (TrailingStopHigh p).
Definition with_TrailingStopHigh (v : float) (p : t) : t :=
mk (Instrument p) (Side p) (Quantity p) (OpenPrice p) (ClosePrice p) (Status p) (Orders p)
   (Leverage p) (StopLoss p) (TakeProfit p) (MaxDrawdown p) (HighestPrice p)
   (LowestPrice p) (UnrealizedPnL p) (RealizedPnL p) v.

(** [AddOrder]: every [return fmt.Errorf] comes before the first assignment,
  so a failing call returns the receiver as it was. *)
Definition AddOrder (pos : t) (ord : Order.t) : t * option error :=
if negb (String.eqb (Order.Instrument ord) (Instrument pos)) then
  (pos, Some (ErrInstrumentMismatch (Order.Instrument ord) (Instrument pos)))
else if Order.Quantity ord <=? 0 then
  (pos, Some (ErrInvalidQuantity (Order.Quantity ord)))
else
  match Order.Type_ ord with
  | Entry =>
      let totalValue :=
        (OpenPrice pos * Int.to_float64 (Quantity pos)
         + Order.Price ord * Int.to_float64 (Order.Quantity ord))%float in
      let newQuantity := Int.add (Quantity pos) (Order.Quantity ord) in
      let pos := with_OpenPrice (totalValue / Int.to_float64 newQuantity)%float pos in
      let pos := with_Quantity newQuantity pos in
      (with_Orders (Orders pos ++ [ord]) pos, None)
  | Exit =>
      if Order.Quantity ord >? Quantity pos then
        (pos, Some (ErrExitExceedsPosition (Order.Quantity ord) (Quantity pos)))
      else
        let pos := with_Quantity (Int.sub (Quantity pos) (Order.Quantity ord)) pos in
        let pos :=
          if Quantity pos =? 0
          then with_ClosePrice (Order.Price ord) (with_Status Closed pos)
          else with_Status PartiallyOpen pos in
        let pos :=
          match Side pos with
          | Long =>
              let pnl := (Int.to_float64 (Order.Quantity ord)
                          * (Order.Price ord - OpenPrice pos) * Leverage pos)%float in
              with_RealizedPnL (RealizedPnL pos + pnl)%float pos
          | Short =>
              let pnl := (Int.to_float64 (Order.Quantity ord)
                          * (OpenPrice pos - Order.Price ord) * Leverage pos)%float in
              with_RealizedPnL (RealizedPnL pos + pnl)%float pos
          end in
        (with_Orders (Orders pos ++ [ord]) pos, None)
  end.

(** [Value] *)
Definition Value (pos : t) (currentPrice : float) : float :=
(Int.to_float64 (Quantity pos) * currentPrice * Leverage pos)%float.

(** [UpdatePrice] *)
Definition UpdatePrice (pos : t) (currentPrice : float) : t :=
let pos :=
  if (currentPrice >? HighestPrice pos)%float
  then with_HighestPrice currentPrice pos else pos in
let pos :=
  if (currentPrice <? LowestPrice pos)%float || (LowestPrice pos =? 0)%float
  then with_LowestPrice currentPrice pos else pos in
let pos :=
  match Side pos with
  | Long =>
      with_UnrealizedPnL
        (Int.to_float64 (Quantity pos) * (currentPrice - OpenPrice pos) * Leverage pos)%float pos
  | Short =>
      with_UnrealizedPnL
        (Int.to_float64 (Quantity pos) * (OpenPrice pos - currentPrice) * Leverage pos)%float pos
  end in
match Side pos with
| Long =>
    let drawdown := ((HighestPrice pos - currentPrice) / HighestPrice pos)%float in
    if (drawdown >? MaxDrawdown pos)%float then with_MaxDrawdown drawdown pos else pos
| Short =>
    let drawdown := ((currentPrice - LowestPrice pos) / LowestPrice pos)%float in
    if (drawdown >? MaxDrawdown pos)%float then with_MaxDrawdown drawdown pos else pos
end.

(** [ROI] *)
Definition ROI (pos : t) : float :=
let totalPnL := (RealizedPnL pos + UnrealizedPnL pos)%float in
let investment := (OpenPrice pos * Int.to_float64 (Quantity pos))%float in
(totalPnL / investment)%float.
End Position.

(** [NewPosition]. [make([]Order, 1)] is a slice holding one zero [Order];
    [append] puts the entry order behind it. The parameter [ord] is a copy, and
    it is the copy with the adjusted leverage that is appended. *)
Definition NewPosition (ord : Order.t) : result Position.t :=
  match Order.Type_ ord with
  | Exit => Fail ErrNonEntryOrder
  | Entry =>
      if Order.Quantity ord <=? 0 then Fail (ErrInvalidQuantity (Order.Quantity ord))
      else
        let ord :=
          if (Order.Leverage ord <=? 1)%float then Order.with_Leverage 1%float ord else ord in
        let pos :=
          Position.mk (Order.Instrument ord) (Order.Side ord) (Order.Quantity ord)
            (Order.Price ord) 0%float Open [Order.zero] (Order.Leverage ord)
            0%float 0%float 0%float 0%float 0%float 0%float 0%float (Order.Price ord) in
        Ok (Position.with_Orders (Position.Orders pos ++ [ord]) pos)
  end.

(** ** pkg/portfolio/portfolio.go *)

(** [PortfolioStats] *)
Module PortfolioStats.
Record t : Type := mk {
  TotalValue : float;
  Cash : float;
  OpenPositions : Z;
  ClosedPositions : Z;
  WinningPositions : Z;
  LosingPositions : Z;
  WinningTrades : Z;
  LosingTrades : Z;
  TotalUnrealizedPnL : float;
  TotalRealizedPnL : float
}.
End PortfolioStats.

Module Portfolio.
(** [Settings]: the fields the portfolio reads. The remaining ones
  (reserve, SIP, interest, brokerage, taxes, fees, [Execution]) are
  configuration no function of the package consults. *)
Record Settings : Type := mkSettings {
InitialCapital : float;
EnableShorts : bool;
DefaultLeverage : float
}.

(** [openPositions] is a Go map from instrument to [*Position]. Each pointer
  is held by exactly one key, and leaves the map when it is appended to
  [closedPositions], so positions are carried by value. *)
Record t : Type := mk {
cash : float;
openPositions : gmap string Position.t;
closedPositions : list Position.t;
orderHistory : list Order.t;
settings : Settings
}.

Definition with_cash (v : float) (p : t) : t :=
mk v (openPositions p) (closedPositions p) (orderHistory p) (settings p).
Definition with_openPositions (v : gmap string Position.t) (p : t) : t :=
mk (cash p) v (closedPositions p) (orderHistory p) (settings p).
Definition with_closedPositions (v : list Position.t) (p : t) : t :=
mk (cash p) (openPositions p) v (orderHistory p) (settings p).
Definition with_orderHistory (v : list Order.t) (p : t) : t :=
mk (cash p) (openPositions p) (closedPositions p) v (settings p).

(** [New] *)
Definition New (s : Settings) : t :=
mk (InitialCapital s) ∅ [] [] s.

(** [validateOrder]: reads the portfolio, assigns nothing. *)
Definition validateOrder (p : t) (ord : Order.t) : option error :=
match Order.Type_ ord with
| Entry =>
    if negb (EnableShorts (settings p)) && (if Order.Side ord is Short then true else false)
    then Some ErrShortsNotAllowed
    else
      let requiredCash := (Int.to_float64 (Order.Quantity ord) * Order.Price ord)%float in
      let requiredCash :=
        if (if Order.Side ord is Long then true else false)
           && (DefaultLeverage (settings p) >? 0)%float
           && (Order.Leverage ord >? 0)%float
        then (requiredCash / Order.Leverage ord)%float
        else if (if Order.Side ord is Long then true else false)
                && (DefaultLeverage (settings p) >? 0)%float
        then (requiredCash / DefaultLeverage (settings p))%float
        else requiredCash in
      if (requiredCash >? cash p)%float
      then Some (ErrInsufficientCash (cash p) requiredCash)
      else None
| Exit =>
    match openPositions p !! Order.Instrument ord with
    | None => Some (ErrNoOpenPosition (Order.Instrument ord))
    | Some pos =>
        if Order.Quantity ord >? Position.Quantity pos
        then Some ErrExitExceedsSize
        else None
    end
end.

(** [handleEntryOrder]. [pos.AddOrder] works on the position the map holds,
  so whatever it leaves in the position is written back, also when it
  reports an error. *)
Definition handleEntryOrder (p : t) (ord : Order.t) : t * option error :=
let created :=
  match openPositions p !! Order.Instrument ord with
  | None =>
      match NewPosition ord with
      | Fail e => (p, Some e)
      | Ok newPos =>
          (with_openPositions (<[Order.Instrument ord := newPos]> (openPositions p)) p, None)
      end
  | Some pos =>
      let '(pos, err) := Position.AddOrder pos ord in
      (with_openPositions (<[Order.Instrument ord := pos]> (openPositions p)) p, err)
  end in
match created with
| (p, Some e) => (p, Some e)
| (p, None) =>
    let cost := (Int.to_float64 (Order.Quantity ord) * Order.Price ord)%float in
    let cost :=
      if (DefaultLeverage (settings p) >? 1)%float
         && (if Order.Side ord is Long then true else false)
      then (cost / DefaultLeverage (settings p))%float
      else cost in
    let p := with_cash (cash p - cost)%float p in
    (with_orderHistory (orderHistory p ++ [ord]) p, None)
end.

(** [handleExitOrder] *)
Definition handleExitOrder (p : t) (ord : Order.t) : t * option error :=
match openPositions p !! Order.Instrument ord with
| None => (p, Some (ErrNoPositionFound (Order.Instrument ord)))
| Some pos =>
    let '(pos, err) := Position.AddOrder pos ord in
    let p := with_openPositions (<[Order.Instrument ord := pos]> (openPositions p)) p in
    match err with
    | Some e => (p, Some e)
    | None =>
        let proceeds := (Int.to_float64 (Order.Quantity ord) * Order.Price ord)%float in
        let p := with_cash (cash p + proceeds)%float p in
        let p :=
          match Position.Status pos with
          | Closed =>
              let p := with_closedPositions (closedPositions p ++ [pos]) p in
              with_openPositions (delete (Order.Instrument ord) (openPositions p)) p
          | _ => p
          end in
        (with_orderHistory (orderHistory p ++ [ord]) p, None)
    end
end.

(** [ProcessOrder]. [OrderType] has the two values the source names; the
  [default] arm of its [switch] answers any other integer. *)
Definition ProcessOrder (p : t) (ord : Order.t) : t * option error :=
match validateOrder p ord with
| Some err => (p, Some err)
| None =>
    match Order.Type_ ord with
    | Entry => handleEntryOrder p ord
    | Exit => handleExitOrder p ord
    end
end.

(** [updatePosition] *)
Definition updatePosition (pos : Position.t) (currentPrice : float) : Position.t :=
Position.UpdatePrice pos currentPrice.

(** [UpdatePositions]: the loop body touches only the position under its own
  key, so the iteration order of the map does not show. *)
Definition UpdatePositions (p : t) (prices : gmap string float) : t :=
with_openPositions
  (map_imap (fun instrument pos =>
               Some match prices !! instrument with
                    | Some price => updatePosition pos price
                    | None => pos
                    end) (openPositions p)) p.

(** [Value]: cash plus the unrealized PnL of the open positions, added one
  after the other as the loop meets them. The language leaves the order of a
  [range] over a map open, and a binary64 sum can differ in its last bits
  from one order to another; [map_fold] walks the entries in one order, that
  of [map_to_list]. *)
Definition Value (p : t) : float :=
map_fold (fun _ pos value => (value + Position.UnrealizedPnL pos)%float)
         (cash p) (openPositions p).

(** [Cash] *)
Definition Cash (p : t) : float := cash p.

(** [Positions] *)
Definition Positions (p : t) : gmap string Position.t := openPositions p.
(** [GetPortfolioStats]. A counter is incremented once per element of a
    collection whose length is an [int], so no increment wraps. *)
Definition GetPortfolioStats (p : t) : PortfolioStats.t :=
  let '(winningPositions, losingPositions, totalUnrealizedPnL) :=
    map_fold (fun _ pos '(winning, losing, total) =>
                if (Position.UnrealizedPnL pos >? 0)%float
                then (winning + 1, losing, (total + Position.UnrealizedPnL pos)%float)
                else (winning, losing + 1, (total + Position.UnrealizedPnL pos)%float))
             (0, 0, 0%float) (openPositions p) in
  let '(winningTrades, losingTrades, totalRealizedPnL) :=
    fold_left (fun '(winning, losing, total) pos =>
                 if (Position.RealizedPnL pos >? 0)%float
                 then (winning + 1, losing, (total + Position.RealizedPnL pos)%float)
                 else (winning, losing + 1, (total + Position.RealizedPnL pos)%float))
              (closedPositions p) (0, 0, 0%float) in
  PortfolioStats.mk (Value p) (Cash p)
    (Z.of_nat (size (openPositions p))) (Z.of_nat (length (closedPositions p)))
    winningPositions losingPositions winningTrades losingTrades
    totalUnrealizedPnL totalRealizedPnL.
End Portfolio.

(** ** pkg/risk *)

Module risk.
(** [Settings]: the fields [ValidateOrder] and the exit checks read.
  exit_conditions.go reads the three switches and rates under the names
  used here; manager.go declares them as [EnableStopLoss],
  [DefaultStopLossRate] and so on. *)
Record Settings : Type := mkSettings {
MaxLeverage : float;
MaxPositionAllocationRate : float;
UseStopLoss : bool;
DefaultStopLoss : float;
UseTakeProfit : bool;
DefaultTakeProfit : float;
UseTrailingStop : bool;
DefaultTrailingStop : float
}.

Record Manager : Type := mkManager { settings : Settings }.

(** [New] *)
Definition New (s : Settings) : Manager := mkManager s.

(** [ValidateOrder] *)
Definition ValidateOrder (m : Manager) (portfolioManager : Portfolio.t)
  (ord : Order.t) : option error :=
let positionValue := (Int.to_float64 (Order.Quantity ord) * Order.Price ord)%float in
let portfolioValue := Portfolio.Value portfolioManager in
let maxSizeAllowedByPercent :=
  (portfolioValue * MaxPositionAllocationRate (settings m))%float in
if (MaxPositionAllocationRate (settings m) >? 0)%float
   && (positionValue >? maxSizeAllowedByPercent)%float
then Some (ErrPositionSize positionValue maxSizeAllowedByPercent)
else if (Order.Leverage ord >? MaxLeverage (settings m))%float
        && (MaxLeverage (settings m) >? 0)%float
then Some (ErrLeverage (Order.Leverage ord) (MaxLeverage (settings m)))
else None.

(** The exit checks return the position as they leave it (the trailing
  stop moves [TrailingStopHigh]), the verdict and the reason. *)
Definition checkLongExitConditions (m : Manager) (pos : Position.t)
  (currentPrice : float) : Position.t * bool * string :=
if UseStopLoss (settings m)
   && (currentPrice <=? Position.OpenPrice pos * (1 - DefaultStopLoss (settings m)))%float
then (pos, true, "stop_loss")
else if UseTakeProfit (settings m)
        && (currentPrice >=? Position.OpenPrice pos * (1 + DefaultTakeProfit (settings m)))%float
then (pos, true, "take_profit")
else if UseTrailingStop (settings m) then
  let pos :=
    if (currentPrice >? Position.TrailingStopHigh pos)%float
    then Position.with_TrailingStopHigh currentPrice pos else pos in
  let stopPrice :=
    (Position.TrailingStopHigh pos * (1 - DefaultTrailingStop (settings m)))%float in
  if (currentPrice <=? stopPrice)%float
  then (pos, true, "trailing_stop")
  else (pos, false, "")
else (pos, false, "").

Definition checkShortExitConditions (m : Manager) (pos : Position.t)
  (currentPrice : float) : Position.t * bool * string :=
if UseStopLoss (settings m)
   && (currentPrice >=? Position.OpenPrice pos * (1 + DefaultStopLoss (settings m)))%float
then (pos, true, "stop_loss")
else if UseTakeProfit (settings m)
        && (currentPrice <=? Position.OpenPrice pos * (1 - DefaultTakeProfit (settings m)))%float
then (pos, true, "take_profit")
else if UseTrailingStop (settings m) then
  let pos :=
    if (currentPrice <? Position.TrailingStopHigh pos)%float
    then Position.with_TrailingStopHigh currentPrice pos else pos in
  let stopPrice :=
    (Position.TrailingStopHigh pos * (1 + DefaultTrailingStop (settings m)))%float in
  if (currentPrice >=? stopPrice)%float
  then (pos, true, "trailing_stop")
  else (pos, false, "")
else (pos, false, "").

(** [checkExitConditions] *)
Definition checkExitConditions (m : Manager) (pos : Position.t)
  (currentPrice : float) : Position.t * bool * string :=
if negb (UseStopLoss (settings m)) && negb (UseTakeProfit (settings m))
   && negb (UseTrailingStop (settings m))
then (pos, false, "")
else
  match Position.Side pos with
  | Long => checkLongExitConditions m pos currentPrice
  | Short => checkShortExitConditions m pos currentPrice
  end.

(** The body of the loop of [CheckPositionExits] for one position: the
  position as the check leaves it and the order appended, if any. The
  literal leaves [ID] and [Leverage] at their zero values. *)
Definition scanPosition (m : Manager) (prices : gmap string float)
  (pos : Position.t) : Position.t * option Order.t :=
match prices !! Position.Instrument pos with
| None => (pos, None)
| Some currentPrice =>
    let '(pos, shouldExit, reason) := checkExitConditions m pos currentPrice in
    if shouldExit
    then (pos, Some (Order.mk "" (Position.Instrument pos) (Opposite (Position.Side pos))
                       Exit (Position.Quantity pos) currentPrice 0%float))
    else (pos, None)
end.

(** [CheckPositionExits] walks [portfolioManager.Positions()], the map of
  the portfolio itself: the positions are updated in place and the orders
  come out in the order of the walk. Every iteration reads and writes its
  own position only, so the positions and the orders are the same for every
  walk; the order the orders come in is that of the walk, which the language
  leaves open and which here is that of [map_to_list]. *)
Definition CheckPositionExits (m : Manager) (portfolioManager : Portfolio.t)
  (prices : gmap string float) : Portfolio.t * list Order.t :=
let positions := Portfolio.Positions portfolioManager in
(Portfolio.with_openPositions
   ((fun pos => fst (scanPosition m prices pos)) <$> positions) portfolioManager,
 omap (fun kv => snd (scanPosition m prices (snd kv))) (map_to_list positions)).
(** [createExitOrder]; [id] as in [NewOrder]. The reason is not used. *)
Definition createExitOrder (id : string) (pos : Position.t) (reason : string) : Order.t :=
  NewOrder id (Position.Instrument pos) (Position.Side pos) Exit
           (Position.Quantity pos) (Position.Leverage pos).

(** [PositionRisk] *)
Record PositionRisk : Type := mkPositionRisk {
  StopLossPrice : float;
  TakeProfitPrice : float;
  TrailingStopPrice : float;
  MaxLoss : float;
  RiskRewardRatio : float
}.

Definition calculateStopLossPrice (pos : Position.t) (stopLoss : float) : float :=
  match Position.Side pos with
  | Long => (Position.OpenPrice pos * (1 - stopLoss))%float
  | Short => (Position.OpenPrice pos * (1 + stopLoss))%float
  end.

Definition calculateTakeProfitPrice (pos : Position.t) (takeProfit : float) : float :=
  match Position.Side pos with
  | Long => (Position.OpenPrice pos * (1 + takeProfit))%float
  | Short => (Position.OpenPrice pos * (1 - takeProfit))%float
  end.

Definition calculateTrailingStopPrice (pos : Position.t) (trailingStop : float) : float :=
  match Position.Side pos with
  | Long => (Position.TrailingStopHigh pos * (1 - trailingStop))%float
  | Short => (Position.TrailingStopHigh pos * (1 + trailingStop))%float
  end.

Definition calculateMaxLoss (pos : Position.t) (currentPrice stopLoss : float) : float :=
  let stopLossPrice := calculateStopLossPrice pos stopLoss in
  (Int.to_float64 (Position.Quantity pos) * abs (currentPrice - stopLossPrice)
   * Position.Leverage pos)%float.

Definition calculateRiskRewardRatio (pos : Position.t) (currentPrice : float)
    (settings : Settings) : float :=
  if negb (UseStopLoss settings) || negb (UseTakeProfit settings) then 0%float
  else
    let stopLossPrice := calculateStopLossPrice pos (DefaultStopLoss settings) in
    let takeProfitPrice := calculateTakeProfitPrice pos (DefaultTakeProfit settings) in
    let risk := abs (currentPrice - stopLossPrice) in
    let reward := abs (takeProfitPrice - currentPrice) in
    if (risk =? 0)%float then 0%float else (reward / risk)%float.

(** [GetPositionRisk] *)
Definition GetPositionRisk (m : Manager) (pos : Position.t) (currentPrice : float)
    : PositionRisk :=
  mkPositionRisk
    (calculateStopLossPrice pos (DefaultStopLoss (settings m)))
    (calculateTakeProfitPrice pos (DefaultTakeProfit (settings m)))
    (calculateTrailingStopPrice pos (DefaultTrailingStop (settings m)))
    (calculateMaxLoss pos currentPrice (DefaultStopLoss (settings m)))
    (calculateRiskRewardRatio pos currentPrice (settings m)).
End risk.

(** ** pkg/core, pkg/types: what the runner consumes *)

Module Candle.
Record t : Type := mk {
Open_ : float;
High : float;
Low : float;
Close : float;
Volume : Z
}.
End Candle.

(** A row of [Data.Rows()]: the instant of its timestamp and what
    [row.Get()] returns ([None] when [ok] is false). The rows come in the
    order [Rows()] yields them, which the table sorts by time. *)
Module TimeseriesRow.
Record t : Type := mk {
Timestamp : Z;
Get : option (gmap string Candle.t)
}.
End TimeseriesRow.

Module AccountValue.
Record t : Type := mk {
Time : Z;
Value : float;
Cash : float;
OpenPositions : Z;
UnrealizedPnL : float
}.
End AccountValue.

(** ** pkg/interfaces: the strategy

    A strategy is an implementation of the interface together with its own
    state. It holds the portfolio handle [SetPortfolio] gave it, so both
    calls see the portfolio of the moment; they are taken to read it only. *)
Class Strategy (S : Type) : Type := {
  OnTick : S -> Portfolio.t -> gmap string Candle.t -> S * list Order.t;
  OnOrderFilled : S -> Portfolio.t -> Order.t -> S
}.

(** pkg/strategy/base.go: [BaseStrategy] places no order. *)
#[export] Instance BaseStrategy : Strategy unit := {
  OnTick := fun s _ _ => (s, []);
  OnOrderFilled := fun s _ _ => s
}.

(** ** pkg/runner/runner.go *)

Module Runner.
Section WithStrategy.
Context {S : Type} `{Strategy S}.

(** A nil interface or pointer field is [None]. *)
Record t : Type := mk {
Strategy_ : option S;
Portfolio_ : option Portfolio.t;
RiskManager : option risk.Manager;
Data : option (list TimeseriesRow.t);
CurrentTime : Z;
EquityCurve : list AccountValue.t
}.

Definition with_Strategy (v : option S) (r : t) : t :=
mk v (Portfolio_ r) (RiskManager r) (Data r) (CurrentTime r) (EquityCurve r).
Definition with_Portfolio (v : option Portfolio.t) (r : t) : t :=
mk (Strategy_ r) v (RiskManager r) (Data r) (CurrentTime r) (EquityCurve r).
Definition with_CurrentTime (v : Z) (r : t) : t :=
mk (Strategy_ r) (Portfolio_ r) (RiskManager r) (Data r) v (EquityCurve r).
Definition with_EquityCurve (v : list AccountValue.t) (r : t) : t :=
mk (Strategy_ r) (Portfolio_ r) (RiskManager r) (Data r) (CurrentTime r) v.

(** [validateComponents] *)
Definition validateComponents (r : t) : option error :=
if Strategy_ r is None then Some ErrStrategyNotSet
else if Portfolio_ r is None then Some ErrPortfolioNotSet
else if RiskManager r is None then Some ErrRiskManagerNotSet
else if Data r is None then Some ErrDataNotSet
else None.

(** [getCurrentPrices] *)
Definition getCurrentPrices (data : gmap string Candle.t) : gmap string float :=
Candle.Close <$> data.

(** [calculateUnrealizedPnL]: the sum is built in the order the map is
walked, here that of [map_to_list]; see [Portfolio.Value]. *)
Definition calculateUnrealizedPnL (p : Portfolio.t) : float :=
map_fold (fun _ pos total => (total + Position.UnrealizedPnL pos)%float)
       0%float (Portfolio.Positions p).

(** The snapshot [updateEquityCurve] takes of a portfolio. *)
Definition snapshot (time : Z) (p : Portfolio.t) : AccountValue.t :=
AccountValue.mk time (Portfolio.Value p) (Portfolio.Cash p)
(Z.of_nat (size (Portfolio.Positions p))) (calculateUnrealizedPnL p).

(** [updateEquityCurve]. A call through a nil [Portfolio] would be a
run-time panic instead; [Start] never gets there. *)
Definition updateEquityCurve (r : t) : t :=
match Portfolio_ r with
| Some p => with_EquityCurve (EquityCurve r ++ [snapshot (CurrentTime r) p]) r
| None => r
end.

(** [processOrder]; a nil component is a run-time panic, reported here as
the component missing. *)
Definition processOrder (r : t) (ord : Order.t) : t * option error :=
match Strategy_ r, Portfolio_ r, RiskManager r with
| Some st, Some pf, Some rm =>
  match risk.ValidateOrder rm pf ord with
  | Some err => (r, Some (ErrRiskValidation err))
  | None =>
      let '(pf, err) := Portfolio.ProcessOrder pf ord in
      let r := with_Portfolio (Some pf) r in
      match err with
      | Some err => (r, Some (ErrOrderProcessing err))
      | None => (with_Strategy (Some (OnOrderFilled st pf ord)) r, None)
      end
  end
| None, _, _ => (r, Some ErrStrategyNotSet)
| _, None, _ => (r, Some ErrPortfolioNotSet)
| _, _, None => (r, Some ErrRiskManagerNotSet)
end.

(** [processOrders] *)
Fixpoint processOrders (r : t) (orders : list Order.t) : t * option error :=
match orders with
| [] => (r, None)
| ord :: orders =>
  match processOrder r ord with
  | (r, Some err) => (r, Some err)
  | (r, None) => processOrders r orders
  end
end.

(** [processTick] *)
Definition processTick (r : t) (data : gmap string Candle.t) : t * option error :=
match Strategy_ r, Portfolio_ r, RiskManager r with
| Some _, Some pf, Some rm =>
  let prices := getCurrentPrices data in
  let pf := Portfolio.UpdatePositions pf prices in
  let '(pf, exitOrders) := risk.CheckPositionExits rm pf prices in
  let r := with_Portfolio (Some pf) r in
  match processOrders r exitOrders with
  | (r, Some err) => (r, Some err)
  | (r, None) =>
      match Strategy_ r, Portfolio_ r with
      | Some st, Some pf =>
          let '(st, orders) := OnTick st pf data in
          processOrders (with_Strategy (Some st) r) orders
      | _, _ => (r, Some ErrStrategyNotSet)
      end
  end
| None, _, _ => (r, Some ErrStrategyNotSet)
| _, None, _ => (r, Some ErrPortfolioNotSet)
| _, _, None => (r, Some ErrRiskManagerNotSet)
end.

(** The loop of [Start] over the rows still to come. *)
Fixpoint runRows (r : t) (rows : list TimeseriesRow.t) : t * option error :=
match rows with
| [] => (r, None)
| row :: rows =>
  match TimeseriesRow.Get row with
  | None => (r, Some (ErrData (TimeseriesRow.Timestamp row)))
  | Some data =>
      let r := with_CurrentTime (TimeseriesRow.Timestamp row) r in
      match processTick r data with
      | (r, Some err) =>
          (r, Some (ErrProcessing (TimeseriesRow.Timestamp row) err))
      | (r, None) => runRows (updateEquityCurve r) rows
      end
  end
end.

(** [Start] *)
Definition Start (r : t) : t * option error :=
match validateComponents r with
| Some err => (r, Some (ErrInitialization err))
| None =>
  match Data r with
  | Some rows => runRows r rows
  | None => (r, Some (ErrInitialization ErrDataNotSet))
  end
end.

(** [New] with the options [WithPortfolio], [WithRiskManager] and
[WithData] applied. *)
Definition New (strategy : S) (p : option Portfolio.t) (rm : option risk.Manager)
(data : option (list TimeseriesRow.t)) : t :=
mk (Some strategy) p rm data 0 [].
End WithStrategy.
Arguments t S : clear implicits.
End Runner.

(** ** pkg/types: Table and TimeseriesTable

    The tables the runner reads its rows from. A cell holds an [interface{}]:
    [None] is [nil]. A timestamp is a [time.Time], a key of its own even
    where it is the instant of another. A [map] argument that a function ranges over comes as the
    list of its entries in the order the [range] yields them, which Go leaves
    open. An index expression out of range is a run-time panic, [Panic]
    below. *)

Inductive run (A : Type) : Type :=
  | Ret (a : A)
  | Panic.
Arguments Ret {A} a.
Arguments Panic {A}.

#[export] Instance run_ret : MRet run := fun A a => Ret a.
#[export] Instance run_bind : MBind run := fun A B f x =>
  match x with
  | Ret a => f a
  | Panic => Panic
  end.
#[export] Instance run_fmap : FMap run := fun A B f x =>
  match x with
  | Ret a => Ret (f a)
  | Panic => Panic
  end.

(** A [time.Time] as the tables use it. As the key of a map it is compared
    with [==], which compares the clock readings and the location pointer of
    the value, so two values of one instant can be two keys; [Before]
    compares the instants. [instant] is the instant and [repr] is what else
    [==] tells apart. *)
Module Time.
Record t : Type := mk {
instant : Z;
repr : Z
}.

(** [Before] *)
Definition Before (a b : t) : bool := instant a <? instant b.

(** [b] is not before [a]: what [sort.Slice] with [Before] as its [less]
  leaves true of every element [a] and every element [b] behind it. *)
Definition notAfter (a b : t) : Prop := Before b a = false.
End Time.

#[export] Instance Time_eq_dec : EqDecision Time.t.
Proof. solve_decision. Defined.

#[export] Instance Time_countable : Countable Time.t.
Proof.
  refine (inj_countable' (fun x => (Time.instant x, Time.repr x))
                         (fun p => Time.mk (fst p) (snd p)) _).
  intros []. reflexivity.
Defined.

#[export] Instance Time_notAfter_dec : RelDecision Time.notAfter.
Proof. intros a b. unfold Time.notAfter. apply _. Defined.

(** One constructor for each [fmt.Errorf] of the two files. *)
Inductive tableError : Type :=
  | ErrEmptyColumnName                  (* column name cannot be empty *)
  | ErrColumnExists (column : string)   (* column %s already exists *)
  | ErrIndexOutOfRange (index : Z)      (* index %d out of range *)
  | ErrColumnMissing (column : string)  (* column %s does not exist *)
  | ErrRowMissing (index : Z)           (* row by index %d does not exist *)
  | ErrTimestampExists (timestamp : Time.t)  (* timestamp %s already exists, failed creating new row *)
  | ErrTimestampNotFound (timestamp : Time.t). (* timestamp %s not found *)

(** [len] *)
Definition len {A : Type} (l : list A) : Z := Z.of_nat (length l).

(** [s[i]] *)
Definition elem {A : Type} (s : list A) (i : Z) : run A :=
  if i <? 0 then Panic
  else match s !! Z.to_nat i with
       | Some a => Ret a
       | None => Panic
       end.

Module Table.
Section WithValue.
Context {V : Type}.

Definition Row : Type := list (option V).

Record t : Type := mk {
columns : list string;
columnMap : gmap string Z;
rows : list Row
}.

Definition with_rows (v : list Row) (tb : t) : t := mk (columns tb) (columnMap tb) v.

(** The loop of [NewTable] from index [i] on. *)
Fixpoint indexColumns (i : Z) (columns : list string) (columnMap : gmap string Z)
  : gmap string Z :=
match columns with
| [] => columnMap
| columnName :: columns => indexColumns (i + 1) columns (<[columnName := i]> columnMap)
end.

(** [NewTable] *)
Definition NewTable (columns : list string) : t :=
mk columns (indexColumns 0 columns ∅) [].

(** [AddColumn] *)
Definition AddColumn (tb : t) (newColumnName : string) (defaultValue : option V)
  : t * option tableError :=
if String.eqb newColumnName "" then (tb, Some ErrEmptyColumnName)
else if columnMap tb !! newColumnName is Some _
then (tb, Some (ErrColumnExists newColumnName))
else
  let columns := columns tb ++ [newColumnName] in
  (mk columns (<[newColumnName := len columns - 1]> (columnMap tb))
      ((fun row => row ++ [defaultValue]) <$> rows tb), None).

(** [NumRows], [NumCols], [Cols], [Rows] *)
Definition NumRows (tb : t) : Z := len (rows tb).
Definition NumCols (tb : t) : Z := len (columns tb).
Definition Cols (tb : t) : list string := columns tb.
Definition Rows (tb : t) : list Row := rows tb.

(** The loop of [GetColumnValues]. *)
Fixpoint columnValues (index : Z) (rows : list Row) (values : list (option V))
  : run (list (option V)) :=
match rows with
| [] => Ret values
| row :: rows =>
    value ← elem row index;
    columnValues index rows (values ++ [value])
end.

(** [GetColumnValues]: the values are appended to a slice that already holds
  [NumRows] nils. [None] is the answer [nil, false]. *)
Definition GetColumnValues (tb : t) (column : string) : run (option (list (option V))) :=
match columnMap tb !! column with
| None => Ret None
| Some index =>
    values ← columnValues index (rows tb) (replicate (Z.to_nat (NumRows tb)) None);
    Ret (Some values)
end.

(** [NewRow] *)
Definition NewRow (tb : t) : t * Z :=
let row : Row := replicate (length (columns tb)) None in
let tb := with_rows (rows tb ++ [row]) tb in
(tb, len (rows tb) - 1).

(** [SetValueByIndex] *)
Definition SetValueByIndex (tb : t) (index : Z) (column : string) (value : option V)
  : run (t * option tableError) :=
match columnMap tb !! column with
| None => Ret (tb, Some (ErrColumnMissing column))
| Some columnIndex =>
    if (index <? 0) || (index >=? len (rows tb)) then Ret (tb, Some (ErrRowMissing index))
    else
      row ← elem (rows tb) index;
      _ ← elem row columnIndex;
      Ret (with_rows (<[Z.to_nat index := <[Z.to_nat columnIndex := value]> row]> (rows tb)) tb,
           None)
end.

(** The loop of [InsertRowAtIndex] over the entries still to come. *)
Fixpoint setValues (tb : t) (index : Z) (entries : list (string * option V))
  : run (t * option tableError) :=
match entries with
| [] => Ret (tb, None)
| (col, val) :: entries =>
    '(tb, err) ← SetValueByIndex tb index col val;
    match err with
    | Some err => Ret (tb, Some err)
    | None => setValues tb index entries
    end
end.

(** [InsertRowAtIndex]; [row] are the entries of the map as the loop meets
  them. *)
Definition InsertRowAtIndex (tb : t) (index : Z) (row : list (string * option V))
  : run (t * option tableError) :=
if (index <? 0) || (index >=? len (rows tb)) then Ret (tb, Some (ErrIndexOutOfRange index))
else setValues tb index row.

(** [AddRow]: the row [NewRow] has made stays when the values fail. *)
Definition AddRow (tb : t) (row : list (string * option V))
  : run (t * Z * option tableError) :=
let '(tb, newRowIndex) := NewRow tb in
'(tb, err) ← InsertRowAtIndex tb newRowIndex row;
match err with
| Some err => Ret (tb, -1, Some err)
| None => Ret (tb, newRowIndex, None)
end.

(** [SetRow] *)
Definition SetRow (tb : t) (index : Z) (row : list (string * option V))
  : run (t * option tableError) :=
InsertRowAtIndex tb index row.

(** [GetValueByIndex] *)
Definition GetValueByIndex (tb : t) (index : Z) (column : string) : run (option V * bool) :=
if (index <? 0) || (index >=? len (rows tb)) then Ret (None, false)
else
  match columnMap tb !! column with
  | Some columnIndex =>
      row ← elem (rows tb) index;
      value ← elem row columnIndex;
      Ret (value, true)
  | None => Ret (None, false)
  end.

(** The loop of [convertRow] over the columns still to come. *)
Fixpoint convertColumns (tb : t) (index : Z) (columns : list string)
  (result : gmap string (option V)) : run (gmap string (option V)) :=
match columns with
| [] => Ret result
| columnName :: columns =>
    '(value, _) ← GetValueByIndex tb index columnName;
    convertColumns tb index columns (<[columnName := value]> result)
end.

(** [convertRow] *)
Definition convertRow (tb : t) (index : Z) : run (gmap string (option V)) :=
convertColumns tb index (columns tb) ∅.

(** [GetRow]; [None] is the answer [nil, false]. *)
Definition GetRow (tb : t) (index : Z) : run (option (gmap string (option V))) :=
if (index <? 0) || (index >=? len (rows tb)) then Ret None
else
  result ← convertRow tb index;
  Ret (Some result).

(** [Get], [Set] *)
Definition Get (tb : t) (index : Z) (column : string) : run (option V * bool) :=
GetValueByIndex tb index column.

Definition Set_ (tb : t) (index : Z) (column : string) (value : option V)
  : run (t * option tableError) :=
SetValueByIndex tb index column value.
End WithValue.
Arguments t V : clear implicits.
Arguments Row V : clear implicits.
End Table.

Module TimeseriesTable.
Section WithValue.
(** [T] and its zero value, which a failed type assertion yields. *)
Context {T : Type} (zero : T).

Record t : Type := mk {
table : Table.t T;
timestampMap : gmap Time.t Z;
timestampArr : list Time.t;
isDirty : bool
}.

Definition with_table (v : Table.t T) (tbl : t) : t :=
mk v (timestampMap tbl) (timestampArr tbl) (isDirty tbl).

(** [NewTimeseriesTable] *)
Definition NewTimeseriesTable (columns : list string) : t :=
mk (Table.NewTable columns) ∅ [] false.

(** [CreateRow] *)
Definition CreateRow (tbl : t) (timestamp : Time.t) : t * option tableError :=
match timestampMap tbl !! timestamp with
| Some _ => (tbl, Some (ErrTimestampExists timestamp))
| None =>
    let '(tb, index) := Table.NewRow (table tbl) in
    (mk tb (<[timestamp := index]> (timestampMap tbl)) (timestampArr tbl ++ [timestamp]) true,
     None)
end.

(** [GetIndexFor] *)
Definition GetIndexFor (tbl : t) (timestamp : Time.t) : Z * bool :=
match timestampMap tbl !! timestamp with
| Some index => (index, true)
| None => (-1, false)
end.

(** [SetRow]: the index is used whether or not the timestamp was found.
  [row] are the entries of the map as the loop of the table meets them. *)
Definition SetRow (tbl : t) (timestamp : Time.t) (row : list (string * T))
  : run (t * option tableError) :=
let '(index, _) := GetIndexFor tbl timestamp in
let interfaceValues := (fun kv => (fst kv, Some (snd kv))) <$> row in
'(tb, err) ← Table.SetRow (table tbl) index interfaceValues;
Ret (with_table tb tbl, err).

(** [AddRow] *)
Definition AddRow (tbl : t) (timestamp : Time.t) (row : list (string * T))
  : run (t * option tableError) :=
match CreateRow tbl timestamp with
| (tbl, Some err) => Ret (tbl, Some err)
| (tbl, None) => SetRow tbl timestamp row
end.

(** [value.(T)] with the error ignored. *)
Definition typed (value : option T) : T := default zero value.

(** [GetRow]; [None] is the answer [nil, false]. *)
Definition GetRow (tbl : t) (timestamp : Time.t) : run (option (gmap string T)) :=
let '(index, ok) := GetIndexFor tbl timestamp in
if negb ok then Ret None
else
  interfaceMap ← Table.GetRow (table tbl) index;
  Ret (Some (typed <$> (default ∅ interfaceMap : gmap string (option T)))).

(** [GetValue] *)
Definition GetValue (tbl : t) (timestamp : Time.t) (column : string) : run (T * bool) :=
let '(index, ok) := GetIndexFor tbl timestamp in
if negb ok then Ret (zero, false)
else
  '(value, ok) ← Table.Get (table tbl) index column;
  if negb ok then Ret (zero, false)
  else Ret (typed value, true).

(** [SetValue]: what [Set] returns is dropped. *)
Definition SetValue (tbl : t) (timestamp : Time.t) (column : string) (value : T)
  : run (t * option tableError) :=
let '(index, ok) := GetIndexFor tbl timestamp in
if negb ok then Ret (tbl, Some (ErrTimestampNotFound timestamp))
else
  '(tb, _) ← Table.Set_ (table tbl) index column (Some value);
  Ret (with_table tb tbl, None).

(** [sort.Slice] with [Before] as its [less]: it leaves the timestamps so
  that none is before one ahead of it. The sort is not stable, so keys of one
  instant end in an order it does not promise; the merge sort gives one such
  order. *)
Definition sortTimestamps (timestamps : list Time.t) : list Time.t :=
merge_sort Time.notAfter timestamps.

(** [Rows]: a row is its timestamp and the table it reads from. *)
Definition Rows (tbl : t) : t * list Time.t :=
let arr := if isDirty tbl then sortTimestamps (timestampArr tbl) else timestampArr tbl in
(mk (table tbl) (timestampMap tbl) arr false, arr).

(** [Cols] *)
Definition Cols (tbl : t) : list string := Table.Cols (table tbl).

(** [TimeseriesRow.Get] and [TimeseriesRow.GetValue] of the row of
  [timestamp]. *)
Definition RowGet (tbl : t) (timestamp : Time.t) : run (option (gmap string T)) :=
GetRow tbl timestamp.

Definition RowGetValue (tbl : t) (timestamp : Time.t) (column : string) : run (T * bool) :=
GetValue tbl timestamp column.
End WithValue.
Arguments t T : clear implicits.
End TimeseriesTable.

(** ** pkg/indicators: SMA and EMA

    A result slice [[]any] holds [nil] or a [float64]: [None] or [Some]. *)

(** [x*y + z] with the product rounded before the sum. The language allows
    an implementation to fuse the two operations into one that rounds once,
    and some targets do; so the code that computes such an expression takes
    the operation its build has as [mulAdd], of which this is one. *)
Definition unfused (x y z : float) : float := (x * y + z)%float.

(** [for i := from; ...; i++] running [n] times over a state. *)
Fixpoint forLoop {St : Type} (body : St -> Z -> run St) (i : Z) (n : nat) (st : St)
    : run St :=
  match n with
  | O => Ret st
  | S n => st ← body st i; forLoop body (i + 1) n st
  end.

(** [sum += candles[j].Close] *)
Definition addClose (candles : list Candle.t) (sum : float) (j : Z) : run float :=
  c ← elem candles j; Ret (sum + Candle.Close c)%float.

Module SMA.
Record t : Type := mk { period : Z }.

(** [NewSMA] *)
Definition NewSMA (period : Z) : t := mk period.

(** The body of the loop of [Calculate]; [i] is below [len(candles)], so
  [i+1] does not wrap. *)
Definition step (s : t) (candles : list Candle.t) (result : list (option float)) (i : Z)
  : run (list (option float)) :=
if i + 1 <? period s then Ret (<[Z.to_nat i := None]> result)
else
  let from := Int.sub (i + 1) (period s) in
  sum ← forLoop (addClose candles) from (Z.to_nat (i - from + 1)) 0%float;
  Ret (<[Z.to_nat i := Some (sum / Int.to_float64 (period s))%float]> result).

(** [Calculate] *)
Definition Calculate (s : t) (candles : list Candle.t) : run (list (option float)) :=
forLoop (step s candles) 0 (length candles) (replicate (length candles) None).
End SMA.

Module EMA.
Record t : Type := mk { period : Z }.

(** [NewEMA] *)
Definition NewEMA (period : Z) : t := mk period.

(** The body of the loop of [Calculate] on the running [ema] and the
  result; [mulAdd x y z] is [x*y + z] as the build computes it. *)
Definition step (mulAdd : float -> float -> float -> float) (e : t)
  (candles : list Candle.t) (multiplier : float)
  (st : float * list (option float)) (i : Z) : run (float * list (option float)) :=
let '(ema, result) := st in
if i + 1 <? period e then Ret (ema, <[Z.to_nat i := None]> result)
else if i + 1 =? period e then
  sum ← forLoop (addClose candles) 0 (Z.to_nat (period e)) 0%float;
  let ema := (sum / Int.to_float64 (period e))%float in
  Ret (ema, <[Z.to_nat i := Some ema]> result)
else
  c ← elem candles i;
  let ema := mulAdd (Candle.Close c - ema)%float multiplier ema in
  Ret (ema, <[Z.to_nat i := Some ema]> result).

(** [Calculate] *)
Definition Calculate (mulAdd : float -> float -> float -> float) (e : t)
  (candles : list Candle.t) : run (list (option float)) :=
let result := replicate (length candles) None in
if len candles =? 0 then Ret result
else
  let multiplier := (2 / Int.to_float64 (Int.add (period e) 1))%float in
  '(_, result) ← forLoop (step mulAdd e candles multiplier) 0 (length candles) (0%float, result);
  Ret result.
End EMA.

(** * Notions the properties are stated with *)

(** ** Sequences of calls on one position *)

(** A position after further orders, with the number of orders accepted so
    far; the loop goes on after an order [AddOrder] rejects. *)
Fixpoint addOrders (pos : Position.t) (accepted : nat) (ords : list Order.t)
    : Position.t * nat :=
  match ords with
  | [] => (pos, accepted)
  | ord :: ords =>
      match Position.AddOrder pos ord with
      | (pos, None) => addOrders pos (S accepted) ords
      | (pos, Some _) => addOrders pos accepted ords
      end
  end.

(** The position a first entry order creates and the further orders are
    added to; [None] when [NewPosition] rejects the first order. *)
Definition openWith (first : Order.t) (rest : list Order.t) : option (Position.t * nat) :=
  match NewPosition first with
  | Ok pos => Some (addOrders pos 1 rest)
  | Fail _ => None
  end.

(** An entry of [quantity] units at [price] on [instrument]. *)
Definition entryOrder (instrument : string) (quantity : Z) (price : float) : Order.t :=
  Fill (NewOrder "" instrument Long Entry quantity 1) price.

(** The open price of the position [first] creates once the orders of [rest]
    have been added. *)
Definition openPriceOf (first : Order.t) (rest : list Order.t) : option float :=
  match openWith first rest with
  | Some (pos, _) => Some (Position.OpenPrice pos)
  | None => None
  end.

(** Quantity and price of each order. *)
Definition fills (ords : list Order.t) : list (Z * float) :=
  map (fun o => (Order.Quantity o, Order.Price o)) ords.

(** [first] is an entry order that creates a position, and every order of
    [rest] an entry order that position accepts. *)
Definition acceptedEntries (first : Order.t) (rest : list Order.t) : Prop :=
  Order.Type_ first = Entry
  /\ 0 < Order.Quantity first
  /\ Forall (fun o => Order.Type_ o = Entry
                      /\ Order.Instrument o = Order.Instrument first
                      /\ 0 < Order.Quantity o) rest.

(** The volume-weighted average [Σ qty_i·price_i / Σ qty_i] of the entries:
    the products summed from the first to the last in [float64], over the sum
    of the quantities. *)
Definition notionalSum (entries : list (Z * float)) : float :=
  match entries with
  | [] => 0%float
  | (q, p) :: rest =>
      fold_left (fun acc qp => (acc + snd qp * Int.to_float64 (fst qp))%float) rest
                (p * Int.to_float64 q)%float
  end.

Definition vwap (entries : list (Z * float)) : float :=
  (notionalSum entries / Int.to_float64 (fold_left Z.add (map fst entries) 0%Z))%float.

(** One step of the running average [AddOrder] keeps: the open price of a
    position of [quantity] units at [openPrice] after [qty] more at [price]. *)
Definition runningAverage (openPrice : float) (quantity : Z) (price : float) (qty : Z) : float :=
  ((openPrice * Int.to_float64 quantity + price * Int.to_float64 qty)
   / Int.to_float64 (Int.add quantity qty))%float.

(** The running average carried through a list of (quantity, price) entries,
    from the price and quantity of the first. *)
Definition runningOpenPrice (entries : list (Z * float)) : option float :=
  match entries with
  | [] => None
  | (q, p) :: rest =>
      Some (fst (fold_left (fun acc qp =>
                              (runningAverage (fst acc) (snd acc) (snd qp) (fst qp),
                               Int.add (snd acc) (fst qp)))
                           rest (p, q)))
  end.

(** ** Calls on a portfolio *)

Inductive Call : Type :=
  | CallProcessOrder (ord : Order.t)
  | CallUpdatePositions (prices : gmap string float).

Definition call (p : Portfolio.t) (c : Call) : Portfolio.t :=
  match c with
  | CallProcessOrder ord => fst (Portfolio.ProcessOrder p ord)
  | CallUpdatePositions prices => Portfolio.UpdatePositions p prices
  end.

(** The portfolio after a sequence of calls. *)
Definition calls (p : Portfolio.t) (cs : list Call) : Portfolio.t :=
  fold_left call cs p.

(** The units the entry order of a call asks for. *)
Definition callVolume (c : Call) : Z :=
  match c with
  | CallProcessOrder ord =>
      match Order.Type_ ord with
      | Entry => Z.max 0 (Order.Quantity ord)
      | Exit => 0
      end
  | CallUpdatePositions _ => 0
  end.

(** The units all entry orders of a sequence of calls ask for. *)
Definition entryVolume (cs : list Call) : Z :=
  fold_right (fun c acc => callVolume c + acc) 0 cs.

(** Every open position sits under its own instrument, holds between one
    and [bound] units and is not closed. *)
Definition openWithin (bound : Z) (p : Portfolio.t) : Prop :=
  forall instrument pos,
    Portfolio.openPositions p !! instrument = Some pos ->
    Position.Instrument pos = instrument
    /\ 0 < Position.Quantity pos <= bound
    /\ Position.Status pos <> Closed.

(** Every position of the closed list holds nothing and is closed. *)
Definition closedAreClosed (p : Portfolio.t) : Prop :=
  forall pos, pos ∈ Portfolio.closedPositions p ->
              Position.Quantity pos = 0 /\ Position.Status pos = Closed.

(** Every open position holds units. *)
Definition openQuantitiesPositive (p : Portfolio.t) : Prop :=
  forall instrument pos,
    Portfolio.openPositions p !! instrument = Some pos -> 0 < Position.Quantity pos.

(** No instrument is both a key of the open map and the instrument of a
    closed position. *)
Definition openClosedDisjoint (p : Portfolio.t) : Prop :=
  forall instrument pos,
    Portfolio.openPositions p !! instrument = Some pos ->
    forall closed, closed ∈ Portfolio.closedPositions p ->
                   Position.Instrument closed <> instrument.

(** Every open position sits under its own instrument. *)
Definition keyedByInstrument (positions : gmap string Position.t) : Prop :=
  forall instrument pos,
    positions !! instrument = Some pos -> Position.Instrument pos = instrument.

(** The notional [validateOrder] holds against the cash: the division by a
    leverage is for long orders of a portfolio whose default leverage is
    set. *)
Definition requiredCash (p : Portfolio.t) (ord : Order.t) : float :=
  let notional := (Int.to_float64 (Order.Quantity ord) * Order.Price ord)%float in
  match Order.Side ord with
  | Short => notional
  | Long =>
      if (Portfolio.DefaultLeverage (Portfolio.settings p) >? 0)%float then
        if (Order.Leverage ord >? 0)%float
        then (notional / Order.Leverage ord)%float
        else (notional / Portfolio.DefaultLeverage (Portfolio.settings p))%float
      else notional
  end.

(** The leverage-adjusted notional [quantity·price/leverage] of an order,
    with the leverage the order carries. *)
Definition leverageAdjustedNotional (ord : Order.t) : float :=
  (Int.to_float64 (Order.Quantity ord) * Order.Price ord / Order.Leverage ord)%float.

(** The order passes the short-selling check of [validateOrder]. *)
Definition sideAllowed (p : Portfolio.t) (ord : Order.t) : Prop :=
  Portfolio.EnableShorts (Portfolio.settings p) = true \/ Order.Side ord = Long.

Definition isInsufficientCash (e : option error) : Prop :=
  exists have need, e = Some (ErrInsufficientCash have need).

(** ** Exit conditions *)

Definition stopLossHit (m : risk.Manager) (pos : Position.t) (price : float) : bool :=
  risk.UseStopLoss (risk.settings m)
  && match Position.Side pos with
     | Long => (price <=? Position.OpenPrice pos * (1 - risk.DefaultStopLoss (risk.settings m)))%float
     | Short => (price >=? Position.OpenPrice pos * (1 + risk.DefaultStopLoss (risk.settings m)))%float
     end.

Definition takeProfitHit (m : risk.Manager) (pos : Position.t) (price : float) : bool :=
  risk.UseTakeProfit (risk.settings m)
  && match Position.Side pos with
     | Long => (price >=? Position.OpenPrice pos * (1 + risk.DefaultTakeProfit (risk.settings m)))%float
     | Short => (price <=? Position.OpenPrice pos * (1 - risk.DefaultTakeProfit (risk.settings m)))%float
     end.

(** The anchor of the trailing stop once it has seen [price]. *)
Definition ratchet (pos : Position.t) (price : float) : float :=
  match Position.Side pos with
  | Long => if (price >? Position.TrailingStopHigh pos)%float
            then price else Position.TrailingStopHigh pos
  | Short => if (price <? Position.TrailingStopHigh pos)%float
             then price else Position.TrailingStopHigh pos
  end.

Definition trailingStopHit (m : risk.Manager) (pos : Position.t) (price : float) : bool :=
  risk.UseTrailingStop (risk.settings m)
  && match Position.Side pos with
     | Long => (price <=? ratchet pos price * (1 - risk.DefaultTrailingStop (risk.settings m)))%float
     | Short => (price >=? ratchet pos price * (1 + risk.DefaultTrailingStop (risk.settings m)))%float
     end.

(** The first condition that triggers, in the order stop-loss, take-profit,
    trailing stop. *)
Definition firstTrigger (m : risk.Manager) (pos : Position.t) (price : float) : option string :=
  if stopLossHit m pos price then Some "stop_loss"
  else if takeProfitHit m pos price then Some "take_profit"
  else if trailingStopHit m pos price then Some "trailing_stop"
  else None.

(** The full-size exit order on the opposite side at [price]. *)
Definition fullExit (pos : Position.t) (price : float) : Order.t :=
  Order.mk "" (Position.Instrument pos) (Opposite (Position.Side pos)) Exit
           (Position.Quantity pos) price 0%float.

(** The orders one position contributes to a scan. *)
Definition contribution (m : risk.Manager) (prices : gmap string float)
    (pos : Position.t) : list Order.t :=
  match prices !! Position.Instrument pos with
  | Some price => if firstTrigger m pos price is Some _ then [fullExit pos price] else []
  | None => []
  end.

(** The exit orders of a call that are for [instrument]. *)
Definition ordersFor (instrument : string) (orders : list Order.t) : list Order.t :=
  filter (fun o => Order.Instrument o = instrument) orders.

(** What touches a position between two ticks: a mark update or an
    evaluation of the exit conditions. *)
Inductive Touch : Type :=
  | TouchUpdatePrice (price : float)
  | TouchCheckExit (m : risk.Manager) (price : float).

Definition touch (pos : Position.t) (t : Touch) : Position.t :=
  match t with
  | TouchUpdatePrice price => Position.UpdatePrice pos price
  | TouchCheckExit m price => fst (fst (risk.checkExitConditions m pos price))
  end.

Definition touches (pos : Position.t) (ts : list Touch) : Position.t :=
  fold_left touch ts pos.

(** ** The order of two values of the anchor

    A comparison with NaN is false either way, so the order is stated for an
    anchor that is a number; the anchor of a position is the price of its
    entry order. *)

(** From [a] the anchor has gone to [b], a number at least as large. *)
Definition rises (a b : float) : Prop :=
  is_nan a = false -> is_nan b = false /\ (a <=? b)%float = true.

(** From [a] the anchor has gone to [b], a number at most as large. *)
Definition falls (a b : float) : Prop :=
  is_nan a = false -> is_nan b = false /\ (b <=? a)%float = true.

(** ** A completed run of the runner *)

(** [ticks r rows posts r']: from [r] the loop of [Start] works through
    [rows] without an error and ends in [r']; [posts] are the portfolios as
    [processTick] leaves them, tick by tick. *)
Inductive ticks {S : Type} `{Strategy S}
    : Runner.t S -> list TimeseriesRow.t -> list Portfolio.t -> Runner.t S -> Prop :=
  | ticks_nil (r : Runner.t S) : ticks r [] [] r
  | ticks_cons (r r1 r' : Runner.t S) row rows data pf posts :
      TimeseriesRow.Get row = Some data ->
      Runner.processTick (Runner.with_CurrentTime (TimeseriesRow.Timestamp row) r) data
        = (r1, None) ->
      Runner.Portfolio_ r1 = Some pf ->
      ticks (Runner.updateEquityCurve r1) rows posts r' ->
      ticks r (row :: rows) (pf :: posts) r'.

(** The snapshots of the post-tick portfolios under the timestamps of their
    rows. *)
Definition snapshots (rows : list TimeseriesRow.t) (posts : list Portfolio.t)
    : list AccountValue.t :=
  zip_with (fun row pf => Runner.snapshot (TimeseriesRow.Timestamp row) pf) rows posts.

(** A strategy that plays a script: at every tick it places the orders at
    the head of the list it holds. *)
#[export] Instance ScriptedStrategy : Strategy (list (list Order.t)) := {
  OnTick := fun script _ _ => (tail script, default [] (head script));
  OnOrderFilled := fun script _ _ => script
}.

(** What no order and no tick touches: the equity curve and the clock; and
    a portfolio that is set stays set. *)
Definition sameFrame {S : Type} (r r1 : Runner.t S) : Prop :=
  Runner.EquityCurve r1 = Runner.EquityCurve r
  /\ Runner.CurrentTime r1 = Runner.CurrentTime r
  /\ (is_Some (Runner.Portfolio_ r) -> is_Some (Runner.Portfolio_ r1)).

(** The units the entry orders of a list ask for. *)
Definition ordersVolume (ords : list Order.t) : Z :=
  fold_right (fun ord acc =>
                match Order.Type_ ord with
                | Entry => Z.max 0 (Order.Quantity ord) + acc
                | Exit => acc
                end) 0 ords.

(** The invariant a position keeps while orders are added to it: [first] is
    the quantity it was created with, [bound] what it may hold. *)
Definition positionWithin (first bound : Z) (pos : Position.t) : Prop :=
  0 <= Position.Quantity pos <= bound
  /\ (Position.Quantity pos = 0 -> Position.Status pos = Closed)
  /\ (Position.Status pos = Open -> first <= Position.Quantity pos).

(** The highest and the lowest price on record once [price] has been seen. *)
Definition highAfter (pos : Position.t) (price : float) : float :=
  if (price >? Position.HighestPrice pos)%float then price else Position.HighestPrice pos.

Definition lowAfter (pos : Position.t) (price : float) : float :=
  if (price <? Position.LowestPrice pos)%float || (Position.LowestPrice pos =? 0)%float
  then price else Position.LowestPrice pos.

(** The unrealized PnL of the full quantity at [price]. *)
Definition unrealizedAt (pos : Position.t) (price : float) : float :=
  match Position.Side pos with
  | Long => (Int.to_float64 (Position.Quantity pos)
             * (price - Position.OpenPrice pos) * Position.Leverage pos)%float
  | Short => (Int.to_float64 (Position.Quantity pos)
              * (Position.OpenPrice pos - price) * Position.Leverage pos)%float
  end.

(** The maximum drawdown on record once [price] has been seen. *)
Definition drawdownAfter (pos : Position.t) (price : float) : float :=
  let drawdown :=
    match Position.Side pos with
    | Long => ((highAfter pos price - price) / highAfter pos price)%float
    | Short => ((price - lowAfter pos price) / lowAfter pos price)%float
    end in
  if (drawdown >? Position.MaxDrawdown pos)%float then drawdown else Position.MaxDrawdown pos.

(** The notional [quantity*price] of an order. *)
Definition notional (ord : Order.t) : float :=
  (Int.to_float64 (Order.Quantity ord) * Order.Price ord)%float.

(** The cash [handleEntryOrder] takes for an entry order. *)
Definition entryCost (p : Portfolio.t) (ord : Order.t) : float :=
  if (Portfolio.DefaultLeverage (Portfolio.settings p) >? 1)%float
     && (if Order.Side ord is Long then true else false)
  then (notional ord / Portfolio.DefaultLeverage (Portfolio.settings p))%float
  else notional ord.

(** The orders a sequence of calls submits. *)
Definition submitted (cs : list Call) : list Order.t :=
  omap (fun c => match c with
                 | CallProcessOrder ord => Some ord
                 | CallUpdatePositions _ => None
                 end) cs.

(** The profitable ones among a list of closed positions, and among the open
    positions. *)
Definition winningTrades (closed : list Position.t) : list Position.t :=
  List.filter (fun pos => (Position.RealizedPnL pos >? 0)%float) closed.

Definition winningPositions (open : gmap string Position.t) : gmap string Position.t :=
  filter (fun kv => (Position.UnrealizedPnL kv.2 >? 0)%float = true) open.

(** The orders of a sequence of calls that [ProcessOrder] accepts, each tried
    on the portfolio the calls before it have left. *)
Fixpoint acceptedOrders (p : Portfolio.t) (cs : list Call) : list Order.t :=
  match cs with
  | [] => []
  | c :: cs =>
      match c with
      | CallProcessOrder ord =>
          if snd (Portfolio.ProcessOrder p ord) is None then [ord] else []
      | CallUpdatePositions _ => []
      end ++ acceptedOrders (call p c) cs
  end.

(** The anchor of the trailing stop as an evaluation of the exit conditions
    at [price] leaves it: moved only when neither stop-loss nor take-profit
    triggers and the trailing stop is on. *)
Definition anchorAfter (m : risk.Manager) (pos : Position.t) (price : float) : float :=
  if negb (stopLossHit m pos price) && negb (takeProfitHit m pos price)
     && risk.UseTrailingStop (risk.settings m)
  then ratchet pos price else Position.TrailingStopHigh pos.

(** A position as a scan with [prices] leaves it. *)
Definition scanned (m : risk.Manager) (prices : gmap string float) (pos : Position.t)
    : Position.t :=
  match prices !! Position.Instrument pos with
  | Some price => Position.with_TrailingStopHigh (anchorAfter m pos price) pos
  | None => pos
  end.

(** The price has reached [threshold] against a position of that side, and
    in its favour. *)
Definition adverse (side : OrderSide) (price threshold : float) : bool :=
  match side with
  | Long => (price <=? threshold)%float
  | Short => (price >=? threshold)%float
  end.

Definition favourable (side : OrderSide) (price threshold : float) : bool :=
  match side with
  | Long => (price >=? threshold)%float
  | Short => (price <=? threshold)%float
  end.

(** The close prices of a row; none when the row has no data. *)
Definition closes (row : TimeseriesRow.t) : gmap string float :=
  match TimeseriesRow.Get row with
  | Some data => Runner.getCurrentPrices data
  | None => ∅
  end.

(** A portfolio marked to the closes of the rows, one after the other. *)
Definition marked (p : Portfolio.t) (rows : list TimeseriesRow.t) : Portfolio.t :=
  fold_left (fun p row => Portfolio.UpdatePositions p (closes row)) rows p.

(** The equity curve of a run in which nothing but the marks moves. *)
Fixpoint quietCurve (p : Portfolio.t) (rows : list TimeseriesRow.t) : list AccountValue.t :=
  match rows with
  | [] => []
  | row :: rows =>
      let p := Portfolio.UpdatePositions p (closes row) in
      Runner.snapshot (TimeseriesRow.Timestamp row) p :: quietCurve p rows
  end.

(** The cell of row [index] under [column], when there is one. *)
Definition cell {V : Type} (tb : Table.t V) (index : Z) (column : string)
    : option (option V) :=
  if index <? 0 then None
  else
    row ← Table.rows tb !! Z.to_nat index;
    columnIndex ← Table.columnMap tb !! column;
    if columnIndex <? 0 then None else row !! Z.to_nat columnIndex.

(** Every row is as wide as the table, and the column map sends every column
    name, and nothing else, to a place where the name stands. *)
Definition tableWf {V : Type} (tb : Table.t V) : Prop :=
  Forall (fun row => length row = length (Table.columns tb)) (Table.rows tb)
  /\ (forall column i, Table.columnMap tb !! column = Some i ->
                       0 <= i /\ Table.columns tb !! Z.to_nat i = Some column)
  /\ (forall column, column ∈ Table.columns tb -> is_Some (Table.columnMap tb !! column)).

(** The entries of a row all name columns of the table. *)
Definition knownColumns {V A : Type} (tb : Table.t V) (entries : list (string * A)) : Prop :=
  Forall (fun kv => is_Some (Table.columnMap tb !! fst kv)) entries.

(** The calls a program makes on a timeseries table. *)
Inductive TableCall (T : Type) : Type :=
  | CallCreateRow (timestamp : Time.t)
  | CallSetRow (timestamp : Time.t) (row : list (string * T))
  | CallAddRow (timestamp : Time.t) (row : list (string * T))
  | CallSetValue (timestamp : Time.t) (column : string) (value : T)
  | CallRows.
Arguments CallCreateRow {T} timestamp.
Arguments CallSetRow {T} timestamp row.
Arguments CallAddRow {T} timestamp row.
Arguments CallSetValue {T} timestamp column value.
Arguments CallRows {T}.

(** The table after a call, whatever error the call reports. *)
Definition tableCall {T : Type} (tbl : TimeseriesTable.t T) (c : TableCall T)
    : run (TimeseriesTable.t T) :=
  match c with
  | CallCreateRow timestamp => Ret (fst (TimeseriesTable.CreateRow tbl timestamp))
  | CallSetRow timestamp row => fst <$> TimeseriesTable.SetRow tbl timestamp row
  | CallAddRow timestamp row => fst <$> TimeseriesTable.AddRow tbl timestamp row
  | CallSetValue timestamp column value =>
      fst <$> TimeseriesTable.SetValue tbl timestamp column value
  | CallRows => Ret (fst (TimeseriesTable.Rows tbl))
  end.

Fixpoint tableCalls {T : Type} (tbl : TimeseriesTable.t T) (cs : list (TableCall T))
    : run (TimeseriesTable.t T) :=
  match cs with
  | [] => Ret tbl
  | c :: cs => tbl ← tableCall tbl c; tableCalls tbl cs
  end.

(** The table inside is well formed; every timestamp of the map has a row of
    its own; the array lists the timestamps of the map, each once, and unless
    the table is marked dirty none of them is before one ahead of it. *)
Definition seriesWf {T : Type} (tbl : TimeseriesTable.t T) : Prop :=
  tableWf (TimeseriesTable.table tbl)
  /\ (forall ts i, TimeseriesTable.timestampMap tbl !! ts = Some i ->
                   0 <= i < len (Table.rows (TimeseriesTable.table tbl)))
  /\ (forall ts1 ts2 i, TimeseriesTable.timestampMap tbl !! ts1 = Some i ->
                        TimeseriesTable.timestampMap tbl !! ts2 = Some i -> ts1 = ts2)
  /\ NoDup (TimeseriesTable.timestampArr tbl)
  /\ (forall ts, ts ∈ TimeseriesTable.timestampArr tbl
                 <-> is_Some (TimeseriesTable.timestampMap tbl !! ts))
  /\ (TimeseriesTable.isDirty tbl = false
      -> StronglySorted Time.notAfter (TimeseriesTable.timestampArr tbl)).

(** The rows the runner walks: [Rows] of the table, each with the instant of
    its timestamp and what its [Get] answers. *)
Definition runnerRows (tbl : TimeseriesTable.t Candle.t) : list TimeseriesRow.t :=
  let '(tbl, timestamps) := TimeseriesTable.Rows tbl in
  (fun timestamp =>
     TimeseriesRow.mk (Time.instant timestamp)
       (match TimeseriesTable.RowGet (Candle.mk 0 0 0 0 0) tbl timestamp with
        | Ret data => data
        | Panic => None
        end)) <$> timestamps.

(** The closes of a list of candles added up from [sum], first to last. *)
Definition sumCloses (candles : list Candle.t) (sum : float) : float :=
  fold_left (fun sum c => (sum + Candle.Close c)%float) candles sum.

(** The candles [i+1-period .. i]. *)
Definition window (period : Z) (candles : list Candle.t) (i : nat) : list Candle.t :=
  take (Z.to_nat period) (drop (Z.to_nat (Z.of_nat i + 1 - period)) candles).

(** The mean of the closes of the window that ends at [i]. *)
Definition windowMean (period : Z) (candles : list Candle.t) (i : nat) : float :=
  (sumCloses (window period candles i) 0 / Int.to_float64 period)%float.

(** What [SMA.Calculate] leaves at index [i]. *)
Definition smaValue (period : Z) (candles : list Candle.t) (i : nat) : option float :=
  if Z.of_nat i + 1 <? period then None else Some (windowMean period candles i).

(** The weight [EMA.Calculate] gives the newest close. *)
Definition emaMultiplier (period : Z) : float :=
  (2 / Int.to_float64 (Int.add period 1))%float.

(** What [EMA.Calculate] leaves at index [i]: nothing during the warm-up, the
    mean of the first [period] closes at the end of it, and from then on the
    value before moved towards the close by the multiplier. *)
Fixpoint emaValue (mulAdd : float -> float -> float -> float) (period : Z)
    (candles : list Candle.t) (i : nat) : option float :=
  if Z.of_nat i + 1 <? period then None
  else if Z.of_nat i + 1 =? period then Some (windowMean period candles i)
  else
    match candles !! i with
    | None => None
    | Some c =>
        let before := match i with
                      | O => 0%float
                      | S j => default 0%float (emaValue mulAdd period candles j)
                      end in
        Some (mulAdd (Candle.Close c - before)%float (emaMultiplier period) before)
    end.

(** The running value when the loop reaches index [i]. *)
Definition emaBefore (mulAdd : float -> float -> float -> float) (period : Z)
    (candles : list Candle.t) (i : nat) : float :=
  match i with
  | O => 0%float
  | S j => default 0%float (emaValue mulAdd period candles j)
  end.

(** The cash of a portfolio once [ord] has been carried out. *)
Definition settle (p : Portfolio.t) (cash : float) (ord : Order.t) : float :=
  match Order.Type_ ord with
  | Entry => (cash - entryCost p ord)%float
  | Exit => (cash + notional ord)%float
  end.

(** * Properties *)

(** ** binary64 order and sum *)

Section FloatFacts.
Local Ltac cmp_cases :=
repeat match goal with
| H : context [Pos.compare_cont Eq ?a ?b] |- _ =>
    change (Pos.compare_cont Eq a b) with (Pos.compare a b) in H
| |- context [Pos.compare_cont Eq ?a ?b] =>
    change (Pos.compare_cont Eq a b) with (Pos.compare a b)
end;
repeat match goal with
| H : context [Z.compare ?a ?b] |- _ => destruct (Z.compare_spec a b); simpl in H
| |- context [Z.compare ?a ?b] => destruct (Z.compare_spec a b); simpl
| H : context [Pos.compare ?a ?b] |- _ => destruct (Pos.compare_spec a b); simpl in H
| |- context [Pos.compare ?a ?b] => destruct (Pos.compare_spec a b); simpl
end;
subst; try congruence; try lia.

Lemma SFcompare_antisym x y :
SFcompare y x = option_map CompOpp (SFcompare x y).
Proof.
destruct x as [[]|[]| |[] m1 e1], y as [[]|[]| |[] m2 e2]; simpl; try reflexivity;
  cmp_cases.
Qed.

Lemma SFcompare_refl x : x <> S754_nan -> SFcompare x x = Some Eq.
Proof.
destruct x as [[]|[]| |[] m e]; simpl; try congruence; intros _;
  rewrite Z.compare_refl; change (Pos.compare_cont Eq m m) with (Pos.compare m m);
  rewrite Pos.compare_refl; reflexivity.
Qed.

Lemma SFcompare_nan_r x : SFcompare x S754_nan = None.
Proof. destruct x as [[]|[]| |[] m e]; reflexivity. Qed.

Lemma SFleb_trans x y z :
SFleb x y = true -> SFleb y z = true -> SFleb x z = true.
Proof.
unfold SFleb.
destruct x as [[]|[]| |[] m1 e1], y as [[]|[]| |[] m2 e2], z as [[]|[]| |[] m3 e3];
  simpl; try congruence; intros Hxy Hyz; cmp_cases.
Qed.

Lemma SFadd_comm x y : SF64add x y = SF64add y x.
Proof.
unfold SF64add.
destruct x as [[]|[]| |sx mx ex], y as [[]|[]| |sy my ey]; simpl; try reflexivity.
rewrite (Z.min_comm ey ex), Z.add_comm. reflexivity.
Qed.

Lemma f64_is_nan_spec x : is_nan x = true <-> Prim2SF x = S754_nan.
Proof.
unfold is_nan. rewrite FloatAxioms.eqb_spec. unfold SFeqb. split.
- intros Hn. destruct (Prim2SF x) as [[]|[]| |[] m e] eqn:E; try reflexivity;
    rewrite SFcompare_refl in Hn by congruence; discriminate.
- intros ->. reflexivity.
Qed.

Lemma f64_not_nan_spec x : is_nan x = false <-> Prim2SF x <> S754_nan.
Proof.
rewrite <- f64_is_nan_spec. destruct (is_nan x); split; congruence.
Qed.

Lemma f64_ltb_irrefl x : (x <? x)%float = false.
Proof.
rewrite FloatAxioms.ltb_spec. unfold SFltb.
destruct (Prim2SF x) as [[]|[]| |[] m e] eqn:E; try reflexivity;
  rewrite SFcompare_refl by congruence; reflexivity.
Qed.

Lemma f64_leb_refl x : is_nan x = false -> (x <=? x)%float = true.
Proof.
intros Hn. apply f64_not_nan_spec in Hn. rewrite FloatAxioms.leb_spec. unfold SFleb.
rewrite SFcompare_refl by assumption. reflexivity.
Qed.

Lemma f64_ltb_leb x y : (x <? y)%float = true -> (x <=? y)%float = true.
Proof.
rewrite FloatAxioms.ltb_spec, FloatAxioms.leb_spec. unfold SFltb, SFleb.
destruct (SFcompare (Prim2SF x) (Prim2SF y)) as [[]|]; congruence.
Qed.

Lemma f64_leb_trans x y z :
(x <=? y)%float = true -> (y <=? z)%float = true -> (x <=? z)%float = true.
Proof. rewrite !FloatAxioms.leb_spec. apply SFleb_trans. Qed.

Lemma f64_leb_not_gtb x y : (x <=? y)%float = true -> (y <? x)%float = false.
Proof.
rewrite FloatAxioms.ltb_spec, FloatAxioms.leb_spec. unfold SFltb, SFleb.
rewrite (SFcompare_antisym (Prim2SF x) (Prim2SF y)).
destruct (SFcompare (Prim2SF x) (Prim2SF y)) as [[]|]; simpl; congruence.
Qed.

Lemma f64_ltb_not_nan x y :
(x <? y)%float = true -> is_nan x = false /\ is_nan y = false.
Proof.
rewrite FloatAxioms.ltb_spec. unfold SFltb. intros Hlt.
split; apply f64_not_nan_spec; intros Hn; rewrite Hn in Hlt.
- discriminate.
- rewrite SFcompare_nan_r in Hlt. discriminate.
Qed.

Lemma f64_nan_ltb x y :
is_nan x = true -> (x <? y)%float = false /\ (y <? x)%float = false.
Proof.
intros Hn. split.
- destruct (x <? y)%float eqn:E; [|reflexivity].
  apply f64_ltb_not_nan in E. destruct E. congruence.
- destruct (y <? x)%float eqn:E; [|reflexivity].
  apply f64_ltb_not_nan in E. destruct E. congruence.
Qed.

Lemma f64_add_comm x y : (x + y = y + x)%float.
Proof. apply Prim2SF_inj. rewrite !FloatAxioms.add_spec. apply SFadd_comm. Qed.
End FloatFacts.

(** ** The end-to-end scenario *)

(** C1. A portfolio of 10000 in cash, default leverage unset, no risk limits.
    An entry order Long AAPL, 10 units at 100, leaves 9000 in cash; the mark
    update at 120 makes the unrealized PnL of the position 200; the exit order
    of 10 units at 120 leaves 10200 in cash, the position closed with a
    realized PnL of 200 and out of the open map, and [Value] at 10200. *)
Theorem end_to_end_accounting :
  let p0 := Portfolio.New (Portfolio.mkSettings 10000 false 0) in
  let entry := Fill (NewOrder "ord_1" "AAPL" Long Entry 10 1) 100 in
  let exit := Fill (NewOrder "ord_2" "AAPL" Long Exit 10 1) 120 in
  let p1 := Portfolio.ProcessOrder p0 entry in
  let p2 := Portfolio.UpdatePositions (fst p1) {["AAPL" := 120%float]} in
  let p3 := Portfolio.ProcessOrder p2 exit in
  snd p1 = None
  /\ Portfolio.cash (fst p1) = 9000%float
  /\ Position.UnrealizedPnL <$> Portfolio.openPositions p2 !! "AAPL" = Some 200%float
  /\ snd p3 = None
  /\ Portfolio.cash (fst p3) = 10200%float
  /\ Position.Status <$> Portfolio.closedPositions (fst p3) = [Closed]
  /\ Position.RealizedPnL <$> Portfolio.closedPositions (fst p3) = [200%float]
  /\ Position.Instrument <$> Portfolio.closedPositions (fst p3) = ["AAPL"]
  /\ Portfolio.openPositions (fst p3) !! "AAPL" = None
  /\ size (Portfolio.openPositions (fst p3)) = 0%nat
  /\ Portfolio.Value (fst p3) = 10200%float.
Proof. vm_compute. repeat split; reflexivity. Qed.

(** ** Realized PnL *)

(** C4. A long position opened at 100 with 10 units and leverage 2, exited in
    full at 110, has realized 10*(110-100)*2 = 200; a short position opened at
    100 with 10 units and leverage 1, exited in full at 90, has realized
    10*(100-90)*1 = 100. Identifier, side and leverage of the exit order play
    no part. *)
Theorem realized_pnl_sign_and_leverage (id : string) (side : OrderSide) (lev : float) :
  (exists pos,
      NewPosition (Order.mk "" "X" Long Entry 10 100 2) = Ok pos
      /\ snd (Position.AddOrder pos (Order.mk id "X" side Exit 10 110 lev)) = None
      /\ Position.RealizedPnL (fst (Position.AddOrder pos (Order.mk id "X" side Exit 10 110 lev)))
         = 200%float
      /\ (10 * (110 - 100) * 2 = 200)%float)
  /\ (exists pos,
      NewPosition (Order.mk "" "X" Short Entry 10 100 1) = Ok pos
      /\ snd (Position.AddOrder pos (Order.mk id "X" side Exit 10 90 lev)) = None
      /\ Position.RealizedPnL (fst (Position.AddOrder pos (Order.mk id "X" side Exit 10 90 lev)))
         = 100%float
      /\ (10 * (100 - 90) * 1 = 100)%float).
Proof.
  split; eexists; (split; [reflexivity|]); vm_compute; repeat split; reflexivity.
Qed.

(** ** Positions *)

Section PositionFacts.
Implicit Types (pos : Position.t) (ord : Order.t).

(** Walks every branch of [AddOrder] on a position given by its fields. *)
Local Ltac add_order_cases pos :=
destruct pos; unfold Position.AddOrder; cbn;
repeat match goal with
       | |- context [match ?x with _ => _ end] => destruct x eqn:?
       end; cbn.

(** A rejected order leaves the position as it was. *)
Lemma AddOrder_rejected pos ord pos' e :
Position.AddOrder pos ord = (pos', Some e) -> pos' = pos.
Proof. add_order_cases pos; intros Heq; inversion Heq; reflexivity. Qed.

(** An accepted order is appended to the history. *)
Lemma AddOrder_accepted_orders pos ord pos' :
Position.AddOrder pos ord = (pos', None) ->
Position.Orders pos' = Position.Orders pos ++ [ord].
Proof. add_order_cases pos; intros Heq; inversion Heq; reflexivity. Qed.

(** An accepted order is for the instrument of the position and asks for
  at least one unit. *)
Lemma AddOrder_accepted_valid pos ord pos' :
Position.AddOrder pos ord = (pos', None) ->
Order.Instrument ord = Position.Instrument pos /\ 0 < Order.Quantity ord.
Proof.
unfold Position.AddOrder.
destruct (String.eqb _ _) eqn:Hinstr; [|discriminate].
destruct (Order.Quantity ord <=? 0) eqn:Hqty; [discriminate|].
intros _. split; [apply String.eqb_eq; assumption|apply Z.leb_gt; assumption].
Qed.

(** Instrument, side and leverage of a position never change. *)
Lemma AddOrder_fixed pos ord :
Position.Instrument (fst (Position.AddOrder pos ord)) = Position.Instrument pos
/\ Position.Side (fst (Position.AddOrder pos ord)) = Position.Side pos
/\ Position.Leverage (fst (Position.AddOrder pos ord)) = Position.Leverage pos.
Proof. add_order_cases pos; repeat split; reflexivity. Qed.

Lemma addOrders_history pos n ords :
length (Position.Orders pos) = S n ->
length (Position.Orders (fst (addOrders pos n ords))) = S (snd (addOrders pos n ords)).
Proof.
revert pos n. induction ords as [|ord ords IH]; intros pos n Hlen; simpl; [assumption|].
destruct (Position.AddOrder pos ord) as [pos' [e|]] eqn:Hadd.
- apply AddOrder_rejected in Hadd. subst pos'. apply IH. assumption.
- apply AddOrder_accepted_orders in Hadd. apply IH.
  rewrite Hadd, length_app. simpl. lia.
Qed.
End PositionFacts.

(** C10, as stated, fails: the parameter of [NewPosition] is a copy, the
    leverage of the copy is raised to 1 when it is not above 1, and the copy
    is what the history receives. For an entry order with leverage 0.5 the
    second element of the history is not the order that was passed. *)
Lemma order_history_second_is_adjusted_copy :
  let ord := Fill (NewOrder "ord_1" "AAPL" Long Entry 10 0.5) 100 in
  exists pos, NewPosition ord = Ok pos
              /\ length (Position.Orders pos) = 2%nat
              /\ Position.Orders pos !! 1%nat <> Some ord.
Proof.
  eexists. split; [reflexivity|]. split; [reflexivity|].
  intros Heq.
  apply (f_equal (fun o => Prim2SF (Order.Leverage (default Order.zero o)))) in Heq.
  vm_compute in Heq. discriminate.
Qed.

(** C10, amended. A position [NewPosition] returns has a history of length 2:
    a zero-valued order (empty instrument, quantity 0, price 0), then the
    entry order with its leverage raised to 1 when it is not above 1. The
    history then grows by one with every order accepted, so it always holds
    one element more than the orders accepted. *)
Theorem order_history_starts_with_dummy (ord : Order.t) (pos : Position.t)
    (rest : list Order.t) :
  NewPosition ord = Ok pos ->
  Position.Orders pos
  = [Order.mk "" "" Long Entry 0 0%float 0%float;
     if (Order.Leverage ord <=? 1)%float then Order.with_Leverage 1%float ord else ord]
  /\ length (Position.Orders pos) = 2%nat
  /\ length (Position.Orders (fst (addOrders pos 1 rest)))
     = S (snd (addOrders pos 1 rest)).
Proof.
  unfold NewPosition. destruct (Order.Type_ ord); [|discriminate].
  destruct (Order.Quantity ord <=? 0); [discriminate|].
  intros Heq. inversion Heq; subst; clear Heq.
  split; [reflexivity|]. split; [reflexivity|].
  apply addOrders_history. reflexivity.
Qed.

Lemma order_history_starts_with_dummy_witness :
  let ord := Fill (NewOrder "ord_1" "AAPL" Long Entry 10 2) 100 in
  let exit := Fill (NewOrder "ord_2" "AAPL" Long Exit 4 1) 110 in
  let over := Fill (NewOrder "ord_3" "AAPL" Long Exit 40 1) 110 in
  let pos := Position.mk "AAPL" Long 10 100 0 Open [Order.zero; ord] 2 0 0 0 0 0 0 0 100 in
  NewPosition ord = Ok pos
  /\ Position.Orders pos = [Order.zero; ord]
  /\ length (Position.Orders (fst (addOrders pos 1 [exit; over]))) = 3%nat.
Proof.
  intros ord exit over pos.
  split; [reflexivity|].
  destruct (order_history_starts_with_dummy ord pos [exit; over] eq_refl) as (H1 & H2 & H3).
  split; [exact H1 | exact H3].
Defined.

(** ** The portfolio: failing calls *)

Section PortfolioFacts.
Implicit Types (p : Portfolio.t) (pos : Position.t) (ord : Order.t).

Lemma with_openPositions_insert_id p instrument pos :
Portfolio.openPositions p !! instrument = Some pos ->
Portfolio.with_openPositions (<[instrument := pos]> (Portfolio.openPositions p)) p = p.
Proof.
intros Hpos. destruct p as [c o cl h s]. unfold Portfolio.with_openPositions. simpl in *.
rewrite insert_id by assumption. reflexivity.
Qed.

Lemma handleEntryOrder_failure p ord p' e :
Portfolio.handleEntryOrder p ord = (p', Some e) -> p' = p.
Proof.
unfold Portfolio.handleEntryOrder.
destruct (Portfolio.openPositions p !! Order.Instrument ord) as [pos|] eqn:Hpos.
- destruct (Position.AddOrder pos ord) as [pos' [err|]] eqn:Hadd.
  + apply AddOrder_rejected in Hadd. subst pos'.
    rewrite with_openPositions_insert_id by assumption.
    intros Heq. inversion Heq. reflexivity.
  + discriminate.
- destruct (NewPosition ord); [discriminate|].
  intros Heq. inversion Heq. reflexivity.
Qed.

Lemma handleExitOrder_failure p ord p' e :
Portfolio.handleExitOrder p ord = (p', Some e) -> p' = p.
Proof.
unfold Portfolio.handleExitOrder.
destruct (Portfolio.openPositions p !! Order.Instrument ord) as [pos|] eqn:Hpos.
- destruct (Position.AddOrder pos ord) as [pos' [err|]] eqn:Hadd.
  + apply AddOrder_rejected in Hadd. subst pos'.
    rewrite with_openPositions_insert_id by assumption.
    intros Heq. inversion Heq. reflexivity.
  + discriminate.
- intros Heq. inversion Heq. reflexivity.
Qed.

(** A call of [ProcessOrder] that reports an error has changed nothing. *)
Lemma ProcessOrder_failure p ord p' e :
Portfolio.ProcessOrder p ord = (p', Some e) -> p' = p.
Proof.
unfold Portfolio.ProcessOrder.
destruct (Portfolio.validateOrder p ord).
- intros Heq. inversion Heq. reflexivity.
- destruct (Order.Type_ ord).
  + apply handleEntryOrder_failure.
  + apply handleExitOrder_failure.
Qed.

(** The cash [validateOrder] asks of an entry order. *)
Lemma validateOrder_entry p ord :
Order.Type_ ord = Entry ->
Portfolio.validateOrder p ord
= if negb (Portfolio.EnableShorts (Portfolio.settings p))
     && (if Order.Side ord is Short then true else false)
  then Some ErrShortsNotAllowed
  else if (requiredCash p ord >? Portfolio.cash p)%float
       then Some (ErrInsufficientCash (Portfolio.cash p) (requiredCash p ord))
       else None.
Proof.
intros Htype. unfold Portfolio.validateOrder, requiredCash. rewrite Htype.
destruct (Order.Side ord); simpl.
- destruct (_ && _); [reflexivity|].
  destruct (_ <? Portfolio.DefaultLeverage _)%float; simpl; [|reflexivity].
  destruct (_ <? Order.Leverage ord)%float; reflexivity.
- destruct (negb _ && true); reflexivity.
Qed.

(** Past validation, an entry order is never refused for want of cash. *)
Lemma handleEntryOrder_not_cash p ord :
~ isInsufficientCash (snd (Portfolio.handleEntryOrder p ord)).
Proof.
intros (have & need & Herr). revert Herr.
unfold Portfolio.handleEntryOrder.
destruct (Portfolio.openPositions p !! Order.Instrument ord) as [pos|].
- destruct (Position.AddOrder pos ord) as [pos' [err|]] eqn:Hadd; simpl; [|discriminate].
  intros Herr. inversion Herr; subst. revert Hadd. unfold Position.AddOrder.
  repeat match goal with
         | |- context [match ?x with _ => _ end] => destruct x
         end; discriminate.
- unfold NewPosition. destruct (Order.Type_ ord); [|discriminate].
  destruct (Order.Quantity ord <=? 0); discriminate.
Qed.
End PortfolioFacts.

(** C2, as stated, fails in both directions. A short entry of a portfolio
    that does not allow shorts is refused as such whatever its notional; and
    with the default leverage unset [validateOrder] does not divide by the
    leverage of the order, so a long order of 10 units at 100 with leverage 2
    is refused for want of cash by a portfolio holding 600. *)
Lemma insufficient_cash_gate_not_exact :
  let shorts_off := Portfolio.New (Portfolio.mkSettings 500 false 1) in
  let short := Fill (NewOrder "ord_1" "AAPL" Short Entry 10 1) 100 in
  let unset := Portfolio.New (Portfolio.mkSettings 600 false 0) in
  let long := Fill (NewOrder "ord_2" "AAPL" Long Entry 10 2) 100 in
  ((leverageAdjustedNotional short >? Portfolio.cash shorts_off)%float = true
   /\ Portfolio.ProcessOrder shorts_off short = (shorts_off, Some ErrShortsNotAllowed))
  /\ ((leverageAdjustedNotional long >? Portfolio.cash unset)%float = false
      /\ Portfolio.ProcessOrder unset long = (unset, Some (ErrInsufficientCash 600 1000))).
Proof. vm_compute. repeat split; reflexivity. Qed.

(** C2, amended. [ProcessOrder] refuses an entry order for want of cash
    exactly when the order passes the short-selling check and the cash
    [validateOrder] requires exceeds the cash of the portfolio: the notional
    [quantity*price], divided by the leverage of the order for a long order
    of a portfolio whose default leverage is set (by the default leverage,
    should the order carry none), and undivided otherwise. On that path, as on
    every failing path, cash, open positions, closed positions and order
    history are what they were. *)
Theorem insufficient_cash_gate (p : Portfolio.t) (ord : Order.t) :
  Order.Type_ ord = Entry ->
  (isInsufficientCash (snd (Portfolio.ProcessOrder p ord))
   <-> sideAllowed p ord /\ (requiredCash p ord >? Portfolio.cash p)%float = true)
  /\ (forall e, snd (Portfolio.ProcessOrder p ord) = Some e ->
                let p' := fst (Portfolio.ProcessOrder p ord) in
                Portfolio.cash p' = Portfolio.cash p
                /\ Portfolio.openPositions p' = Portfolio.openPositions p
                /\ Portfolio.closedPositions p' = Portfolio.closedPositions p
                /\ Portfolio.orderHistory p' = Portfolio.orderHistory p).
Proof.
  intros Htype. split.
  - unfold Portfolio.ProcessOrder, sideAllowed.
    rewrite (validateOrder_entry p ord Htype), Htype.
    destruct (Portfolio.EnableShorts (Portfolio.settings p)), (Order.Side ord); simpl;
      try (split; [intros (have & need & Herr); discriminate
                  |intros [[Hs|Hs] _]; discriminate]);
      (destruct (_ <? requiredCash p ord)%float; simpl;
       [split; [intros _; split; [auto|reflexivity]|intros _; eexists _, _; reflexivity]
       |split; [intros Hc; exfalso; exact (handleEntryOrder_not_cash p ord Hc)
               |intros [_ Hf]; discriminate]]).
  - intros e Herr p'.
    assert (Hp : p' = p).
    { apply (ProcessOrder_failure p ord p' e). subst p'.
      rewrite <- Herr. apply surjective_pairing. }
    rewrite Hp. repeat split; reflexivity.
Qed.

Lemma insufficient_cash_gate_witness :
  let unset := Portfolio.New (Portfolio.mkSettings 600 false 0) in
  let long := Fill (NewOrder "ord_2" "AAPL" Long Entry 10 2) 100 in
  Order.Type_ long = Entry
  /\ (isInsufficientCash (snd (Portfolio.ProcessOrder unset long))
      <-> sideAllowed unset long
          /\ (requiredCash unset long >? Portfolio.cash unset)%float = true).
Proof.
  intros unset long. split; [reflexivity|].
  exact (proj1 (insufficient_cash_gate unset long eq_refl)).
Defined.


(** ** Closing a position *)

(** Within the range of [int] nothing wraps. *)
Lemma wrap_in_range z : Int.in_range z -> Int.wrap z = z.
Proof.
  unfold Int.in_range, Int.wrap, Int.min_int, Int.max_int. intros Hz.
  rewrite Z.mod_small; lia.
Qed.

(** An exit of all the units closes the position at the price of the order. *)
Lemma AddOrder_full_exit pos ord :
  Position.Instrument pos = Order.Instrument ord ->
  Order.Type_ ord = Exit ->
  0 < Position.Quantity pos ->
  Order.Quantity ord = Position.Quantity pos ->
  exists pos',
    Position.AddOrder pos ord = (pos', None)
    /\ Position.Status pos' = Closed
    /\ Position.ClosePrice pos' = Order.Price ord
    /\ Position.Quantity pos' = 0.
Proof.
  intros Hinstr Htype Hpos Hqty. unfold Position.AddOrder.
  rewrite <- Hinstr, String.eqb_refl, Htype, Hqty. simpl.
  destruct (Z.leb_spec (Position.Quantity pos) 0) as [|_]; [lia|].
  rewrite Z.gtb_ltb, Z.ltb_irrefl.
  unfold Int.sub. rewrite Z.sub_diag. change (Int.wrap 0) with 0.
  destruct pos; cbn. destruct Side; eexists; (split; [reflexivity|]); repeat split; reflexivity.
Qed.

(** An exit of fewer units leaves the position partially open. *)
Lemma AddOrder_partial_exit pos ord :
  Position.Instrument pos = Order.Instrument ord ->
  Order.Type_ ord = Exit ->
  Int.in_range (Position.Quantity pos) ->
  0 < Order.Quantity ord < Position.Quantity pos ->
  exists pos',
    Position.AddOrder pos ord = (pos', None)
    /\ Position.Status pos' = PartiallyOpen
    /\ Position.Quantity pos' = Position.Quantity pos - Order.Quantity ord.
Proof.
  intros Hinstr Htype Hrange Hqty. unfold Position.AddOrder.
  rewrite <- Hinstr, String.eqb_refl, Htype. simpl.
  destruct (Z.leb_spec (Order.Quantity ord) 0) as [|_]; [lia|].
  rewrite Z.gtb_ltb. destruct (Z.ltb_spec (Position.Quantity pos) (Order.Quantity ord)) as [|_]; [lia|].
  unfold Int.sub. rewrite wrap_in_range by (unfold Int.in_range, Int.min_int, Int.max_int in *; lia).
  destruct pos; cbn in *.
  destruct (Z.eqb_spec (Quantity - Order.Quantity ord) 0) as [|_]; [lia|].
  destruct Side; eexists; (split; [reflexivity|]); repeat split; reflexivity.
Qed.

(** C5. For an open position of [q > 0] units, held under its own instrument
    as every position of a portfolio is, an exit order for exactly [q] is
    processed without error, sets the status to [Closed], stamps the close
    price, deletes the position from the open map and appends it to the closed
    list; an exit order for fewer units sets the status to [PartiallyOpen] and
    leaves the position in the open map. *)
Theorem closure_transition (p : Portfolio.t) (pos : Position.t) (ord : Order.t) :
  Portfolio.openPositions p !! Order.Instrument ord = Some pos ->
  Position.Instrument pos = Order.Instrument ord ->
  Order.Type_ ord = Exit ->
  0 < Position.Quantity pos ->
  Int.in_range (Position.Quantity pos) ->
  let proceeds := (Int.to_float64 (Order.Quantity ord) * Order.Price ord)%float in
  (Order.Quantity ord = Position.Quantity pos ->
   exists pos',
     Position.AddOrder pos ord = (pos', None)
     /\ Position.Status pos' = Closed
     /\ Position.ClosePrice pos' = Order.Price ord
     /\ Position.Quantity pos' = 0
     /\ Portfolio.ProcessOrder p ord
        = (Portfolio.mk (Portfolio.cash p + proceeds)%float
             (delete (Order.Instrument ord) (Portfolio.openPositions p))
             (Portfolio.closedPositions p ++ [pos'])
             (Portfolio.orderHistory p ++ [ord]) (Portfolio.settings p), None)
     /\ Portfolio.openPositions (fst (Portfolio.ProcessOrder p ord)) !! Order.Instrument ord
        = None)
  /\ (0 < Order.Quantity ord < Position.Quantity pos ->
      exists pos',
        Position.AddOrder pos ord = (pos', None)
        /\ Position.Status pos' = PartiallyOpen
        /\ Position.Quantity pos' = Position.Quantity pos - Order.Quantity ord
        /\ Portfolio.ProcessOrder p ord
           = (Portfolio.mk (Portfolio.cash p + proceeds)%float
                (<[Order.Instrument ord := pos']> (Portfolio.openPositions p))
                (Portfolio.closedPositions p)
                (Portfolio.orderHistory p ++ [ord]) (Portfolio.settings p), None)
        /\ Portfolio.openPositions (fst (Portfolio.ProcessOrder p ord)) !! Order.Instrument ord
           = Some pos').
Proof.
  intros Hopen Hinstr Htype Hpos Hrange proceeds.
  assert (Hrun : forall pos', Position.AddOrder pos ord = (pos', None) ->
            Order.Quantity ord <= Position.Quantity pos ->
            Portfolio.ProcessOrder p ord
            = (let p1 := Portfolio.with_cash (Portfolio.cash p + proceeds)%float
                          (Portfolio.with_openPositions
                             (<[Order.Instrument ord := pos']> (Portfolio.openPositions p)) p) in
               let p2 := match Position.Status pos' with
                         | Closed =>
                             Portfolio.with_openPositions
                               (delete (Order.Instrument ord) (Portfolio.openPositions p1))
                               (Portfolio.with_closedPositions
                                  (Portfolio.closedPositions p1 ++ [pos']) p1)
                         | _ => p1
                         end in
               (Portfolio.with_orderHistory (Portfolio.orderHistory p2 ++ [ord]) p2, None))).
  { intros pos' Hadd Hle.
    unfold Portfolio.ProcessOrder, Portfolio.validateOrder, Portfolio.handleExitOrder.
    rewrite Htype, Hopen, Hadd, Z.gtb_ltb.
    destruct (Z.ltb_spec (Position.Quantity pos) (Order.Quantity ord)) as [|_]; [lia|].
    reflexivity. }
  split.
  - intros Hqty.
    destruct (AddOrder_full_exit pos ord Hinstr Htype Hpos Hqty) as (pos' & Hadd & Hst & Hcl & Hq).
    exists pos'. rewrite (Hrun pos' Hadd) by lia. rewrite Hst.
    destruct p as [c o cl h s]; cbn. rewrite delete_insert_eq.
    repeat split; try assumption. apply lookup_delete_eq.
  - intros Hqty.
    destruct (AddOrder_partial_exit pos ord Hinstr Htype Hrange Hqty) as (pos' & Hadd & Hst & Hq).
    exists pos'. rewrite (Hrun pos' Hadd) by lia. rewrite Hst.
    destruct p as [c o cl h s]; cbn.
    repeat split; try assumption. apply lookup_insert_eq.
Qed.

Lemma closure_transition_witness :
  let entry := Fill (NewOrder "ord_1" "AAPL" Long Entry 10 1) 100 in
  let pos := Position.mk "AAPL" Long 10 100 0 Open [Order.zero; entry] 1 0 0 0 0 0 0 0 100 in
  let p := Portfolio.mk 9000 {["AAPL" := pos]} [] [entry] (Portfolio.mkSettings 10000 false 0) in
  let full := Fill (NewOrder "ord_2" "AAPL" Long Exit 10 1) 120 in
  let part := Fill (NewOrder "ord_3" "AAPL" Long Exit 4 1) 120 in
  (Portfolio.openPositions p !! Order.Instrument full = Some pos
   /\ Position.Instrument pos = Order.Instrument full
   /\ Order.Type_ full = Exit
   /\ 0 < Position.Quantity pos
   /\ Int.in_range (Position.Quantity pos)
   /\ Order.Quantity full = Position.Quantity pos
   /\ 0 < Order.Quantity part < Position.Quantity pos)
  /\ Portfolio.openPositions (fst (Portfolio.ProcessOrder p full)) !! "AAPL" = None
  /\ (exists pos', Portfolio.openPositions (fst (Portfolio.ProcessOrder p part)) !! "AAPL"
                   = Some pos' /\ Position.Status pos' = PartiallyOpen).
Proof.
  intros entry pos p full part.
  assert (Hrange : Int.in_range (Position.Quantity pos)) by (split; vm_compute; congruence).
  split; [repeat split; try reflexivity; vm_compute; congruence|].
  split.
  - destruct (closure_transition p pos full eq_refl eq_refl eq_refl eq_refl Hrange)
      as [Hfull _].
    destruct (Hfull eq_refl) as (pos' & _ & _ & _ & _ & _ & Hgone). exact Hgone.
  - destruct (closure_transition p pos part eq_refl eq_refl eq_refl eq_refl Hrange)
      as [_ Hpart].
    destruct (Hpart (conj eq_refl eq_refl)) as (pos' & _ & Hst & _ & _ & Hkept).
    exists pos'. split; assumption.
Defined.


(** ** The open price as a running average *)

(** C3, as stated, fails: the open price is rounded at every entry. For the
    entries 1 unit at 1, 1 unit at 3 and 6 units at 10 the average is
    64/8 = 8; applied in that order the open price is 8, and with the last two
    exchanged it is the [float64] just below 8. *)
Lemma vwap_rounding_and_order :
  let a := entryOrder "AAPL" 1 1 in
  let b := entryOrder "AAPL" 1 3 in
  let c := entryOrder "AAPL" 6 10 in
  acceptedEntries a [b; c] /\ acceptedEntries a [c; b]
  /\ vwap (fills [a; b; c]) = 8%float
  /\ vwap (fills [a; c; b]) = 8%float
  /\ openPriceOf a [b; c] = Some 8%float
  /\ openPriceOf a [c; b] = Some 0x1.fffffffffffffp+2%float
  /\ openPriceOf a [c; b] <> Some (vwap (fills [a; c; b]))
  /\ openPriceOf a [c; b] <> openPriceOf a [b; c].
Proof.
  intros a b c.
  split; [repeat constructor|]. split; [repeat constructor|].
  vm_compute. repeat split; try reflexivity;
    intros Heq; apply (f_equal (fun o => Prim2SF (default 0%float o))) in Heq;
    vm_compute in Heq; discriminate.
Qed.

(** What an accepted entry order does to open price and quantity. *)
Lemma AddOrder_entry pos ord :
  Order.Instrument ord = Position.Instrument pos ->
  Order.Type_ ord = Entry ->
  0 < Order.Quantity ord ->
  exists pos', Position.AddOrder pos ord = (pos', None)
    /\ Position.OpenPrice pos'
       = runningAverage (Position.OpenPrice pos) (Position.Quantity pos)
                        (Order.Price ord) (Order.Quantity ord)
    /\ Position.Quantity pos' = Int.add (Position.Quantity pos) (Order.Quantity ord)
    /\ Position.Instrument pos' = Position.Instrument pos.
Proof.
  intros Hinstr Htype Hqty. unfold Position.AddOrder.
  rewrite Hinstr, String.eqb_refl, Htype. simpl.
  destruct (Z.leb_spec (Order.Quantity ord) 0) as [|_]; [lia|].
  eexists. split; [reflexivity|]. repeat split; reflexivity.
Qed.

Lemma addOrders_entries pos n rest :
  Forall (fun o => Order.Type_ o = Entry
                   /\ Order.Instrument o = Position.Instrument pos
                   /\ 0 < Order.Quantity o) rest ->
  (Position.OpenPrice (fst (addOrders pos n rest)),
   Position.Quantity (fst (addOrders pos n rest)))
  = fold_left (fun acc qp =>
                 (runningAverage (fst acc) (snd acc) (snd qp) (fst qp),
                  Int.add (snd acc) (fst qp)))
              (fills rest) (Position.OpenPrice pos, Position.Quantity pos).
Proof.
  revert pos n. induction rest as [|ord rest IH]; intros pos n Hall; [reflexivity|].
  apply Forall_cons in Hall as [(Htype & Hinstr & Hq) Hall].
  destruct (AddOrder_entry pos ord Hinstr Htype Hq) as (pos' & Hadd & Hop & Hqt & Hin).
  cbn [fills map addOrders fold_left fst snd]. rewrite Hadd.
  change (map (fun o => (Order.Quantity o, Order.Price o)) rest) with (fills rest).
  rewrite IH by (rewrite Hin; assumption).
  rewrite Hop, Hqt. reflexivity.
Qed.

Lemma openPriceOf_running first rest :
  acceptedEntries first rest ->
  openPriceOf first rest = runningOpenPrice (fills (first :: rest)).
Proof.
  intros (Htype & Hq & Hrest).
  unfold openPriceOf, openWith, NewPosition. rewrite Htype.
  destruct (Z.leb_spec (Order.Quantity first) 0) as [|_]; [lia|].
  destruct (_ <=? 1)%float;
    match goal with
    | |- context [addOrders ?pos ?n rest] =>
        pose proof (addOrders_entries pos n rest Hrest) as Hfold;
        destruct (addOrders pos n rest) as [pos' n']
    end;
    exact (f_equal (fun x => Some (fst x)) Hfold).
Qed.

(** C3, amended. For a position created from an entry order and one further
    entry order the open price is the [float64] value of
    [(q1*p1 + q2*p2) / (q1 + q2)], whichever of the two comes first. Every
    further entry order replaces the open price by the [float64] value of
    [(openPrice*quantity + price*qty) / (quantity + qty)], so that after any
    sequence of entries the open price is that running average carried through
    the sequence in its order. *)
Theorem vwap_running_average (first second : Order.t) (rest : list Order.t) :
  acceptedEntries first [second] ->
  Order.Quantity first + Order.Quantity second <= Int.max_int ->
  acceptedEntries first rest ->
  openPriceOf first [second] = Some (vwap (fills [first; second]))
  /\ openPriceOf second [first] = openPriceOf first [second]
  /\ openPriceOf first rest = runningOpenPrice (fills (first :: rest)).
Proof.
  intros Hpair Hsum Hrest.
  assert (Hrun : forall a b, acceptedEntries a [b] ->
            Order.Quantity a + Order.Quantity b <= Int.max_int ->
            openPriceOf a [b]
            = Some ((Order.Price a * Int.to_float64 (Order.Quantity a)
                     + Order.Price b * Int.to_float64 (Order.Quantity b))
                    / Int.to_float64 (Order.Quantity a + Order.Quantity b))%float).
  { intros a b Hab Hle. rewrite (openPriceOf_running a [b] Hab).
    destruct Hab as (_ & Ha & Hb). apply Forall_cons in Hb as [(_ & _ & Hb) _].
    unfold runningOpenPrice, runningAverage, Int.add. simpl.
    rewrite wrap_in_range by (unfold Int.in_range, Int.min_int, Int.max_int in *; lia).
    reflexivity. }
  assert (Hswap : acceptedEntries second [first]).
  { destruct Hpair as (Ht & Hq & Hs). apply Forall_cons in Hs as [(Ht' & Hi' & Hq') _].
    repeat split; try assumption. repeat constructor; auto. }
  split; [|split].
  - rewrite Hrun by assumption. reflexivity.
  - rewrite !Hrun by (assumption || lia).
    rewrite (Z.add_comm (Order.Quantity second)), (f64_add_comm (Order.Price second * _)).
    reflexivity.
  - apply openPriceOf_running; assumption.
Qed.

Lemma vwap_running_average_witness :
  let a := entryOrder "AAPL" 1 1 in
  let b := entryOrder "AAPL" 6 10 in
  let c := entryOrder "AAPL" 1 3 in
  (acceptedEntries a [b]
   /\ Order.Quantity a + Order.Quantity b <= Int.max_int
   /\ acceptedEntries a [b; c])
  /\ openPriceOf a [b] = Some (vwap (fills [a; b]))
  /\ openPriceOf b [a] = openPriceOf a [b]
  /\ openPriceOf a [b; c] = runningOpenPrice (fills [a; b; c]).
Proof.
  intros a b c.
  assert (Hpair : acceptedEntries a [b]) by (repeat constructor).
  assert (Hrest : acceptedEntries a [b; c]) by (repeat constructor).
  assert (Hsum : Order.Quantity a + Order.Quantity b <= Int.max_int)
    by (vm_compute; congruence).
  split; [exact (conj Hpair (conj Hsum Hrest))|].
  exact (vwap_running_average a b [b; c] Hpair Hsum Hrest).
Defined.

(** ** The anchor of the trailing stop *)

Section AnchorFacts.
Implicit Types (pos : Position.t) (m : risk.Manager) (price : float).

Lemma UpdatePrice_anchor pos price :
  Position.TrailingStopHigh (Position.UpdatePrice pos price) = Position.TrailingStopHigh pos
  /\ Position.Side (Position.UpdatePrice pos price) = Position.Side pos.
Proof.
  destruct pos. unfold Position.UpdatePrice. cbn.
  repeat match goal with
         | |- context [match ?x with _ => _ end] => destruct x eqn:?
         end; cbn; split; reflexivity.
Qed.

(** The anchor moves only when the trailing stop is reached, and then to
    [ratchet]. *)
Lemma checkExitConditions_anchor m pos price :
  Position.TrailingStopHigh (fst (fst (risk.checkExitConditions m pos price)))
  = (if negb (stopLossHit m pos price) && negb (takeProfitHit m pos price)
        && risk.UseTrailingStop (risk.settings m)
     then ratchet pos price else Position.TrailingStopHigh pos)
  /\ Position.Side (fst (fst (risk.checkExitConditions m pos price))) = Position.Side pos.
Proof.
  destruct pos, m as [[ml ma usl dsl utp dtp uts dts]].
  destruct usl, utp, uts;
  unfold risk.checkExitConditions, risk.checkLongExitConditions,
    risk.checkShortExitConditions, stopLossHit, takeProfitHit, ratchet;
  cbn;
  repeat match goal with
         | |- context [match ?x with _ => _ end] => destruct x eqn:?
         end; cbn in *; try (split; reflexivity); try discriminate.
Qed.
End AnchorFacts.

Section AnchorOrder.
Implicit Types (pos : Position.t) (t : Touch).

Lemma rises_refl a : rises a a.
Proof. intros Ha. split; [assumption|apply f64_leb_refl; assumption]. Qed.

Lemma falls_refl a : falls a a.
Proof. intros Ha. split; [assumption|apply f64_leb_refl; assumption]. Qed.

Lemma rises_trans a b c : rises a b -> rises b c -> rises a c.
Proof.
  intros Hab Hbc Ha. destruct (Hab Ha) as [Hb Hle]. destruct (Hbc Hb) as [Hc Hle'].
  split; [assumption|exact (f64_leb_trans a b c Hle Hle')].
Qed.

Lemma falls_trans a b c : falls a b -> falls b c -> falls a c.
Proof.
  intros Hab Hbc Ha. destruct (Hab Ha) as [Hb Hle]. destruct (Hbc Hb) as [Hc Hle'].
  split; [assumption|exact (f64_leb_trans c b a Hle' Hle)].
Qed.

Lemma rises_not_below a b : rises a b -> (b <? a)%float = false.
Proof.
  intros Hab. destruct (is_nan a) eqn:Ha.
  - apply (f64_nan_ltb a b Ha).
  - apply f64_leb_not_gtb. apply Hab. exact Ha.
Qed.

Lemma falls_not_above a b : falls a b -> (a <? b)%float = false.
Proof.
  intros Hab. destruct (is_nan a) eqn:Ha.
  - apply (f64_nan_ltb a b Ha).
  - apply f64_leb_not_gtb. apply Hab. exact Ha.
Qed.

Lemma touch_long pos t :
  Position.Side pos = Long ->
  Position.Side (touch pos t) = Long
  /\ rises (Position.TrailingStopHigh pos) (Position.TrailingStopHigh (touch pos t)).
Proof.
  intros Hside. destruct t as [price|m price]; simpl.
  - destruct (UpdatePrice_anchor pos price) as [-> ->]. split; [assumption|apply rises_refl].
  - destruct (checkExitConditions_anchor m pos price) as [-> ->]. split; [assumption|].
    destruct (_ && _); [|apply rises_refl].
    unfold ratchet. rewrite Hside.
    destruct (_ <? price)%float eqn:Hlt; [|apply rises_refl].
    intros _. split; [apply (f64_ltb_not_nan _ _ Hlt)|apply f64_ltb_leb; assumption].
Qed.

Lemma touch_short pos t :
  Position.Side pos = Short ->
  Position.Side (touch pos t) = Short
  /\ falls (Position.TrailingStopHigh pos) (Position.TrailingStopHigh (touch pos t)).
Proof.
  intros Hside. destruct t as [price|m price]; simpl.
  - destruct (UpdatePrice_anchor pos price) as [-> ->]. split; [assumption|apply falls_refl].
  - destruct (checkExitConditions_anchor m pos price) as [-> ->]. split; [assumption|].
    destruct (_ && _); [|apply falls_refl].
    unfold ratchet. rewrite Hside.
    destruct (price <? _)%float eqn:Hlt; [|apply falls_refl].
    intros _. split; [apply (f64_ltb_not_nan _ _ Hlt)|apply f64_ltb_leb; assumption].
Qed.

Lemma touches_long pos ts :
  Position.Side pos = Long ->
  rises (Position.TrailingStopHigh pos) (Position.TrailingStopHigh (touches pos ts)).
Proof.
  revert pos. induction ts as [|t ts IH]; intros pos Hside; [apply rises_refl|].
  destruct (touch_long pos t Hside) as [Hside' Hstep].
  exact (rises_trans _ _ _ Hstep (IH (touch pos t) Hside')).
Qed.

Lemma touches_short pos ts :
  Position.Side pos = Short ->
  falls (Position.TrailingStopHigh pos) (Position.TrailingStopHigh (touches pos ts)).
Proof.
  revert pos. induction ts as [|t ts IH]; intros pos Hside; [apply falls_refl|].
  destruct (touch_short pos t Hside) as [Hside' Hstep].
  exact (falls_trans _ _ _ Hstep (IH (touch pos t) Hside')).
Qed.

Lemma touches_side pos ts : Position.Side (touches pos ts) = Position.Side pos.
Proof.
  revert pos. induction ts as [|t ts IH]; intros pos; [reflexivity|].
  change (touches pos (t :: ts)) with (touches (touch pos t) ts). rewrite IH.
  destruct t as [price|m price]; simpl.
  - apply UpdatePrice_anchor.
  - apply checkExitConditions_anchor.
Qed.
(** The anchor only ever takes the price of an evaluation. *)
Lemma touches_anchor_source pos ts :
  Position.TrailingStopHigh (touches pos ts) = Position.TrailingStopHigh pos
  \/ exists m price, TouchCheckExit m price ∈ ts
                     /\ Position.TrailingStopHigh (touches pos ts) = price.
Proof.
  revert pos. induction ts as [|t ts IH]; intros pos; [left; reflexivity|].
  change (touches pos (t :: ts)) with (touches (touch pos t) ts).
  destruct (IH (touch pos t)) as [->|(m & price & Hin & ->)].
  - destruct t as [price|m price]; simpl.
    + left. apply UpdatePrice_anchor.
    + destruct (checkExitConditions_anchor m pos price) as [-> _].
      destruct (_ && _); [|left; reflexivity].
      unfold ratchet.
      destruct (Position.Side pos);
        match goal with
        | |- context [if ?b then _ else _] => destruct b
        end; try (left; reflexivity);
        right; exists m, price; (split; [left|reflexivity]).
  - right. exists m, price. split; [right; assumption|reflexivity].
Qed.
End AnchorOrder.

(** C8, as stated, fails in its parenthesis: the anchor does not ratchet to
    the best price seen. [UpdatePrice] records the price in the high and low
    water marks of the position and never writes the anchor, and an
    evaluation that ends at the stop-loss or at the take-profit returns
    before the trailing stop is looked at. A long position entered at 100,
    marked at 120, evaluated at 150, where the take-profit of 25% triggers,
    and evaluated again at 110 has the anchor 110 with 120 and 150 seen; a
    short position entered at 100, marked at 80, evaluated at 50 and again at
    90 has the anchor 90 with 80 and 50 seen. *)
Lemma trailing_stop_anchor_not_best_price :
  let m := risk.New (risk.mkSettings 0 0 false 0 true 0.25 true 0.5) in
  let bought := Fill (NewOrder "ord_1" "AAPL" Long Entry 10 1) 100 in
  let sold := Fill (NewOrder "ord_2" "AAPL" Short Entry 10 1) 100 in
  let long := Position.mk "AAPL" Long 10 100 0 Open [Order.zero; bought] 1 0 0 0 0 0 0 0 100 in
  let short := Position.mk "AAPL" Short 10 100 0 Open [Order.zero; sold] 1 0 0 0 0 0 0 0 100 in
  (NewPosition bought = Ok long /\ NewPosition sold = Ok short)
  /\ (let marked := touches long [TouchUpdatePrice 120] in
   let taken := touches long [TouchUpdatePrice 120; TouchCheckExit m 150] in
   let last := touches long [TouchUpdatePrice 120; TouchCheckExit m 150; TouchCheckExit m 110] in
   (Position.HighestPrice marked = 120 /\ Position.TrailingStopHigh marked = 100)%float
   /\ (snd (fst (risk.checkExitConditions m marked 150)) = true
       /\ snd (risk.checkExitConditions m marked 150) = "take_profit"
       /\ Position.TrailingStopHigh taken = 100%float)
   /\ (snd (fst (risk.checkExitConditions m taken 110)) = false
       /\ Position.TrailingStopHigh last = 110%float))
  /\ (let marked := touches short [TouchUpdatePrice 80] in
      let taken := touches short [TouchUpdatePrice 80; TouchCheckExit m 50] in
      let last := touches short [TouchUpdatePrice 80; TouchCheckExit m 50; TouchCheckExit m 90] in
      (Position.LowestPrice marked = 80 /\ Position.TrailingStopHigh marked = 100)%float
      /\ (snd (fst (risk.checkExitConditions m marked 50)) = true
          /\ snd (risk.checkExitConditions m marked 50) = "take_profit"
          /\ Position.TrailingStopHigh taken = 100%float)
      /\ (snd (fst (risk.checkExitConditions m taken 90)) = false
          /\ Position.TrailingStopHigh last = 90%float)).
Proof. vm_compute. repeat split; reflexivity. Qed.

(** C8, amended. Across any sequence of mark updates and evaluations of the exit
    conditions the anchor [TrailingStopHigh] of a long position never goes
    down, and that of a short position never goes up: between any two points
    of the sequence the later value is not below (above) the earlier, and is
    at least (at most) the earlier whenever that is a number. [UpdatePrice]
    leaves the anchor alone; an evaluation that reaches the trailing stop,
    which is enabled and follows a stop-loss and a take-profit that did not
    trigger, moves it to the larger (smaller) of anchor and price, and no
    other evaluation moves it. So the later value is the earlier one or the
    price of an evaluation in between. *)
Theorem trailing_stop_anchor_monotone (pos : Position.t) (before after : list Touch) :
  let earlier := Position.TrailingStopHigh (touches pos before) in
  let later := Position.TrailingStopHigh (touches pos (before ++ after)) in
  (Position.Side pos = Long ->
   (later <? earlier)%float = false
   /\ (is_nan earlier = false -> (earlier <=? later)%float = true))
  /\ (Position.Side pos = Short ->
      (earlier <? later)%float = false
      /\ (is_nan earlier = false -> (later <=? earlier)%float = true))
  /\ (forall price,
        Position.TrailingStopHigh (Position.UpdatePrice pos price)
        = Position.TrailingStopHigh pos)
  /\ (forall m price,
        Position.TrailingStopHigh (fst (fst (risk.checkExitConditions m pos price)))
        = if negb (stopLossHit m pos price) && negb (takeProfitHit m pos price)
             && risk.UseTrailingStop (risk.settings m)
          then match Position.Side pos with
               | Long => if (price >? Position.TrailingStopHigh pos)%float
                         then price else Position.TrailingStopHigh pos
               | Short => if (price <? Position.TrailingStopHigh pos)%float
                          then price else Position.TrailingStopHigh pos
               end
          else Position.TrailingStopHigh pos)
  /\ (later = earlier
      \/ exists m price, TouchCheckExit m price ∈ after /\ later = price).
Proof.
  intros earlier later. subst earlier later. unfold touches. rewrite fold_left_app.
  fold (touches pos before). fold (touches (touches pos before) after).
  split; [|split; [|split; [|split]]]; [| | | |apply touches_anchor_source].
  - intros Hside. rewrite <- (touches_side pos before) in Hside.
    pose proof (touches_long _ after Hside) as Hrise.
    split; [apply rises_not_below; assumption|]. intros Hn. apply Hrise. assumption.
  - intros Hside. rewrite <- (touches_side pos before) in Hside.
    pose proof (touches_short _ after Hside) as Hfall.
    split; [apply falls_not_above; assumption|]. intros Hn. apply Hfall. assumption.
  - intros price. apply UpdatePrice_anchor.
  - intros m price. apply checkExitConditions_anchor.
Qed.

Lemma trailing_stop_anchor_monotone_witness :
  let m := risk.New (risk.mkSettings 0 0 true 0.5 true 0.5 true 0.25) in
  let long := Position.mk "AAPL" Long 10 100 0 Open [] 1 0 0 0 0 0 0 0 100 in
  let short := Position.mk "AAPL" Short 10 100 0 Open [] 1 0 0 0 0 0 0 0 100 in
  let before := [TouchUpdatePrice 105; TouchCheckExit m 110] in
  let after := [TouchCheckExit m 104; TouchUpdatePrice 90] in
  let before' := [TouchUpdatePrice 95; TouchCheckExit m 90] in
  let after' := [TouchCheckExit m 96; TouchUpdatePrice 110] in
  (Position.Side long = Long
   /\ Position.TrailingStopHigh (touches long before) = 110%float
   /\ (Position.TrailingStopHigh (touches long (before ++ after))
       <? Position.TrailingStopHigh (touches long before))%float = false)
  /\ (Position.Side short = Short
      /\ Position.TrailingStopHigh (touches short before') = 90%float
      /\ (Position.TrailingStopHigh (touches short before')
          <? Position.TrailingStopHigh (touches short (before' ++ after')))%float = false).
Proof.
  intros m long short before after before' after'.
  split.
  - split; [reflexivity|]. split; [reflexivity|].
    exact (proj1 (proj1 (trailing_stop_anchor_monotone long before after) eq_refl)).
  - split; [reflexivity|]. split; [reflexivity|].
    exact (proj1 (proj1 (proj2 (trailing_stop_anchor_monotone short before' after')) eq_refl)).
Defined.


(** ** The exit scan *)

Section ExitScanFacts.
Implicit Types (pos : Position.t) (m : risk.Manager) (price : float).

(** The verdict of [checkExitConditions] is the first trigger, and the check
    leaves instrument, side and quantity alone. *)
Lemma checkExitConditions_verdict m pos price :
  snd (fst (risk.checkExitConditions m pos price))
  = (if firstTrigger m pos price is Some _ then true else false)
  /\ snd (risk.checkExitConditions m pos price) = default "" (firstTrigger m pos price)
  /\ Position.Instrument (fst (fst (risk.checkExitConditions m pos price)))
     = Position.Instrument pos
  /\ Position.Quantity (fst (fst (risk.checkExitConditions m pos price)))
     = Position.Quantity pos.
Proof.
  destruct pos, m as [[ml ma usl dsl utp dtp uts dts]].
  destruct usl, utp, uts;
    unfold risk.checkExitConditions, risk.checkLongExitConditions,
      risk.checkShortExitConditions, firstTrigger, stopLossHit, takeProfitHit,
      trailingStopHit, ratchet;
    cbn; destruct Side; cbn;
    repeat match goal with
           | |- context [PrimFloat.ltb ?a ?b] => destruct (PrimFloat.ltb a b) eqn:?; cbn
           | |- context [PrimFloat.leb ?a ?b] => destruct (PrimFloat.leb a b) eqn:?; cbn
           end; try (repeat split; reflexivity); congruence.
Qed.

Lemma scanPosition_order m prices pos :
  snd (risk.scanPosition m prices pos)
  = match prices !! Position.Instrument pos with
    | Some price =>
        if firstTrigger m pos price is Some _ then Some (fullExit pos price) else None
    | None => None
    end.
Proof.
  unfold risk.scanPosition. destruct (prices !! Position.Instrument pos) as [price|]; [|reflexivity].
  destruct (checkExitConditions_verdict m pos price) as (Hv & _ & Hi & Hq).
  pose proof (checkExitConditions_anchor m pos price) as [_ Hs].
  destruct (risk.checkExitConditions m pos price) as [[pos' verdict] reason]. simpl in *.
  subst verdict. destruct (firstTrigger m pos price); simpl; [|reflexivity].
  unfold fullExit. rewrite Hi, Hq, Hs. reflexivity.
Qed.
End ExitScanFacts.

Section ExitScanList.
Context (m : risk.Manager) (prices : gmap string float).

Local Abbreviation scan := (fun kv : string * Position.t =>
                              snd (risk.scanPosition m prices (snd kv))).
Local Abbreviation contribution := (contribution m prices).

Lemma ordersFor_absent (l : list (string * Position.t)) instrument :
  (forall k pos, (k, pos) ∈ l -> Position.Instrument pos = k) ->
  instrument ∉ l.*1 ->
  ordersFor instrument (omap scan l) = [].
Proof.
  unfold ordersFor. induction l as [|[k pos] l IH]; intros Hkeys Hnot; [reflexivity|].
  assert (Hk : k <> instrument) by (intros ->; apply Hnot; simpl; left).
  assert (Hrest : filter (fun o => Order.Instrument o = instrument) (omap scan l) = []).
  { apply IH.
    - intros k' pos' Hin. apply Hkeys. right. assumption.
    - intros Hin. apply Hnot. simpl. right. assumption. }
  simpl. rewrite scanPosition_order.
  rewrite (Hkeys k pos) by left.
  destruct (prices !! k) as [price|]; [|assumption].
  destruct (firstTrigger m pos price); [|assumption].
  rewrite filter_cons_False; [assumption|].
  unfold fullExit. simpl. rewrite (Hkeys k pos) by left. assumption.
Qed.

Lemma ordersFor_present (l : list (string * Position.t)) instrument pos :
  (forall k pos, (k, pos) ∈ l -> Position.Instrument pos = k) ->
  NoDup l.*1 ->
  (instrument, pos) ∈ l ->
  ordersFor instrument (omap scan l) = contribution pos.
Proof.
  induction l as [|[k pos'] l IH]; intros Hkeys Hnodup Hin; [inversion Hin|].
  simpl in Hnodup. apply NoDup_cons in Hnodup as [Hfresh Hnodup].
  assert (Hkeys' : forall k pos, (k, pos) ∈ l -> Position.Instrument pos = k)
    by (intros k0 pos0 Hin0; apply Hkeys; right; assumption).
  apply elem_of_cons in Hin as [Heq|Hin].
  - inversion Heq; subst k pos'; clear Heq.
    pose proof (ordersFor_absent l instrument Hkeys' Hfresh) as Hrest.
    unfold ordersFor in *. simpl.
    rewrite scanPosition_order. unfold contribution.
    destruct (prices !! Position.Instrument pos) as [price|]; [|assumption].
    destruct (firstTrigger m pos price); [|assumption].
    rewrite filter_cons_True; [f_equal; exact Hrest|].
    unfold fullExit. simpl. apply Hkeys. left.
  - assert (Hk : k <> instrument).
    { intros ->. apply Hfresh. apply list_elem_of_fmap. exists (instrument, pos).
      split; [reflexivity|assumption]. }
    specialize (IH Hkeys' Hnodup Hin).
    unfold ordersFor in *. simpl.
    rewrite scanPosition_order. rewrite (Hkeys k pos') by left.
    destruct (prices !! k) as [price|]; [|assumption].
    destruct (firstTrigger m pos' price); [|assumption].
    rewrite filter_cons_False; [assumption|].
    unfold fullExit. simpl. rewrite (Hkeys k pos') by left. assumption.
Qed.
End ExitScanList.

Lemma CheckPositionExits_ordersFor m p prices instrument :
  keyedByInstrument (Portfolio.openPositions p) ->
  ordersFor instrument (snd (risk.CheckPositionExits m p prices))
  = match Portfolio.openPositions p !! instrument with
    | Some pos => contribution m prices pos
    | None => []
    end.
Proof.
  intros Hkeys. unfold risk.CheckPositionExits, Portfolio.Positions. simpl.
  assert (Hkeys' : forall k pos, (k, pos) ∈ map_to_list (Portfolio.openPositions p) ->
                                 Position.Instrument pos = k).
  { intros k pos Hin. apply Hkeys. apply elem_of_map_to_list. assumption. }
  destruct (Portfolio.openPositions p !! instrument) as [pos|] eqn:Hpos.
  - apply ordersFor_present.
    + assumption.
    + apply NoDup_fst_map_to_list.
    + apply elem_of_map_to_list. assumption.
  - apply ordersFor_absent; [assumption|].
    intros Hin. apply list_elem_of_fmap in Hin as ([k pos] & -> & Hin).
    apply elem_of_map_to_list in Hin. simpl in *. congruence.
Qed.

Lemma omap_length_le {A B} (f : A -> option B) (l : list A) :
  (length (omap f l) <= length l)%nat.
Proof.
  induction l as [|a l IH]; simpl; [lia|].
  change (list_omap A B f l) with (omap f l). destruct (f a); simpl; lia.
Qed.

(** C7. For an open position with a current price in the price map,
    [CheckPositionExits] evaluates stop-loss, then take-profit, then the
    trailing stop. When one of them triggers, the verdict carries the reason
    of the first that does and the call returns for the position exactly one
    order: an exit on the opposite side ([Short] for a long position, [Long]
    for a short one), for the full quantity, at the evaluated price. When none
    triggers there is no order for the position. No instrument ever receives
    more than one order in a call. *)
Theorem risk_forced_exit_scan (m : risk.Manager) (p : Portfolio.t)
    (prices : gmap string float) (instrument : string) (pos : Position.t) (price : float) :
  keyedByInstrument (Portfolio.openPositions p) ->
  Portfolio.openPositions p !! instrument = Some pos ->
  prices !! instrument = Some price ->
  let orders := snd (risk.CheckPositionExits m p prices) in
  let verdict := risk.checkExitConditions m pos price in
  match firstTrigger m pos price with
  | Some reason =>
      snd (fst verdict) = true /\ snd verdict = reason
      /\ ordersFor instrument orders
         = [Order.mk "" instrument
              (match Position.Side pos with Long => Short | Short => Long end) Exit
              (Position.Quantity pos) price 0%float]
  | None =>
      snd (fst verdict) = false /\ ordersFor instrument orders = []
  end
  /\ (forall other, (length (ordersFor other orders) <= 1)%nat)
  /\ (length orders <= size (Portfolio.openPositions p))%nat.
Proof.
  intros Hkeys Hpos Hprice orders verdict.
  pose proof (Hkeys instrument pos Hpos) as Hinstr.
  split; [|split].
  - destruct (checkExitConditions_verdict m pos price) as (Hv & Hr & _).
    subst orders verdict. rewrite (CheckPositionExits_ordersFor m p prices instrument Hkeys), Hpos.
    unfold contribution. rewrite Hinstr, Hprice, Hv, Hr.
    destruct (firstTrigger m pos price) as [reason|]; repeat split.
    unfold fullExit. rewrite Hinstr. destruct (Position.Side pos); reflexivity.
  - intros other. subst orders.
    rewrite (CheckPositionExits_ordersFor m p prices other Hkeys).
    destruct (Portfolio.openPositions p !! other) as [pos'|]; [|simpl; lia].
    unfold contribution.
    destruct (prices !! Position.Instrument pos') as [price'|]; [|simpl; lia].
    destruct (firstTrigger m pos' price'); simpl; lia.
  - subst orders. unfold risk.CheckPositionExits. simpl.
    rewrite <- length_map_to_list. apply omap_length_le.
Qed.

Lemma risk_forced_exit_scan_witness :
  let m := risk.New (risk.mkSettings 0 0 true (5 / 100) false 0 false 0) in
  let bought := Fill (NewOrder "ord_1" "AAPL" Long Entry 10 1) 100 in
  let sold := Fill (NewOrder "ord_2" "MSFT" Short Entry 4 1) 100 in
  let long := Position.mk "AAPL" Long 10 100 0 Open [Order.zero; bought] 1 0 0 0 0 0 0 0 100 in
  let short := Position.mk "MSFT" Short 4 100 0 Open [Order.zero; sold] 1 0 0 0 0 0 0 0 100 in
  let p := Portfolio.mk 8600 {["AAPL" := long; "MSFT" := short]} [] [bought; sold]
             (Portfolio.mkSettings 10000 true 0) in
  let prices : gmap string float := {["AAPL" := 94%float; "MSFT" := 106%float]} in
  (keyedByInstrument (Portfolio.openPositions p)
   /\ (Portfolio.openPositions p !! "AAPL" = Some long /\ prices !! "AAPL" = Some 94%float)
   /\ (Portfolio.openPositions p !! "MSFT" = Some short /\ prices !! "MSFT" = Some 106%float))
  /\ (firstTrigger m long 94 = Some "stop_loss"
      /\ ordersFor "AAPL" (snd (risk.CheckPositionExits m p prices))
         = [Order.mk "" "AAPL" Short Exit 10 94 0])
  /\ (firstTrigger m short 106 = Some "stop_loss"
      /\ ordersFor "MSFT" (snd (risk.CheckPositionExits m p prices))
         = [Order.mk "" "MSFT" Long Exit 4 106 0])
  /\ length (snd (risk.CheckPositionExits m p prices)) = 2%nat.
Proof.
  intros m bought sold long short p prices.
  assert (Hkeys : keyedByInstrument (Portfolio.openPositions p)).
  { intros instrument pos' Hin. subst p. simpl in Hin.
    apply lookup_insert_Some in Hin as [[<- <-]|[_ Hin]]; [reflexivity|].
    apply lookup_singleton_Some in Hin as [<- <-]. reflexivity. }
  split; [split; [assumption|split; split; reflexivity]|].
  split; [split; [reflexivity|]|split; [split; [reflexivity|]|reflexivity]].
  - pose proof (risk_forced_exit_scan m p prices "AAPL" long 94 Hkeys eq_refl eq_refl) as Hscan.
    change (firstTrigger m long 94) with (Some "stop_loss") in Hscan.
    exact (proj2 (proj2 (proj1 Hscan))).
  - pose proof (risk_forced_exit_scan m p prices "MSFT" short 106 Hkeys eq_refl eq_refl) as Hscan.
    change (firstTrigger m short 106) with (Some "stop_loss") in Hscan.
    exact (proj2 (proj2 (proj1 Hscan))).
Defined.


(** ** The equity curve *)

Section RunnerFacts.
Context {S : Type} `{Strategy S}.
Implicit Types (r : Runner.t S).

Lemma sameFrame_refl r : sameFrame r r.
Proof. repeat split; auto. Qed.

Lemma sameFrame_trans r r1 r2 : sameFrame r r1 -> sameFrame r1 r2 -> sameFrame r r2.
Proof.
  intros (Hc & Ht & Hp) (Hc' & Ht' & Hp'). repeat split; [congruence..|auto].
Qed.

Lemma processOrder_frame r ord : sameFrame r (fst (Runner.processOrder r ord)).
Proof.
  unfold Runner.processOrder.
  destruct (Runner.Strategy_ r) as [st|], (Runner.Portfolio_ r) as [pf|],
    (Runner.RiskManager r) as [rm|]; try apply sameFrame_refl.
  destruct (risk.ValidateOrder rm pf ord); [apply sameFrame_refl|].
  destruct (Portfolio.ProcessOrder pf ord) as [pf' [err|]]; simpl;
    repeat split; intros _; eexists; reflexivity.
Qed.

Lemma processOrders_frame r orders : sameFrame r (fst (Runner.processOrders r orders)).
Proof.
  revert r. induction orders as [|ord orders IH]; intros r; [apply sameFrame_refl|].
  simpl. pose proof (processOrder_frame r ord) as Hstep.
  destruct (Runner.processOrder r ord) as [r1 [err|]]; simpl in *; [assumption|].
  exact (sameFrame_trans _ _ _ Hstep (IH r1)).
Qed.

Lemma processTick_frame r data r1 :
  Runner.processTick r data = (r1, None) ->
  Runner.EquityCurve r1 = Runner.EquityCurve r
  /\ Runner.CurrentTime r1 = Runner.CurrentTime r
  /\ is_Some (Runner.Portfolio_ r1).
Proof.
  unfold Runner.processTick.
  destruct (Runner.Strategy_ r) as [st|] eqn:Hst; [|discriminate].
  destruct (Runner.Portfolio_ r) as [pf|] eqn:Hpf; [|discriminate].
  destruct (Runner.RiskManager r) as [rm|] eqn:Hrm; [|discriminate].
  destruct (risk.CheckPositionExits rm _ _) as [pf1 exitOrders].
  match goal with
  | |- context [Runner.processOrders ?r0 exitOrders] =>
      pose proof (processOrders_frame r0 exitOrders) as Hexits;
      destruct (Runner.processOrders r0 exitOrders) as [r2 [err|]]
  end; [discriminate|].
  simpl in Hexits. destruct Hexits as (Hc & Ht & Hp).
  destruct (Runner.Strategy_ r2) as [st2|]; [|destruct (Runner.Portfolio_ r2); discriminate].
  destruct (Runner.Portfolio_ r2) as [pf2|] eqn:Hpf2; [|discriminate].
  destruct (OnTick st2 pf2 data) as [st3 orders].
  match goal with
  | |- context [Runner.processOrders ?r0 orders] =>
      pose proof (processOrders_frame r0 orders) as Horders
  end.
  intros Hrun. rewrite Hrun in Horders. simpl in Horders.
  destruct Horders as (Hc' & Ht' & Hp').
  cbn in Hc, Ht, Hc', Ht'.
  repeat split; [congruence..|]. apply Hp'. cbn. rewrite Hpf2. eexists; reflexivity.
Qed.

End RunnerFacts.




(** ** The invariant of the portfolio *)

Section InvariantFacts.
Implicit Types (p : Portfolio.t) (pos : Position.t) (ord : Order.t).

Lemma entryVolume_cons c cs : entryVolume (c :: cs) = callVolume c + entryVolume cs.
Proof.
  reflexivity.
Qed.

Lemma callVolume_nonneg c : 0 <= callVolume c.
Proof. destruct c as [ord|prices]; simpl; [destruct (Order.Type_ ord)|]; lia. Qed.

Lemma entryVolume_nonneg cs : 0 <= entryVolume cs.
Proof.
  induction cs as [|c cs IH]; [reflexivity|].
  rewrite entryVolume_cons. pose proof (callVolume_nonneg c). lia.
Qed.

Lemma NewPosition_ok ord pos :
  NewPosition ord = Ok pos ->
  Position.Instrument pos = Order.Instrument ord
  /\ Position.Quantity pos = Order.Quantity ord
  /\ 0 < Order.Quantity ord
  /\ Position.Status pos = Open
  /\ Order.Type_ ord = Entry.
Proof.
  unfold NewPosition. destruct (Order.Type_ ord); [|discriminate].
  destruct (Z.leb_spec (Order.Quantity ord) 0) as [|Hq]; [discriminate|].
  intros Heq. inversion Heq; subst; clear Heq.
  destruct (_ <=? 1)%float; repeat split; assumption.
Qed.

Lemma AddOrder_entry_ok pos ord pos' :
  Order.Type_ ord = Entry ->
  Position.AddOrder pos ord = (pos', None) ->
  Position.Instrument pos' = Position.Instrument pos
  /\ Position.Status pos' = Position.Status pos
  /\ Position.Quantity pos' = Int.add (Position.Quantity pos) (Order.Quantity ord)
  /\ 0 < Order.Quantity ord.
Proof.
  intros Htype. unfold Position.AddOrder. rewrite Htype.
  destruct (negb _); [discriminate|].
  destruct (Z.leb_spec (Order.Quantity ord) 0) as [|Hq]; [discriminate|].
  intros Heq. inversion Heq; subst; clear Heq. repeat split. assumption.
Qed.

Lemma AddOrder_exit_ok pos ord pos' :
  Order.Type_ ord = Exit ->
  Position.AddOrder pos ord = (pos', None) ->
  Position.Instrument pos' = Position.Instrument pos
  /\ Position.Quantity pos' = Int.sub (Position.Quantity pos) (Order.Quantity ord)
  /\ 0 < Order.Quantity ord <= Position.Quantity pos
  /\ Position.Status pos' = if Position.Quantity pos' =? 0 then Closed else PartiallyOpen.
Proof.
  intros Htype. unfold Position.AddOrder. rewrite Htype.
  destruct (negb _); [discriminate|].
  destruct (Z.leb_spec (Order.Quantity ord) 0) as [|Hq]; [discriminate|].
  rewrite Z.gtb_ltb.
  destruct (Z.ltb_spec (Position.Quantity pos) (Order.Quantity ord)) as [|Hle]; [discriminate|].
  intros Heq. inversion Heq; subst; clear Heq.
  destruct pos; cbn in *.
  destruct (_ =? 0) eqn:Hz; cbn; destruct Side; cbn; rewrite ?Hz; repeat split; assumption.
Qed.

Lemma UpdatePrice_fixed pos price :
  Position.Instrument (Position.UpdatePrice pos price) = Position.Instrument pos
  /\ Position.Quantity (Position.UpdatePrice pos price) = Position.Quantity pos
  /\ Position.Status (Position.UpdatePrice pos price) = Position.Status pos.
Proof.
  destruct pos. unfold Position.UpdatePrice. cbn.
  repeat match goal with
         | |- context [match ?x with _ => _ end] => destruct x eqn:?
         end; cbn; repeat split; reflexivity.
Qed.
End InvariantFacts.

Section InvariantSteps.
Implicit Types (p : Portfolio.t) (pos : Position.t) (ord : Order.t).

Lemma handleEntryOrder_ok p ord p' :
  Portfolio.handleEntryOrder p ord = (p', None) ->
  Portfolio.closedPositions p' = Portfolio.closedPositions p
  /\ exists pos',
      Portfolio.openPositions p'
      = <[Order.Instrument ord := pos']> (Portfolio.openPositions p)
      /\ match Portfolio.openPositions p !! Order.Instrument ord with
         | None => NewPosition ord = Ok pos'
         | Some pos => Position.AddOrder pos ord = (pos', None)
         end.
Proof.
  unfold Portfolio.handleEntryOrder.
  destruct (Portfolio.openPositions p !! Order.Instrument ord) as [pos|] eqn:Hpos.
  - destruct (Position.AddOrder pos ord) as [pos' [err|]] eqn:Hadd; [discriminate|].
    intros Heq. inversion Heq; subst; clear Heq. simpl. split; [reflexivity|].
    exists pos'. split; reflexivity.
  - destruct (NewPosition ord) as [pos'|] eqn:Hnew; [|discriminate].
    intros Heq. inversion Heq; subst; clear Heq. simpl. split; [reflexivity|].
    exists pos'. split; reflexivity.
Qed.

Lemma handleExitOrder_ok p ord p' :
  Portfolio.handleExitOrder p ord = (p', None) ->
  exists pos pos',
    Portfolio.openPositions p !! Order.Instrument ord = Some pos
    /\ Position.AddOrder pos ord = (pos', None)
    /\ match Position.Status pos' with
       | Closed =>
           Portfolio.openPositions p'
           = delete (Order.Instrument ord) (Portfolio.openPositions p)
           /\ Portfolio.closedPositions p' = Portfolio.closedPositions p ++ [pos']
       | _ =>
           Portfolio.openPositions p'
           = <[Order.Instrument ord := pos']> (Portfolio.openPositions p)
           /\ Portfolio.closedPositions p' = Portfolio.closedPositions p
       end.
Proof.
  unfold Portfolio.handleExitOrder.
  destruct (Portfolio.openPositions p !! Order.Instrument ord) as [pos|] eqn:Hpos;
    [|discriminate].
  destruct (Position.AddOrder pos ord) as [pos' [err|]] eqn:Hadd; [discriminate|].
  intros Heq. inversion Heq; subst; clear Heq.
  exists pos, pos'. split; [reflexivity|]. split; [assumption|].
  destruct (Position.Status pos'); simpl; rewrite ?delete_insert_eq; split; reflexivity.
Qed.

Lemma openWithin_mono b b' p : b <= b' -> openWithin b p -> openWithin b' p.
Proof.
  intros Hb Hin instrument pos Hpos. destruct (Hin instrument pos Hpos) as (Hi & Hq & Hs).
  repeat split; try assumption; lia.
Qed.

(** One call keeps the invariant, the bound growing by the units the call
    may add. *)
Lemma call_invariant b p c :
  0 <= b -> b + callVolume c <= Int.max_int ->
  openWithin b p -> closedAreClosed p ->
  openWithin (b + callVolume c) (call p c) /\ closedAreClosed (call p c).
Proof.
  intros Hb Hbound Hopen Hclosed. pose proof (callVolume_nonneg c) as Hvol.
  destruct c as [ord|prices]; simpl call.
  - destruct (Portfolio.ProcessOrder p ord) as [p' [err|]] eqn:Hrun; cbn [fst].
    { apply ProcessOrder_failure in Hrun. subst p'.
      split; [apply (openWithin_mono b); [lia|assumption]|assumption]. }
    revert Hrun. unfold Portfolio.ProcessOrder.
    destruct (Portfolio.validateOrder p ord); [discriminate|].
    simpl in Hbound, Hvol |- *. destruct (Order.Type_ ord) eqn:Htype; intros Hrun.
    + apply handleEntryOrder_ok in Hrun as (Hcl & pos' & Hop & Hmade).
      split; [|unfold closedAreClosed; rewrite Hcl; assumption].
      intros instrument pos Hpos. rewrite Hop in Hpos.
      destruct (decide (Order.Instrument ord = instrument)) as [<-|Hne].
      * rewrite lookup_insert_eq in Hpos. inversion Hpos; subst pos'; clear Hpos.
        destruct (Portfolio.openPositions p !! Order.Instrument ord) as [old|] eqn:Hold.
        -- destruct (Hopen _ _ Hold) as (Hi & Hq & Hs).
           destruct (AddOrder_entry_ok old ord pos Htype Hmade) as (Hi' & Hs' & Hq' & Hpos).
           unfold Int.add in Hq'.
           rewrite wrap_in_range in Hq'
             by (unfold Int.in_range, Int.min_int, Int.max_int in *; lia).
           repeat split; [congruence|lia|lia|congruence].
        -- destruct (NewPosition_ok ord pos Hmade) as (Hi & Hq & Hq0 & Hs & _).
           repeat split; [assumption|lia|lia|congruence].
      * rewrite lookup_insert_ne in Hpos by assumption.
        destruct (Hopen _ _ Hpos) as (Hi & Hq & Hs). repeat split; try assumption; lia.
    + apply handleExitOrder_ok in Hrun as (old & pos' & Hold & Hadd & Hmove).
      destruct (Hopen _ _ Hold) as (Hi & Hq & Hs).
      destruct (AddOrder_exit_ok old ord pos' Htype Hadd) as (Hi' & Hq' & Hle & Hs').
      unfold Int.sub in Hq'.
      rewrite wrap_in_range in Hq'
        by (unfold Int.in_range, Int.min_int, Int.max_int in *; lia).
      rewrite Z.add_0_r.
      destruct (Z.eqb_spec (Position.Quantity pos') 0) as [Hz|Hnz]; rewrite Hs' in Hmove.
      * destruct Hmove as [Hop Hcl]. split.
        -- intros instrument pos Hpos. rewrite Hop in Hpos.
           apply lookup_delete_Some in Hpos as [_ Hpos]. exact (Hopen _ _ Hpos).
        -- intros pos Hin. rewrite Hcl in Hin.
           apply elem_of_app in Hin as [Hin|Hin]; [exact (Hclosed pos Hin)|].
           apply list_elem_of_singleton in Hin. subst pos. split; assumption.
      * destruct Hmove as [Hop Hcl]. split; [|unfold closedAreClosed; rewrite Hcl; assumption].
        intros instrument pos Hpos. rewrite Hop in Hpos.
        destruct (decide (Order.Instrument ord = instrument)) as [<-|Hne].
        -- rewrite lookup_insert_eq in Hpos. inversion Hpos; subst pos'; clear Hpos.
           repeat split; [congruence|lia|lia|congruence].
        -- rewrite lookup_insert_ne in Hpos by assumption. exact (Hopen _ _ Hpos).
  - simpl in *. rewrite Z.add_0_r. split; [|assumption].
    intros instrument pos Hpos. unfold Portfolio.UpdatePositions in Hpos. simpl in Hpos.
    rewrite map_lookup_imap in Hpos.
    destruct (Portfolio.openPositions p !! instrument) as [old|] eqn:Hold; [|discriminate].
    simpl in Hpos. inversion Hpos; subst pos; clear Hpos.
    destruct (Hopen _ _ Hold) as (Hi & Hq & Hs).
    destruct (prices !! instrument) as [price|]; [|repeat split; try assumption; lia].
    unfold Portfolio.updatePosition.
    destruct (UpdatePrice_fixed old price) as (-> & -> & ->).
    repeat split; try assumption; lia.
Qed.

Lemma calls_invariant cs b p :
  0 <= b -> b + entryVolume cs <= Int.max_int ->
  openWithin b p -> closedAreClosed p ->
  openWithin (b + entryVolume cs) (calls p cs) /\ closedAreClosed (calls p cs).
Proof.
  revert b p. induction cs as [|c cs IH]; intros b p Hb Hbound Hopen Hclosed.
  - simpl. rewrite Z.add_0_r. split; assumption.
  - rewrite entryVolume_cons in *. pose proof (entryVolume_nonneg cs) as Hcs.
    pose proof (callVolume_nonneg c) as Hc.
    destruct (call_invariant b p c) as [Hopen' Hclosed']; [lia|lia|assumption..|].
    rewrite Z.add_assoc. apply IH; [lia|lia|assumption..].
Qed.
End InvariantSteps.

(** Without the bound on the units entered the quantity of an open position
    can wrap: two entries of 2^62 units at price 0 pass the cash check and
    leave the position with a negative quantity. *)
Lemma open_quantity_wraps :
  let s := Portfolio.mkSettings 10000 false 0 in
  let entry := CallProcessOrder (Fill (NewOrder "ord_1" "AAPL" Long Entry (2 ^ 62) 1) 0) in
  Position.Quantity <$> Portfolio.openPositions (calls (Portfolio.New s) [entry; entry]) !! "AAPL"
  = Some (- 2 ^ 63).
Proof. vm_compute. reflexivity. Qed.

(** C6, amended. In every portfolio reached from a fresh one by calls of
    [ProcessOrder] and [UpdatePositions] whose entry orders together ask for no
    more units than an [int] holds, every key of the open map maps to a
    position of that instrument with a quantity above 0 and a status other
    than [Closed], and every position of the closed list has quantity 0 and
    status [Closed]; so no position is both open and closed. An instrument
    that was closed and entered again is a key of the open map while its
    earlier position stays in the closed list. *)
Theorem portfolio_set_invariant (s : Portfolio.Settings) (cs : list Call) :
  entryVolume cs <= Int.max_int ->
  let p := calls (Portfolio.New s) cs in
  (forall instrument pos,
      Portfolio.openPositions p !! instrument = Some pos ->
      Position.Instrument pos = instrument
      /\ 0 < Position.Quantity pos
      /\ Position.Status pos <> Closed)
  /\ (forall pos, pos ∈ Portfolio.closedPositions p ->
                  Position.Quantity pos = 0 /\ Position.Status pos = Closed)
  /\ (forall instrument pos closed,
         Portfolio.openPositions p !! instrument = Some pos ->
         closed ∈ Portfolio.closedPositions p -> closed <> pos).
Proof.
  intros Hbound p.
  destruct (calls_invariant cs 0 (Portfolio.New s)) as [Hopen Hclosed].
  - lia.
  - rewrite Z.add_0_l. assumption.
  - intros instrument pos Hpos. simpl in Hpos. rewrite lookup_empty in Hpos. discriminate.
  - intros pos Hin. simpl in Hin. inversion Hin.
  - fold p in Hopen, Hclosed. split; [|split].
    + intros instrument pos Hpos. destruct (Hopen _ _ Hpos) as (Hi & Hq & Hs).
      repeat split; try assumption; lia.
    + assumption.
    + intros instrument pos closed Hpos Hin ->.
      destruct (Hopen _ _ Hpos) as (_ & _ & Hs). destruct (Hclosed _ Hin) as [_ Hc].
      contradiction.
Qed.

(** C6, as stated, fails: the closed list is a history. Entering AAPL,
    exiting it in full and entering it again leaves AAPL a key of the open map
    and the instrument of a closed position. *)
Lemma portfolio_reopens_closed_instrument :
  let s := Portfolio.mkSettings 10000 false 0 in
  let entry := CallProcessOrder (Fill (NewOrder "ord_1" "AAPL" Long Entry 10 1) 100) in
  let exit := CallProcessOrder (Fill (NewOrder "ord_2" "AAPL" Long Exit 10 1) 120) in
  let again := CallProcessOrder (Fill (NewOrder "ord_3" "AAPL" Long Entry 5 1) 110) in
  let p := calls (Portfolio.New s) [entry; exit; again] in
  is_Some (Portfolio.openPositions p !! "AAPL")
  /\ Position.Instrument <$> Portfolio.closedPositions p = ["AAPL"]
  /\ ~ openClosedDisjoint p
  /\ ~ (openQuantitiesPositive p /\ openClosedDisjoint p).
Proof.
  intros s entry exit again p.
  assert (Hopen : exists pos, Portfolio.openPositions p !! "AAPL" = Some pos)
    by (eexists; vm_compute; reflexivity).
  assert (Hclosed : exists closed, Portfolio.closedPositions p = [closed]
                                   /\ Position.Instrument closed = "AAPL")
    by (eexists; split; vm_compute; reflexivity).
  assert (Hnot : ~ openClosedDisjoint p).
  { intros Hdis. destruct Hopen as [pos Hpos], Hclosed as (closed & Hcl & Hi).
    apply (Hdis "AAPL" pos Hpos closed); [rewrite Hcl; left|assumption]. }
  split; [destruct Hopen as [pos Hpos]; exists pos; assumption|].
  split; [vm_compute; reflexivity|].
  split; [assumption|]. intros [_ Hdis]. exact (Hnot Hdis).
Qed.

Lemma portfolio_set_invariant_witness :
  let s := Portfolio.mkSettings 10000 false 0 in
  let entry := CallProcessOrder (Fill (NewOrder "ord_1" "AAPL" Long Entry 10 1) 100) in
  let mark := CallUpdatePositions {["AAPL" := 120%float]} in
  let exit := CallProcessOrder (Fill (NewOrder "ord_2" "AAPL" Long Exit 10 1) 120) in
  let again := CallProcessOrder (Fill (NewOrder "ord_3" "AAPL" Long Entry 5 1) 110) in
  let cs := [entry; mark; exit; again] in
  entryVolume cs <= Int.max_int
  /\ exists pos,
      Portfolio.openPositions (calls (Portfolio.New s) cs) !! "AAPL" = Some pos
      /\ Position.Instrument pos = "AAPL"
      /\ 0 < Position.Quantity pos
      /\ Position.Status pos <> Closed.
Proof.
  intros s entry mark exit again cs.
  assert (Hvol : entryVolume cs <= Int.max_int) by (vm_compute; congruence).
  split; [assumption|].
  eexists. split; [vm_compute; reflexivity|].
  apply (proj1 (portfolio_set_invariant s cs Hvol) "AAPL"). vm_compute. reflexivity.
Defined.

(** * Further properties of the code

    ** Orders and positions *)

Lemma f64_not_leb_not_ltb x y : (x <=? y)%float = false -> (x <? y)%float = false.
Proof.
  intros Hle. destruct (x <? y)%float eqn:Hlt; [|reflexivity].
  apply f64_ltb_leb in Hlt. congruence.
Qed.

(** X1. [NewPosition] succeeds exactly for an entry order of at least one
    unit; the type is checked before the quantity. The position takes
    instrument, side, quantity and price of the order, starts [Open] with the
    anchor at the entry price, and its leverage is never below 1. *)
Theorem NewPosition_outcome (ord : Order.t) :
  match NewPosition ord with
  | Ok pos =>
      Order.Type_ ord = Entry /\ 0 < Order.Quantity ord
      /\ Position.Instrument pos = Order.Instrument ord
      /\ Position.Side pos = Order.Side ord
      /\ Position.Quantity pos = Order.Quantity ord
      /\ Position.OpenPrice pos = Order.Price ord
      /\ Position.TrailingStopHigh pos = Order.Price ord
      /\ Position.Status pos = Open
      /\ (Position.Leverage pos <? 1)%float = false
      /\ ((Order.Leverage ord >? 1)%float = true -> Position.Leverage pos = Order.Leverage ord)
  | Fail e =>
      (Order.Type_ ord = Exit /\ e = ErrNonEntryOrder)
      \/ (Order.Type_ ord = Entry /\ Order.Quantity ord <= 0
          /\ e = ErrInvalidQuantity (Order.Quantity ord))
  end.
Proof.
  unfold NewPosition. destruct (Order.Type_ ord); [|left; split; reflexivity].
  destruct (Z.leb_spec (Order.Quantity ord) 0) as [Hq|Hq].
  - right. repeat split. assumption.
  - destruct (Order.Leverage ord <=? 1)%float eqn:Hlev; cbn; repeat split; try assumption.
    + intros Hgt. apply f64_leb_not_gtb in Hlev. congruence.
    + apply f64_not_leb_not_ltb. assumption.
Qed.

(** X2. [AddOrder] rejects an order exactly when it is for another
    instrument, asks for no unit, or is an exit for more than the position
    holds; a rejected order leaves the position as it was. *)
Theorem AddOrder_rejects_exactly (pos : Position.t) (ord : Order.t) :
  (snd (Position.AddOrder pos ord) <> None
   <-> Order.Instrument ord <> Position.Instrument pos
       \/ Order.Quantity ord <= 0
       \/ (Order.Type_ ord = Exit /\ Position.Quantity pos < Order.Quantity ord))
  /\ (snd (Position.AddOrder pos ord) <> None -> fst (Position.AddOrder pos ord) = pos).
Proof.
  split.
  - unfold Position.AddOrder.
    destruct (String.eqb_spec (Order.Instrument ord) (Position.Instrument pos)) as [Hi|Hi]; simpl.
    2:{ split; [intros _; left; assumption|intros _; discriminate]. }
    destruct (Z.leb_spec (Order.Quantity ord) 0) as [Hq|Hq]; simpl.
    { split; [intros _; right; left; assumption|intros _; discriminate]. }
    destruct (Order.Type_ ord) eqn:Htype; simpl.
    { split; [intros Hn; contradiction|intros [?|[?|[? _]]]; [contradiction|lia|discriminate]]. }
    rewrite Z.gtb_ltb.
    destruct (Z.ltb_spec (Position.Quantity pos) (Order.Quantity ord)) as [Hs|Hs]; simpl.
    { split; [intros _; right; right; split; [reflexivity|assumption]|intros _; discriminate]. }
    split; [intros Hn; contradiction|intros [?|[?|[_ ?]]]; [contradiction|lia|lia]].
  - destruct (Position.AddOrder pos ord) as [pos' [e|]] eqn:Hadd; simpl; [|contradiction].
    intros _. exact (AddOrder_rejected pos ord pos' e Hadd).
Qed.

Lemma ordersVolume_nonneg ords : 0 <= ordersVolume ords.
Proof.
  induction ords as [|ord ords IH]; simpl; [lia|]. destruct (Order.Type_ ord); lia.
Qed.

Lemma addOrders_within first ords bound pos n :
  bound + ordersVolume ords <= Int.max_int ->
  positionWithin first bound pos ->
  positionWithin first (bound + ordersVolume ords) (fst (addOrders pos n ords)).
Proof.
  revert bound pos n. induction ords as [|ord ords IH]; intros bound pos n Hbound Hin.
  - simpl. rewrite Z.add_0_r. assumption.
  - pose proof (ordersVolume_nonneg ords) as Hvol.
    cbn [addOrders]. destruct (Position.AddOrder pos ord) as [pos' [e|]] eqn:Hadd.
    + apply AddOrder_rejected in Hadd. subst pos'.
      simpl in Hbound |- *. destruct (Order.Type_ ord).
      * replace (bound + (Z.max 0 (Order.Quantity ord) + ordersVolume ords))
          with ((bound + Z.max 0 (Order.Quantity ord)) + ordersVolume ords) by lia.
        apply IH; [lia|]. destruct Hin as (Hq & Hz & Ho). repeat split; try assumption; lia.
      * apply IH; assumption.
    + destruct Hin as (Hq & Hz & Ho).
      simpl in Hbound |- *. destruct (Order.Type_ ord) eqn:Htype.
      * destruct (AddOrder_entry_ok pos ord pos' Htype Hadd) as (_ & Hs & Hq' & Hpos).
        unfold Int.add in Hq'.
        rewrite wrap_in_range in Hq'
          by (unfold Int.in_range, Int.min_int, Int.max_int in *; lia).
        replace (bound + (Z.max 0 (Order.Quantity ord) + ordersVolume ords))
          with ((bound + Z.max 0 (Order.Quantity ord)) + ordersVolume ords) by lia.
        apply IH; [lia|]. repeat split; try lia.
        rewrite Hs. intros Hopen. specialize (Ho Hopen). lia.
      * destruct (AddOrder_exit_ok pos ord pos' Htype Hadd) as (_ & Hq' & Hle & Hs).
        unfold Int.sub in Hq'.
        rewrite wrap_in_range in Hq'
          by (unfold Int.in_range, Int.min_int, Int.max_int in *; lia).
        apply IH; [lia|]. repeat split; try lia.
        -- intros Hz'. rewrite Hs. rewrite Hz'. reflexivity.
        -- rewrite Hs. destruct (_ =? 0); discriminate.
Qed.

(** X3. Whatever orders are offered to a position after its creation, as
    long as the entries fit an [int]: the quantity never goes below 0, a
    position holding nothing is [Closed], and a position still [Open] holds at
    least what it was created with. *)
Theorem position_quantity_invariant (first : Order.t) (rest : list Order.t)
    (pos : Position.t) :
  NewPosition first = Ok pos ->
  Order.Quantity first + ordersVolume rest <= Int.max_int ->
  let pos' := fst (addOrders pos 1 rest) in
  0 <= Position.Quantity pos'
  /\ (Position.Quantity pos' = 0 -> Position.Status pos' = Closed)
  /\ (Position.Status pos' = Open -> Order.Quantity first <= Position.Quantity pos').
Proof.
  intros Hnew Hbound pos'.
  pose proof (NewPosition_ok first pos Hnew) as (_ & Hq & Hpos & Hs & _).
  destruct (addOrders_within (Order.Quantity first) rest (Order.Quantity first) pos 1 Hbound)
    as (Hq' & Hz & Ho).
  - repeat split; intros; lia.
  - fold pos' in Hq', Hz, Ho. repeat split; [lia|assumption|assumption].
Qed.

Section UpdatePriceFacts.
Implicit Types (pos : Position.t) (price : float).

(** [UpdatePrice] writes four fields. *)
Lemma UpdatePrice_explicit pos price :
  Position.UpdatePrice pos price
  = Position.with_MaxDrawdown (drawdownAfter pos price)
      (Position.with_UnrealizedPnL (unrealizedAt pos price)
         (Position.with_LowestPrice (lowAfter pos price)
            (Position.with_HighestPrice (highAfter pos price) pos))).
Proof.
  destruct pos. destruct Side;
    unfold Position.UpdatePrice, drawdownAfter, unrealizedAt, lowAfter, highAfter;
    cbn;
    repeat match goal with
           | |- context [match ?x with _ => _ end] => destruct x eqn:?; cbn in *
           end; first [reflexivity | congruence].
Qed.

Lemma with_same_marks pos :
  Position.with_MaxDrawdown (Position.MaxDrawdown pos)
    (Position.with_UnrealizedPnL (Position.UnrealizedPnL pos)
       (Position.with_LowestPrice (Position.LowestPrice pos)
          (Position.with_HighestPrice (Position.HighestPrice pos) pos))) = pos.
Proof. destruct pos. reflexivity. Qed.

(** Taking the larger of a mark and a value twice is taking it once. *)
Lemma max_twice (v mark : float) :
  (if (v >? (if (v >? mark)%float then v else mark))%float
   then v else (if (v >? mark)%float then v else mark))
  = (if (v >? mark)%float then v else mark).
Proof.
  destruct (mark <? v)%float eqn:Hgt; [rewrite f64_ltb_irrefl|rewrite Hgt]; reflexivity.
Qed.

Lemma UpdatePrice_fields pos price :
  Position.Side (Position.UpdatePrice pos price) = Position.Side pos
  /\ Position.Quantity (Position.UpdatePrice pos price) = Position.Quantity pos
  /\ Position.OpenPrice (Position.UpdatePrice pos price) = Position.OpenPrice pos
  /\ Position.Leverage (Position.UpdatePrice pos price) = Position.Leverage pos
  /\ Position.HighestPrice (Position.UpdatePrice pos price) = highAfter pos price
  /\ Position.LowestPrice (Position.UpdatePrice pos price) = lowAfter pos price
  /\ Position.UnrealizedPnL (Position.UpdatePrice pos price) = unrealizedAt pos price
  /\ Position.MaxDrawdown (Position.UpdatePrice pos price) = drawdownAfter pos price.
Proof. rewrite UpdatePrice_explicit. destruct pos. repeat split; reflexivity. Qed.

Lemma highAfter_twice pos price :
  highAfter (Position.UpdatePrice pos price) price = highAfter pos price.
Proof.
  destruct (UpdatePrice_fields pos price) as (_ & _ & _ & _ & Hh & _).
  unfold highAfter at 1. rewrite Hh. unfold highAfter. apply max_twice.
Qed.

Lemma lowAfter_twice pos price :
  lowAfter (Position.UpdatePrice pos price) price = lowAfter pos price.
Proof.
  destruct (UpdatePrice_fields pos price) as (_ & _ & _ & _ & _ & Hl & _).
  unfold lowAfter at 1. rewrite Hl. unfold lowAfter.
  destruct ((price <? Position.LowestPrice pos)%float
            || (Position.LowestPrice pos =? 0)%float) eqn:Hc.
  - destruct (price <? price)%float, (price =? 0)%float; reflexivity.
  - rewrite Hc. reflexivity.
Qed.

Lemma drawdownAfter_twice pos price :
  drawdownAfter (Position.UpdatePrice pos price) price = drawdownAfter pos price.
Proof.
  destruct (UpdatePrice_fields pos price) as (Hs & _ & _ & _ & _ & _ & _ & Hd).
  unfold drawdownAfter at 1. rewrite highAfter_twice, lowAfter_twice, Hs, Hd.
  unfold drawdownAfter. apply max_twice.
Qed.

Lemma unrealizedAt_twice pos price :
  unrealizedAt (Position.UpdatePrice pos price) price = unrealizedAt pos price.
Proof.
  destruct (UpdatePrice_fields pos price) as (Hs & Hq & Ho & Hl & _).
  unfold unrealizedAt. rewrite Hs, Hq, Ho, Hl. reflexivity.
Qed.
End UpdatePriceFacts.

(** X4. After [UpdatePrice] the price is neither above the highest nor below
    the lowest price recorded, the unrealized PnL is that of the full quantity
    at the price, and quantity, open price, realized PnL, order history and
    status are untouched. *)
Theorem UpdatePrice_brackets_price (pos : Position.t) (price : float) :
  let pos' := Position.UpdatePrice pos price in
  (price >? Position.HighestPrice pos')%float = false
  /\ (price <? Position.LowestPrice pos')%float = false
  /\ Position.UnrealizedPnL pos'
     = match Position.Side pos with
       | Long => (Int.to_float64 (Position.Quantity pos)
                  * (price - Position.OpenPrice pos) * Position.Leverage pos)%float
       | Short => (Int.to_float64 (Position.Quantity pos)
                   * (Position.OpenPrice pos - price) * Position.Leverage pos)%float
       end
  /\ Position.Quantity pos' = Position.Quantity pos
  /\ Position.OpenPrice pos' = Position.OpenPrice pos
  /\ Position.RealizedPnL pos' = Position.RealizedPnL pos
  /\ Position.Orders pos' = Position.Orders pos
  /\ Position.Status pos' = Position.Status pos.
Proof.
  intros pos'. subst pos'.
  destruct (UpdatePrice_fields pos price) as (_ & Hq & Ho & _ & Hh & Hl & Hu & _).
  rewrite Hh, Hl, Hu, Hq, Ho. unfold highAfter, lowAfter.
  split; [|split; [|split; [reflexivity|split; [reflexivity|split; [reflexivity|]]]]].
  - destruct (Position.HighestPrice pos <? price)%float eqn:Hgt;
      [apply f64_ltb_irrefl|assumption].
  - destruct (price <? Position.LowestPrice pos)%float eqn:Hlt; simpl;
      [apply f64_ltb_irrefl|].
    destruct (Position.LowestPrice pos =? 0)%float; [apply f64_ltb_irrefl|assumption].
  - rewrite UpdatePrice_explicit. destruct pos. repeat split; reflexivity.
Qed.

Lemma UpdatePrice_twice pos price :
  Position.UpdatePrice (Position.UpdatePrice pos price) price
  = Position.UpdatePrice pos price.
Proof.
  rewrite (UpdatePrice_explicit (Position.UpdatePrice pos price) price).
  rewrite drawdownAfter_twice, highAfter_twice, lowAfter_twice, unrealizedAt_twice.
  destruct (UpdatePrice_fields pos price) as (_ & _ & _ & _ & Hh & Hl & Hu & Hd).
  rewrite <- Hh, <- Hl, <- Hu, <- Hd. apply with_same_marks.
Qed.

(** X5. A second [UpdatePrice] at the same price changes nothing: the
    extremes, the unrealized PnL and the maximum drawdown it would write are
    the ones on record. *)
Theorem UpdatePrice_idempotent (pos : Position.t) (price : float) :
  Position.UpdatePrice (Position.UpdatePrice pos price) price
  = Position.UpdatePrice pos price
  /\ highAfter (Position.UpdatePrice pos price) price
     = Position.HighestPrice (Position.UpdatePrice pos price)
  /\ lowAfter (Position.UpdatePrice pos price) price
     = Position.LowestPrice (Position.UpdatePrice pos price)
  /\ drawdownAfter (Position.UpdatePrice pos price) price
     = Position.MaxDrawdown (Position.UpdatePrice pos price).
Proof.
  destruct (UpdatePrice_fields pos price) as (_ & _ & _ & _ & Hh & Hl & _ & Hd).
  rewrite highAfter_twice, lowAfter_twice, drawdownAfter_twice, Hh, Hl, Hd.
  split; [apply UpdatePrice_twice|repeat split].
Qed.

Lemma rises_of_ltb a b : (a <? b)%float = true -> rises a b.
Proof.
  intros Hlt _. split; [apply (f64_ltb_not_nan _ _ Hlt)|apply f64_ltb_leb; assumption].
Qed.

(** A mark that takes every larger value never goes down. *)
Lemma rises_max (v mark : float) : rises mark (if (v >? mark)%float then v else mark).
Proof.
  destruct (mark <? v)%float eqn:Hgt; [apply rises_of_ltb; assumption|apply rises_refl].
Qed.

Lemma UpdatePrice_rises pos price :
  rises (Position.HighestPrice pos) (Position.HighestPrice (Position.UpdatePrice pos price))
  /\ rises (Position.MaxDrawdown pos) (Position.MaxDrawdown (Position.UpdatePrice pos price)).
Proof.
  destruct (UpdatePrice_fields pos price) as (_ & _ & _ & _ & -> & _ & _ & ->).
  split; apply rises_max.
Qed.

(** X6. Across any sequence of [UpdatePrice] calls the highest price and
    the maximum drawdown of a position never go down. *)
Theorem UpdatePrice_high_water_marks (pos : Position.t) (prices : list float) :
  let pos' := fold_left Position.UpdatePrice prices pos in
  ((Position.HighestPrice pos' <? Position.HighestPrice pos)%float = false
   /\ (is_nan (Position.HighestPrice pos) = false ->
       (Position.HighestPrice pos <=? Position.HighestPrice pos')%float = true))
  /\ ((Position.MaxDrawdown pos' <? Position.MaxDrawdown pos)%float = false
      /\ (is_nan (Position.MaxDrawdown pos) = false ->
          (Position.MaxDrawdown pos <=? Position.MaxDrawdown pos')%float = true)).
Proof.
  intros pos'. subst pos'.
  assert (Hrise : rises (Position.HighestPrice pos)
                        (Position.HighestPrice (fold_left Position.UpdatePrice prices pos))
                  /\ rises (Position.MaxDrawdown pos)
                           (Position.MaxDrawdown (fold_left Position.UpdatePrice prices pos))).
  { revert pos. induction prices as [|price prices IH]; intros pos.
    - split; apply rises_refl.
    - simpl. destruct (UpdatePrice_rises pos price) as [Hh Hd].
      destruct (IH (Position.UpdatePrice pos price)) as [Hh' Hd'].
      split; eapply rises_trans; eassumption. }
  destruct Hrise as [Hh Hd].
  split; (split; [apply rises_not_below; assumption|]).
  - intros Hn. apply Hh. assumption.
  - intros Hn. apply Hd. assumption.
Qed.

Lemma position_quantity_invariant_witness :
  let first := entryOrder "AAPL" 10 100 in
  let rest := [Fill (NewOrder "ord_2" "AAPL" Long Exit 4 1) 110; entryOrder "AAPL" 5 120;
               Fill (NewOrder "ord_4" "AAPL" Long Exit 11 1) 90] in
  let pos := Position.mk "AAPL" Long 10 100 0 Open [Order.zero; first] 1 0 0 0 0 0 0 0 100 in
  (NewPosition first = Ok pos /\ Order.Quantity first + ordersVolume rest <= Int.max_int)
  /\ 0 <= Position.Quantity (fst (addOrders pos 1 rest))
  /\ Position.Quantity (fst (addOrders pos 1 rest)) = 0.
Proof.
  intros first rest pos.
  assert (Hvol : Order.Quantity first + ordersVolume rest <= Int.max_int)
    by (vm_compute; congruence).
  split; [split; [reflexivity|assumption]|].
  split; [|reflexivity].
  exact (proj1 (position_quantity_invariant first rest pos eq_refl Hvol)).
Defined.

Lemma UpdatePrice_high_water_marks_witness :
  let pos := Position.mk "AAPL" Long 10 100 0 Open [] 1 0 0 0 0 0 0 0 100 in
  let prices := [120; 90; 110]%float in
  is_nan (Position.HighestPrice pos) = false
  /\ (Position.HighestPrice pos
      <=? Position.HighestPrice (fold_left Position.UpdatePrice prices pos))%float = true
  /\ Position.MaxDrawdown (fold_left Position.UpdatePrice prices pos) = 0.25%float.
Proof.
  intros pos prices. split; [reflexivity|]. split; [|reflexivity].
  exact (proj2 (proj1 (UpdatePrice_high_water_marks pos prices)) eq_refl).
Defined.

(** ** The portfolio: what a call does and what it leaves *)

Section ProcessOrderFacts.
Implicit Types (p : Portfolio.t) (pos : Position.t) (ord : Order.t).

Lemma handleEntryOrder_effect p ord p' :
  Portfolio.handleEntryOrder p ord = (p', None) ->
  Portfolio.orderHistory p' = Portfolio.orderHistory p ++ [ord]
  /\ Portfolio.settings p' = Portfolio.settings p
  /\ Portfolio.cash p' = (Portfolio.cash p - entryCost p ord)%float.
Proof.
  unfold Portfolio.handleEntryOrder, entryCost, notional.
  destruct (Portfolio.openPositions p !! Order.Instrument ord) as [pos|].
  - destruct (Position.AddOrder pos ord) as [pos' [err|]]; [discriminate|].
    intros Heq. inversion Heq; subst; clear Heq. repeat split.
  - destruct (NewPosition ord) as [pos'|]; [|discriminate].
    intros Heq. inversion Heq; subst; clear Heq. repeat split.
Qed.

Lemma handleExitOrder_effect p ord p' :
  Portfolio.handleExitOrder p ord = (p', None) ->
  Portfolio.orderHistory p' = Portfolio.orderHistory p ++ [ord]
  /\ Portfolio.settings p' = Portfolio.settings p
  /\ Portfolio.cash p' = (Portfolio.cash p + notional ord)%float.
Proof.
  unfold Portfolio.handleExitOrder, notional.
  destruct (Portfolio.openPositions p !! Order.Instrument ord) as [pos|]; [|discriminate].
  destruct (Position.AddOrder pos ord) as [pos' [err|]]; [discriminate|].
  intros Heq. inversion Heq; subst; clear Heq.
  destruct (Position.Status pos'); repeat split.
Qed.

Lemma ProcessOrder_accepted p ord p' :
  Portfolio.ProcessOrder p ord = (p', None) ->
  Portfolio.validateOrder p ord = None
  /\ match Order.Type_ ord with
     | Entry => Portfolio.handleEntryOrder p ord = (p', None)
     | Exit => Portfolio.handleExitOrder p ord = (p', None)
     end.
Proof.
  unfold Portfolio.ProcessOrder.
  destruct (Portfolio.validateOrder p ord); [discriminate|].
  destruct (Order.Type_ ord); intros Hrun; split; auto.
Qed.
End ProcessOrderFacts.

(** X7. An order [ProcessOrder] accepts is appended to the order history and
    leaves the settings alone. An entry costs its notional, divided by the
    default leverage of the portfolio for a long order when that leverage is
    above 1 (the leverage of the order plays no part); an exit credits its
    notional. The closed list keeps what it held, the instrument of an entry
    is open afterwards, that of an exit was open before, and no position
    under another instrument is touched. *)
Theorem ProcessOrder_success_effect (p p' : Portfolio.t) (ord : Order.t) :
  Portfolio.ProcessOrder p ord = (p', None) ->
  Portfolio.orderHistory p' = Portfolio.orderHistory p ++ [ord]
  /\ Portfolio.settings p' = Portfolio.settings p
  /\ Portfolio.cash p'
     = match Order.Type_ ord with
       | Entry => (Portfolio.cash p - entryCost p ord)%float
       | Exit => (Portfolio.cash p + notional ord)%float
       end
  /\ Portfolio.closedPositions p `prefix_of` Portfolio.closedPositions p'
  /\ match Order.Type_ ord with
     | Entry => is_Some (Portfolio.openPositions p' !! Order.Instrument ord)
     | Exit => is_Some (Portfolio.openPositions p !! Order.Instrument ord)
     end
  /\ (forall other, other <> Order.Instrument ord ->
                    Portfolio.openPositions p' !! other = Portfolio.openPositions p !! other).
Proof.
  intros Hrun. apply ProcessOrder_accepted in Hrun as [_ Hrun].
  destruct (Order.Type_ ord).
  - destruct (handleEntryOrder_effect p ord p' Hrun) as (Hh & Hs & Hc).
    destruct (handleEntryOrder_ok p ord p' Hrun) as (Hcl & pos' & Hop & _).
    repeat split; try assumption.
    + rewrite Hcl. reflexivity.
    + rewrite Hop, lookup_insert_eq. eexists; reflexivity.
    + intros other Hne. rewrite Hop. apply lookup_insert_ne. congruence.
  - destruct (handleExitOrder_effect p ord p' Hrun) as (Hh & Hs & Hc).
    destruct (handleExitOrder_ok p ord p' Hrun) as (pos & pos' & Hpos & _ & Hmove).
    repeat split; try assumption.
    + destruct (Position.Status pos'); destruct Hmove as [_ ->];
        first [reflexivity | apply prefix_app_r; reflexivity].
    + rewrite Hpos. eexists; reflexivity.
    + intros other Hne.
      destruct (Position.Status pos'); destruct Hmove as [-> _];
        first [apply lookup_insert_ne; congruence | apply lookup_delete_ne; congruence].
Qed.

Lemma ProcessOrder_success_effect_witness :
  let p := Portfolio.New (Portfolio.mkSettings 10000 false 2) in
  let ord := Fill (NewOrder "ord_1" "AAPL" Long Entry 10 5) 100 in
  Portfolio.ProcessOrder p ord = (fst (Portfolio.ProcessOrder p ord), None)
  /\ Portfolio.orderHistory (fst (Portfolio.ProcessOrder p ord)) = [ord]
  /\ Portfolio.cash (fst (Portfolio.ProcessOrder p ord)) = 9500%float.
Proof.
  intros p ord.
  assert (Hrun : Portfolio.ProcessOrder p ord = (fst (Portfolio.ProcessOrder p ord), None))
    by (vm_compute; reflexivity).
  split; [exact Hrun|].
  destruct (ProcessOrder_success_effect p _ ord Hrun) as (Hh & _ & Hc & _).
  split; [exact Hh|]. rewrite Hc. vm_compute. reflexivity.
Defined.

(** X8. What [ProcessOrder] answers to an exit order it cannot carry out,
    the portfolio staying as it is: no open position under the instrument;
    more units than the position holds; and, for a position held under its
    own instrument, a quantity of zero or less, which the size check lets
    through and [AddOrder] refuses. *)
Theorem ProcessOrder_exit_errors (p : Portfolio.t) (ord : Order.t) :
  Order.Type_ ord = Exit ->
  (Portfolio.openPositions p !! Order.Instrument ord = None ->
   Portfolio.ProcessOrder p ord = (p, Some (ErrNoOpenPosition (Order.Instrument ord))))
  /\ (forall pos,
         Portfolio.openPositions p !! Order.Instrument ord = Some pos ->
         Position.Quantity pos < Order.Quantity ord ->
         Portfolio.ProcessOrder p ord = (p, Some ErrExitExceedsSize))
  /\ (forall pos,
         Portfolio.openPositions p !! Order.Instrument ord = Some pos ->
         Position.Instrument pos = Order.Instrument ord ->
         Order.Quantity ord <= 0 ->
         Order.Quantity ord <= Position.Quantity pos ->
         Portfolio.ProcessOrder p ord = (p, Some (ErrInvalidQuantity (Order.Quantity ord)))).
Proof.
  intros Htype. unfold Portfolio.ProcessOrder, Portfolio.validateOrder. rewrite Htype.
  split; [|split].
  - intros ->. reflexivity.
  - intros pos -> Hq. rewrite Z.gtb_ltb.
    destruct (Z.ltb_spec (Position.Quantity pos) (Order.Quantity ord)); [reflexivity|lia].
  - intros pos Hpos Hinstr Hq Hle. rewrite Hpos, Z.gtb_ltb.
    destruct (Z.ltb_spec (Position.Quantity pos) (Order.Quantity ord)); [lia|].
    unfold Portfolio.handleExitOrder, Position.AddOrder.
    rewrite Hpos, Hinstr, String.eqb_refl. simpl.
    destruct (Z.leb_spec (Order.Quantity ord) 0); [|lia].
    rewrite with_openPositions_insert_id by assumption. reflexivity.
Qed.

Lemma ProcessOrder_exit_errors_witness :
  let entry := Fill (NewOrder "ord_1" "AAPL" Long Entry 10 1) 100 in
  let pos := Position.mk "AAPL" Long 10 100 0 Open [Order.zero; entry] 1 0 0 0 0 0 0 0 100 in
  let p := Portfolio.mk 9000 {["AAPL" := pos]} [] [entry] (Portfolio.mkSettings 10000 false 0) in
  let other := Fill (NewOrder "ord_2" "MSFT" Long Exit 10 1) 120 in
  let over := Fill (NewOrder "ord_3" "AAPL" Long Exit 11 1) 120 in
  let none := Fill (NewOrder "ord_4" "AAPL" Long Exit 0 1) 120 in
  (Order.Type_ other = Exit /\ Order.Type_ over = Exit /\ Order.Type_ none = Exit)
  /\ Portfolio.ProcessOrder p other = (p, Some (ErrNoOpenPosition "MSFT"))
  /\ Portfolio.ProcessOrder p over = (p, Some ErrExitExceedsSize)
  /\ Portfolio.ProcessOrder p none = (p, Some (ErrInvalidQuantity 0)).
Proof.
  intros entry pos p other over none.
  split; [repeat split|].
  split; [|split].
  - exact (proj1 (ProcessOrder_exit_errors p other eq_refl) eq_refl).
  - apply (proj1 (proj2 (ProcessOrder_exit_errors p over eq_refl)) pos eq_refl).
    vm_compute. reflexivity.
  - apply (proj2 (proj2 (ProcessOrder_exit_errors p none eq_refl)) pos eq_refl eq_refl);
      vm_compute; congruence.
Defined.

(** X9. Three errors of the code are never the answer of [ProcessOrder]:
    [NewPosition] is only called with an entry order, the portfolio looks the
    position up before [handleExitOrder] does, and its size check comes
    before the one of [AddOrder]. *)
Theorem ProcessOrder_shadowed_errors (p : Portfolio.t) (ord : Order.t) (e : error) :
  snd (Portfolio.ProcessOrder p ord) = Some e ->
  e <> ErrNonEntryOrder
  /\ (forall instrument, e <> ErrNoPositionFound instrument)
  /\ (forall q size, e <> ErrExitExceedsPosition q size).
Proof.
  unfold Portfolio.ProcessOrder, Portfolio.validateOrder.
  destruct (Order.Type_ ord) eqn:Htype.
  - destruct (negb _ && _).
    { simpl. intros Heq. inversion Heq. repeat split; intros; discriminate. }
    match goal with |- context [if ?c then _ else _] => destruct c end.
    { simpl. intros Heq. inversion Heq. repeat split; intros; discriminate. }
    unfold Portfolio.handleEntryOrder.
    destruct (Portfolio.openPositions p !! Order.Instrument ord) as [pos|].
    + unfold Position.AddOrder. rewrite Htype.
      destruct (negb _); [simpl; intros Heq; inversion Heq; repeat split; intros; discriminate|].
      destruct (_ <=? 0); simpl; intros Heq; inversion Heq; repeat split; intros; discriminate.
    + unfold NewPosition. rewrite Htype.
      destruct (_ <=? 0); simpl; intros Heq; inversion Heq; repeat split; intros; discriminate.
  - destruct (Portfolio.openPositions p !! Order.Instrument ord) as [pos|] eqn:Hpos.
    2:{ simpl. intros Heq. inversion Heq. repeat split; intros; discriminate. }
    destruct (Order.Quantity ord >? Position.Quantity pos) eqn:Hsize.
    { simpl. intros Heq. inversion Heq. repeat split; intros; discriminate. }
    unfold Portfolio.handleExitOrder. rewrite Hpos.
    unfold Position.AddOrder. rewrite Htype, Hsize.
    destruct (negb _); [simpl; intros Heq; inversion Heq; repeat split; intros; discriminate|].
    destruct (_ <=? 0); [simpl; intros Heq; inversion Heq; repeat split; intros; discriminate|].
    cbv zeta. simpl.
    repeat match goal with
           | |- context [match ?x with _ => _ end] => destruct x
           end; simpl; discriminate.
Qed.

Lemma ProcessOrder_shadowed_errors_witness :
  let p := Portfolio.New (Portfolio.mkSettings 600 false 0) in
  let ord := Fill (NewOrder "ord_1" "AAPL" Long Exit 10 1) 100 in
  snd (Portfolio.ProcessOrder p ord) = Some (ErrNoOpenPosition "AAPL")
  /\ (forall q size, ErrNoOpenPosition "AAPL" <> ErrExitExceedsPosition q size).
Proof.
  intros p ord.
  assert (Hrun : snd (Portfolio.ProcessOrder p ord) = Some (ErrNoOpenPosition "AAPL"))
    by reflexivity.
  split; [exact Hrun|].
  exact (proj2 (proj2 (ProcessOrder_shadowed_errors p ord _ Hrun))).
Defined.

(** X10. [UpdatePositions] touches the marks of the open positions only:
    cash, closed list, order history, settings and the set of open
    instruments stay; a position with a price in the map is the one
    [UpdatePrice] makes of it, a position without one is left alone. A second
    update with the same prices changes nothing, nor does an update with no
    price at all. *)
Theorem UpdatePositions_marks_only (p : Portfolio.t) (prices : gmap string float) :
  let p' := Portfolio.UpdatePositions p prices in
  Portfolio.cash p' = Portfolio.cash p
  /\ Portfolio.closedPositions p' = Portfolio.closedPositions p
  /\ Portfolio.orderHistory p' = Portfolio.orderHistory p
  /\ Portfolio.settings p' = Portfolio.settings p
  /\ dom (Portfolio.openPositions p') = dom (Portfolio.openPositions p)
  /\ (forall instrument,
         Portfolio.openPositions p' !! instrument
         = (fun pos => match prices !! instrument with
                       | Some price => Position.UpdatePrice pos price
                       | None => pos
                       end) <$> Portfolio.openPositions p !! instrument)
  /\ Portfolio.UpdatePositions p' prices = p'
  /\ Portfolio.UpdatePositions p ∅ = p.
Proof.
  intros p'. subst p'.
  assert (Hlook : forall q instrument,
             Portfolio.openPositions (Portfolio.UpdatePositions q prices) !! instrument
             = (fun pos => match prices !! instrument with
                           | Some price => Position.UpdatePrice pos price
                           | None => pos
                           end) <$> Portfolio.openPositions q !! instrument).
  { intros q instrument. unfold Portfolio.UpdatePositions. simpl.
    rewrite map_lookup_imap. destruct (Portfolio.openPositions q !! instrument); reflexivity. }
  repeat split; try reflexivity.
  - apply set_eq. intros instrument. rewrite !elem_of_dom, Hlook.
    destruct (Portfolio.openPositions p !! instrument); simpl; split; intros [x Hx];
      first [discriminate | eexists; reflexivity].
  - apply Hlook.
  - destruct p as [c o cl h s]. unfold Portfolio.UpdatePositions, Portfolio.with_openPositions. simpl. f_equal.
    apply map_eq. intros instrument. rewrite !map_lookup_imap.
    destruct (o !! instrument) as [pos|]; simpl; [|reflexivity].
    destruct (prices !! instrument) as [price|]; [|reflexivity].
    unfold Portfolio.updatePosition. rewrite UpdatePrice_twice. reflexivity.
  - destruct p as [c o cl h s]. unfold Portfolio.UpdatePositions, Portfolio.with_openPositions. simpl. f_equal.
    apply map_eq. intros instrument. rewrite map_lookup_imap.
    destruct (o !! instrument) as [pos|]; simpl; [|reflexivity].
    rewrite lookup_empty. reflexivity.
Qed.

Lemma closed_tally (closed : list Position.t) w l t :
  let '(w', l', _) :=
    fold_left (fun '(winning, losing, total) pos =>
                 if (Position.RealizedPnL pos >? 0)%float
                 then (winning + 1, losing, (total + Position.RealizedPnL pos)%float)
                 else (winning, losing + 1, (total + Position.RealizedPnL pos)%float))
              closed (w, l, t) in
  w' = w + Z.of_nat (length (winningTrades closed))
  /\ w' + l' = w + l + Z.of_nat (length closed).
Proof.
  revert w l t. induction closed as [|pos closed IH]; intros w l t; simpl.
  - lia.
  - destruct (Position.RealizedPnL pos >? 0)%float; simpl.
    + specialize (IH (w + 1) l (t + Position.RealizedPnL pos)%float).
      destruct (fold_left _ closed _) as [[w' l'] t']. lia.
    + specialize (IH w (l + 1) (t + Position.RealizedPnL pos)%float).
      destruct (fold_left _ closed _) as [[w' l'] t']. lia.
Qed.

Lemma open_tally (open : gmap string Position.t) :
  let '(w', l', _) :=
    map_fold (fun (_ : string) pos '(winning, losing, total) =>
                if (Position.UnrealizedPnL pos >? 0)%float
                then (winning + 1, losing, (total + Position.UnrealizedPnL pos)%float)
                else (winning, losing + 1, (total + Position.UnrealizedPnL pos)%float))
             (0, 0, 0%float) open in
  w' = Z.of_nat (size (winningPositions open))
  /\ w' + l' = Z.of_nat (size open).
Proof.
  apply (map_fold_weak_ind
           (fun (r : Z * Z * float) (m : gmap string Position.t) =>
              let '(w', l', _) := r in
              w' = Z.of_nat (size (winningPositions m))
              /\ w' + l' = Z.of_nat (size m))).
  - unfold winningPositions. rewrite map_filter_empty, map_size_empty. lia.
  - intros i pos m [[w l] t] Hi [Hw Hsum]. unfold winningPositions in *.
    rewrite map_size_insert_None by assumption.
    destruct (Position.UnrealizedPnL pos >? 0)%float eqn:Hwin.
    + rewrite map_filter_insert_True by exact Hwin.
      rewrite map_size_insert_None by (apply map_lookup_filter_None; left; assumption).
      lia.
    + rewrite map_filter_insert_not'; [lia|simpl; congruence|intros y Hy; congruence].
Qed.

(** X11. [GetPortfolioStats] counts every open position once, as winning when
    its unrealized PnL is above zero and as losing otherwise (at zero and at
    NaN as well), so that the two counts add up to [OpenPositions]; and the
    same for the closed positions with their realized PnL and
    [ClosedPositions]. *)
Theorem GetPortfolioStats_counts (p : Portfolio.t) :
  let stats := Portfolio.GetPortfolioStats p in
  PortfolioStats.WinningPositions stats
  = Z.of_nat (size (winningPositions (Portfolio.openPositions p)))
  /\ PortfolioStats.WinningPositions stats + PortfolioStats.LosingPositions stats
     = PortfolioStats.OpenPositions stats
  /\ PortfolioStats.WinningTrades stats
     = Z.of_nat (length (winningTrades (Portfolio.closedPositions p)))
  /\ PortfolioStats.WinningTrades stats + PortfolioStats.LosingTrades stats
     = PortfolioStats.ClosedPositions stats.
Proof.
  unfold Portfolio.GetPortfolioStats.
  pose proof (open_tally (Portfolio.openPositions p)) as Hopen.
  pose proof (closed_tally (Portfolio.closedPositions p) 0 0 0%float) as Hclosed.
  destruct (map_fold _ _ (Portfolio.openPositions p)) as [[w l] t].
  destruct (fold_left _ (Portfolio.closedPositions p) _) as [[w' l'] t'].
  simpl. lia.
Qed.

Lemma acceptedOrders_sublist p cs : acceptedOrders p cs `sublist_of` submitted cs.
Proof.
  revert p. induction cs as [|c cs IH]; intros p; simpl.
  - constructor.
  - destruct c as [ord|prices]; simpl.
    + destruct (snd (Portfolio.ProcessOrder p ord)); simpl.
      * apply sublist_cons. apply IH.
      * apply sublist_skip. apply IH.
    + apply IH.
Qed.

Lemma call_history p c :
  Portfolio.orderHistory (call p c) = Portfolio.orderHistory p ++ acceptedOrders p [c]
  /\ Portfolio.closedPositions p `prefix_of` Portfolio.closedPositions (call p c)
  /\ Portfolio.settings (call p c) = Portfolio.settings p.
Proof.
  destruct c as [ord|prices]; simpl.
  - destruct (Portfolio.ProcessOrder p ord) as [p' [e|]] eqn:Hrun; simpl.
    + apply ProcessOrder_failure in Hrun. subst p'.
      rewrite app_nil_r. repeat split; reflexivity.
    + apply ProcessOrder_accepted in Hrun as [_ Hrun].
      destruct (Order.Type_ ord).
      * destruct (handleEntryOrder_effect p ord p' Hrun) as (Hh & Hs & _).
        destruct (handleEntryOrder_ok p ord p' Hrun) as (Hcl & _).
        rewrite Hh, Hs, Hcl. repeat split; reflexivity.
      * destruct (handleExitOrder_effect p ord p' Hrun) as (Hh & Hs & _).
        destruct (handleExitOrder_ok p ord p' Hrun) as (pos & pos' & _ & _ & Hmove).
        rewrite Hh, Hs. repeat split; try reflexivity.
        destruct (Position.Status pos'); destruct Hmove as [_ ->];
          first [reflexivity | apply prefix_app_r; reflexivity].
  - rewrite app_nil_r. repeat split; reflexivity.
Qed.

(** X12. Over any sequence of [ProcessOrder] and [UpdatePositions] calls the
    order history grows by exactly the orders accepted, in the order of the
    calls: nothing is dropped, reordered or recorded for a refused order. The
    closed list keeps what it held and the settings stay. *)
Theorem calls_history (p : Portfolio.t) (cs : list Call) :
  Portfolio.orderHistory (calls p cs) = Portfolio.orderHistory p ++ acceptedOrders p cs
  /\ acceptedOrders p cs `sublist_of` submitted cs
  /\ Portfolio.closedPositions p `prefix_of` Portfolio.closedPositions (calls p cs)
  /\ Portfolio.settings (calls p cs) = Portfolio.settings p.
Proof.
  split; [|split; [apply acceptedOrders_sublist|]].
  - revert p. induction cs as [|c cs IH]; intros p.
    + simpl. rewrite app_nil_r. reflexivity.
    + change (calls p (c :: cs)) with (calls (call p c) cs).
      rewrite IH. destruct (call_history p c) as (-> & _).
      cbn [acceptedOrders]. rewrite app_nil_r, app_assoc. reflexivity.
  - revert p. induction cs as [|c cs IH]; intros p.
    + split; reflexivity.
    + change (calls p (c :: cs)) with (calls (call p c) cs).
      destruct (IH (call p c)) as [Hcl Hs].
      destruct (call_history p c) as (_ & Hcl' & Hs').
      split; [etrans; eassumption|congruence].
Qed.

(** ** The risk manager *)

Lemma f64_ltb_asym x y : (x <? y)%float = true -> (y <? x)%float = false.
Proof. intros H. apply f64_leb_not_gtb, f64_ltb_leb, H. Qed.

(** X13. [ValidateOrder] accepts every order when neither limit is set above
    zero. It refuses for size exactly when the allocation rate is set and the
    notional of the order exceeds that share of the portfolio value, and for
    leverage exactly when it does not refuse for size, the maximum is set and
    the leverage of the order exceeds it. Type and side of the order play no
    part, so an exit is measured like an entry; the exit orders
    [CheckPositionExits] builds carry no leverage and are never refused for
    leverage. *)
Theorem ValidateOrder_verdict (m : risk.Manager) (p : Portfolio.t) (ord : Order.t) :
  let rate := risk.MaxPositionAllocationRate (risk.settings m) in
  let limit := risk.MaxLeverage (risk.settings m) in
  let oversize := ((rate >? 0) && (notional ord >? Portfolio.Value p * rate))%float in
  let overleveraged := ((Order.Leverage ord >? limit) && (limit >? 0))%float in
  ((rate >? 0)%float = false -> (limit >? 0)%float = false ->
   risk.ValidateOrder m p ord = None)
  /\ (oversize = true <->
      risk.ValidateOrder m p ord
      = Some (ErrPositionSize (notional ord) (Portfolio.Value p * rate)%float))
  /\ (oversize = false /\ overleveraged = true <->
      risk.ValidateOrder m p ord = Some (ErrLeverage (Order.Leverage ord) limit))
  /\ (oversize = false /\ overleveraged = false <-> risk.ValidateOrder m p ord = None)
  /\ (forall pos price leverage limit',
         risk.ValidateOrder m p (fullExit pos price) <> Some (ErrLeverage leverage limit')).
Proof.
  intros rate limit oversize overleveraged.
  assert (Hrun : risk.ValidateOrder m p ord
                 = if oversize
                   then Some (ErrPositionSize (notional ord) (Portfolio.Value p * rate)%float)
                   else if overleveraged
                        then Some (ErrLeverage (Order.Leverage ord) limit)
                        else None) by reflexivity.
  split; [|split; [|split; [|split]]].
  - intros Hrate Hlimit. rewrite Hrun. unfold oversize, overleveraged.
    rewrite Hrate, Hlimit, andb_false_r. reflexivity.
  - rewrite Hrun. clearbody oversize overleveraged.
    destruct oversize; [|destruct overleveraged];
      (split; intros H; first [reflexivity | discriminate H]).
  - rewrite Hrun. clearbody oversize overleveraged.
    destruct oversize; [|destruct overleveraged];
      (split; [intros [H1 H2]; first [reflexivity | discriminate H1 | discriminate H2]
              |intros H; first [discriminate H | split; reflexivity]]).
  - rewrite Hrun. clearbody oversize overleveraged.
    destruct oversize; [|destruct overleveraged];
      (split; [intros [H1 H2]; first [reflexivity | discriminate H1 | discriminate H2]
              |intros H; first [discriminate H | split; reflexivity]]).
  - clear Hrun oversize overleveraged rate limit.
    intros pos price leverage limit'. unfold risk.ValidateOrder. cbn [fullExit Order.Leverage].
    destruct (_ && _); [discriminate|].
    destruct (0 >? risk.MaxLeverage (risk.settings m))%float eqn:Hover; simpl; [|discriminate].
    rewrite (f64_ltb_asym _ _ Hover). discriminate.
Qed.

Lemma ValidateOrder_verdict_witness :
  let m := risk.New (risk.mkSettings 0 0 true (5 / 100) false 0 false 0) in
  let p := Portfolio.New (Portfolio.mkSettings 10000 false 0) in
  let ord := Fill (NewOrder "ord_1" "AAPL" Long Entry 1000 50) 100 in
  risk.ValidateOrder m p ord = None.
Proof.
  intros m p ord.
  exact (proj1 (ValidateOrder_verdict m p ord) eq_refl eq_refl).
Defined.

Lemma checkExitConditions_position m pos price :
  fst (fst (risk.checkExitConditions m pos price))
  = Position.with_TrailingStopHigh (anchorAfter m pos price) pos.
Proof.
  destruct pos, m as [[ml ma usl dsl utp dtp uts dts]].
  destruct usl, utp, uts;
    unfold risk.checkExitConditions, risk.checkLongExitConditions,
      risk.checkShortExitConditions, anchorAfter, stopLossHit, takeProfitHit,
      trailingStopHit, ratchet;
    cbn; destruct Side; cbn;
    repeat match goal with
           | |- context [PrimFloat.ltb ?a ?b] => destruct (PrimFloat.ltb a b) eqn:?; cbn
           | |- context [PrimFloat.leb ?a ?b] => destruct (PrimFloat.leb a b) eqn:?; cbn
           end; try reflexivity; congruence.
Qed.

Lemma scanPosition_position m prices pos :
  fst (risk.scanPosition m prices pos) = scanned m prices pos.
Proof.
  unfold risk.scanPosition, scanned.
  destruct (prices !! Position.Instrument pos) as [price|]; [|reflexivity].
  rewrite <- checkExitConditions_position.
  destruct (risk.checkExitConditions m pos price) as [[pos' [|]] reason]; reflexivity.
Qed.

Lemma scanPosition_off m prices pos :
  risk.UseStopLoss (risk.settings m) = false ->
  risk.UseTakeProfit (risk.settings m) = false ->
  risk.UseTrailingStop (risk.settings m) = false ->
  risk.scanPosition m prices pos = (pos, None).
Proof.
  intros Hsl Htp Hts. unfold risk.scanPosition, risk.checkExitConditions.
  rewrite Hsl, Htp, Hts. simpl.
  destruct (prices !! Position.Instrument pos); reflexivity.
Qed.

Lemma omap_all_None {A B} (f : A -> option B) (l : list A) :
  (forall x, f x = None) -> omap f l = [].
Proof.
  intros Hf. induction l as [|x l IH]; [reflexivity|].
  simpl. rewrite Hf. exact IH.
Qed.

Lemma CheckPositionExits_nothing m p prices :
  (forall pos, risk.scanPosition m prices pos = (pos, None)) ->
  risk.CheckPositionExits m p prices = (p, []).
Proof.
  intros Hscan. unfold risk.CheckPositionExits, Portfolio.Positions. f_equal.
  - destruct p as [c o cl h s]. unfold Portfolio.with_openPositions. simpl. f_equal.
    apply map_eq. intros instrument. rewrite lookup_fmap.
    destruct (o !! instrument) as [pos|]; simpl; [|reflexivity].
    rewrite Hscan. reflexivity.
  - apply omap_all_None. intros [k pos]. simpl. rewrite Hscan. reflexivity.
Qed.

(** With every switch off a scan is a no-op. *)
Lemma CheckPositionExits_off m p prices :
  risk.UseStopLoss (risk.settings m) = false ->
  risk.UseTakeProfit (risk.settings m) = false ->
  risk.UseTrailingStop (risk.settings m) = false ->
  risk.CheckPositionExits m p prices = (p, []).
Proof.
  intros Hsl Htp Hts. apply CheckPositionExits_nothing.
  intros pos. apply scanPosition_off; assumption.
Qed.

(** X14. [CheckPositionExits] leaves cash, closed list, order history and
    settings alone and keeps every open position under its key, changed at
    most in the anchor of its trailing stop. The price is looked up under the
    instrument the position names. Every order it returns is the full exit of
    an open position that has a price, so there are at most as many orders as
    open positions; with the three switches off, or with no price at all, the
    call returns no order and the portfolio as it was. *)
Theorem CheckPositionExits_frame (m : risk.Manager) (p : Portfolio.t)
    (prices : gmap string float) :
  let p' := fst (risk.CheckPositionExits m p prices) in
  let orders := snd (risk.CheckPositionExits m p prices) in
  Portfolio.cash p' = Portfolio.cash p
  /\ Portfolio.closedPositions p' = Portfolio.closedPositions p
  /\ Portfolio.orderHistory p' = Portfolio.orderHistory p
  /\ Portfolio.settings p' = Portfolio.settings p
  /\ (forall instrument,
         Portfolio.openPositions p' !! instrument
         = scanned m prices <$> Portfolio.openPositions p !! instrument)
  /\ (length orders <= size (Portfolio.openPositions p))%nat
  /\ (forall ord, ord ∈ orders ->
                  exists instrument pos price,
                    Portfolio.openPositions p !! instrument = Some pos
                    /\ prices !! Position.Instrument pos = Some price
                    /\ firstTrigger m pos price <> None
                    /\ ord = fullExit pos price)
  /\ (risk.UseStopLoss (risk.settings m) = false ->
      risk.UseTakeProfit (risk.settings m) = false ->
      risk.UseTrailingStop (risk.settings m) = false ->
      risk.CheckPositionExits m p prices = (p, []))
  /\ risk.CheckPositionExits m p ∅ = (p, []).
Proof.
  intros p' orders. subst p' orders.
  repeat split; try reflexivity.
  - intros instrument. unfold risk.CheckPositionExits, Portfolio.Positions. simpl.
    rewrite lookup_fmap.
    destruct (Portfolio.openPositions p !! instrument) as [pos|]; simpl; [|reflexivity].
    rewrite scanPosition_position. reflexivity.
  - unfold risk.CheckPositionExits, Portfolio.Positions. simpl.
    etrans; [apply omap_length_le|]. rewrite length_map_to_list. reflexivity.
  - unfold risk.CheckPositionExits, Portfolio.Positions. simpl.
    intros ord Hin. apply list_elem_of_omap in Hin as ([k pos] & Hkv & Hord).
    apply elem_of_map_to_list in Hkv. simpl in Hord.
    rewrite scanPosition_order in Hord.
    destruct (prices !! Position.Instrument pos) as [price|] eqn:Hprice; [|discriminate].
    destruct (firstTrigger m pos price) eqn:Htrig; [|discriminate].
    exists k, pos, price. inversion Hord. repeat split; try assumption. congruence.
  - apply CheckPositionExits_off.
  - apply CheckPositionExits_nothing. intros pos. unfold risk.scanPosition.
    rewrite lookup_empty. reflexivity.
Qed.

Lemma CheckPositionExits_frame_witness :
  let m := risk.New (risk.mkSettings 0 0 true (5 / 100) false 0 false 0) in
  let off := risk.New (risk.mkSettings 0 0 false (5 / 100) false 0 false 0) in
  let entry := Fill (NewOrder "ord_1" "AAPL" Long Entry 10 1) 100 in
  let pos := Position.mk "AAPL" Long 10 100 0 Open [Order.zero; entry] 1 0 0 0 0 0 0 0 100 in
  let p := Portfolio.mk 9000 {["AAPL" := pos]} [] [entry] (Portfolio.mkSettings 10000 false 0) in
  let prices : gmap string float := {["AAPL" := 94%float]} in
  fullExit pos 94 ∈ snd (risk.CheckPositionExits m p prices)
  /\ (exists instrument pos' price,
         Portfolio.openPositions p !! instrument = Some pos'
         /\ prices !! Position.Instrument pos' = Some price
         /\ firstTrigger m pos' price <> None
         /\ fullExit pos 94 = fullExit pos' price)
  /\ risk.CheckPositionExits off p prices = (p, []).
Proof.
  intros m off entry pos p prices.
  assert (Hin : fullExit pos 94 ∈ snd (risk.CheckPositionExits m p prices))
    by (vm_compute; left).
  split; [exact Hin|]. split.
  - destruct (CheckPositionExits_frame m p prices) as (_ & _ & _ & _ & _ & _ & Horders & _).
    exact (Horders _ Hin).
  - destruct (CheckPositionExits_frame off p prices) as (_ & _ & _ & _ & _ & _ & _ & Hoff & _).
    exact (Hoff eq_refl eq_refl eq_refl).
Defined.

(** An exit order for all the units of an open position is carried out. *)
Lemma ProcessOrder_full_exit (p : Portfolio.t) (pos : Position.t) (ord : Order.t) :
  Portfolio.openPositions p !! Order.Instrument ord = Some pos ->
  Position.Instrument pos = Order.Instrument ord ->
  Order.Type_ ord = Exit ->
  0 < Position.Quantity pos ->
  Order.Quantity ord = Position.Quantity pos ->
  exists pos',
    Position.AddOrder pos ord = (pos', None)
    /\ Position.Status pos' = Closed
    /\ Position.ClosePrice pos' = Order.Price ord
    /\ Position.Quantity pos' = 0
    /\ Portfolio.ProcessOrder p ord
       = (Portfolio.mk (Portfolio.cash p + notional ord)%float
            (delete (Order.Instrument ord) (Portfolio.openPositions p))
            (Portfolio.closedPositions p ++ [pos'])
            (Portfolio.orderHistory p ++ [ord]) (Portfolio.settings p), None).
Proof.
  intros Hopen Hinstr Htype Hpos Hqty.
  destruct (AddOrder_full_exit pos ord Hinstr Htype Hpos Hqty) as (pos' & Hadd & Hst & Hcl & Hq).
  exists pos'. repeat split; try assumption.
  unfold Portfolio.ProcessOrder, Portfolio.validateOrder, Portfolio.handleExitOrder.
  rewrite Htype, Hopen, Hadd, Z.gtb_ltb.
  destruct (Z.ltb_spec (Position.Quantity pos) (Order.Quantity ord)) as [|_]; [lia|].
  cbv zeta. rewrite Hst. destruct p as [c o cl h s]; cbn. rewrite delete_insert_eq.
  reflexivity.
Qed.

Lemma scanned_fields m prices pos :
  Position.Instrument (scanned m prices pos) = Position.Instrument pos
  /\ Position.Quantity (scanned m prices pos) = Position.Quantity pos
  /\ Position.Side (scanned m prices pos) = Position.Side pos
  /\ Position.OpenPrice (scanned m prices pos) = Position.OpenPrice pos.
Proof.
  unfold scanned. destruct (prices !! Position.Instrument pos); repeat split.
Qed.

Lemma CheckPositionExits_lookup m p prices instrument :
  Portfolio.openPositions (fst (risk.CheckPositionExits m p prices)) !! instrument
  = scanned m prices <$> Portfolio.openPositions p !! instrument.
Proof.
  unfold risk.CheckPositionExits, Portfolio.Positions. simpl. rewrite lookup_fmap.
  destruct (Portfolio.openPositions p !! instrument) as [pos|]; simpl; [|reflexivity].
  rewrite scanPosition_position. reflexivity.
Qed.

(** X15. The exit order a triggered condition makes [CheckPositionExits]
    return is one the portfolio carries out: processed on the portfolio the
    scan has left, it credits quantity times price, takes the position out of
    the open map and appends it, closed at that price, to the closed list.
    The next scan has no order for the instrument. *)
Theorem forced_exit_closes (m : risk.Manager) (p : Portfolio.t)
    (prices : gmap string float) (instrument : string) (pos : Position.t) (price : float) :
  keyedByInstrument (Portfolio.openPositions p) ->
  Portfolio.openPositions p !! instrument = Some pos ->
  prices !! instrument = Some price ->
  0 < Position.Quantity pos ->
  firstTrigger m pos price <> None ->
  let p1 := fst (risk.CheckPositionExits m p prices) in
  let ord := fullExit pos price in
  ord ∈ snd (risk.CheckPositionExits m p prices)
  /\ exists p2 closed,
      Portfolio.ProcessOrder p1 ord = (p2, None)
      /\ Portfolio.openPositions p2 = delete instrument (Portfolio.openPositions p1)
      /\ Portfolio.closedPositions p2 = Portfolio.closedPositions p ++ [closed]
      /\ Position.Status closed = Closed
      /\ Position.ClosePrice closed = price
      /\ Position.Quantity closed = 0
      /\ Portfolio.cash p2
         = (Portfolio.cash p + Int.to_float64 (Position.Quantity pos) * price)%float
      /\ ordersFor instrument (snd (risk.CheckPositionExits m p2 prices)) = [].
Proof.
  intros Hkeyed Hopen Hprice Hqty Htrig p1 ord.
  assert (Hinstr : Position.Instrument pos = instrument) by (eapply Hkeyed; eassumption).
  split.
  - pose proof (CheckPositionExits_ordersFor m p prices instrument Hkeyed) as Hfor.
    rewrite Hopen in Hfor. unfold contribution in Hfor. rewrite Hinstr, Hprice in Hfor.
    destruct (firstTrigger m pos price); [|congruence].
    assert (Hin : ord ∈ ordersFor instrument (snd (risk.CheckPositionExits m p prices)))
      by (rewrite Hfor; left).
    unfold ordersFor in Hin. apply list_elem_of_filter in Hin as [_ Hin]. exact Hin.
  - assert (Hopen1 : Portfolio.openPositions p1 !! Order.Instrument ord
                     = Some (scanned m prices pos)).
    { subst p1 ord. unfold fullExit. cbn [Order.Instrument].
      rewrite CheckPositionExits_lookup, Hinstr, Hopen. reflexivity. }
    destruct (scanned_fields m prices pos) as (Hi & Hq & _).
    destruct (ProcessOrder_full_exit p1 (scanned m prices pos) ord Hopen1)
      as (closed & _ & Hst & Hcl & Hzero & Hrun);
      [rewrite Hi; reflexivity | reflexivity | lia | rewrite Hq; reflexivity |].
    eexists. exists closed. split; [exact Hrun|].
    cbn [Portfolio.openPositions Portfolio.closedPositions Portfolio.cash].
    assert (Hord : Order.Instrument ord = instrument) by exact Hinstr.
    rewrite Hord.
    split; [reflexivity|]. split; [reflexivity|].
    split; [exact Hst|]. split; [exact Hcl|]. split; [exact Hzero|].
    split; [reflexivity|].
    match goal with
    | |- ordersFor _ (snd (risk.CheckPositionExits _ ?q _)) = _ => set (p2 := q)
    end.
    assert (Hkeyed2 : keyedByInstrument (Portfolio.openPositions p2)).
    { intros k pos2 Hk. unfold p2 in Hk. cbn [Portfolio.openPositions] in Hk.
      apply lookup_delete_Some in Hk as [_ Hk].
      unfold p1 in Hk. rewrite CheckPositionExits_lookup in Hk.
      destruct (Portfolio.openPositions p !! k) as [pos0|] eqn:Hk0; [|discriminate].
      cbn [fmap option_fmap option_map] in Hk. inversion Hk.
      destruct (scanned_fields m prices pos0) as (-> & _). eapply Hkeyed; eassumption. }
    rewrite (CheckPositionExits_ordersFor m p2 prices instrument Hkeyed2).
    unfold p2. cbn [Portfolio.openPositions]. rewrite lookup_delete_eq. reflexivity.
Qed.

Lemma forced_exit_closes_witness :
  let m := risk.New (risk.mkSettings 0 0 true (5 / 100) false 0 false 0) in
  let entry := Fill (NewOrder "ord_1" "AAPL" Long Entry 10 1) 100 in
  let pos := Position.mk "AAPL" Long 10 100 0 Open [Order.zero; entry] 1 0 0 0 0 0 0 0 100 in
  let p := Portfolio.mk 9000 {["AAPL" := pos]} [] [entry] (Portfolio.mkSettings 10000 false 0) in
  let prices : gmap string float := {["AAPL" := 94%float]} in
  (keyedByInstrument (Portfolio.openPositions p)
   /\ Portfolio.openPositions p !! "AAPL" = Some pos
   /\ prices !! "AAPL" = Some 94%float
   /\ 0 < Position.Quantity pos
   /\ firstTrigger m pos 94 <> None)
  /\ fullExit pos 94 ∈ snd (risk.CheckPositionExits m p prices).
Proof.
  intros m entry pos p prices.
  assert (Hkeyed : keyedByInstrument (Portfolio.openPositions p)).
  { intros k pos' Hk. simpl in Hk. apply lookup_singleton_Some in Hk as [<- <-]. reflexivity. }
  assert (Hqty : 0 < Position.Quantity pos) by (vm_compute; reflexivity).
  assert (Htrig : firstTrigger m pos 94 <> None) by (vm_compute; discriminate).
  split; [repeat split; assumption|].
  exact (proj1 (forced_exit_closes m p prices "AAPL" pos 94 Hkeyed eq_refl eq_refl Hqty Htrig)).
Defined.

(** X16. The stop-loss and take-profit prices [GetPositionRisk] reports are
    the thresholds [checkExitConditions] enforces: the reason is "stop_loss"
    exactly when the stop-loss is on and the price has reached the reported
    stop-loss price against the position, and "take_profit" exactly when that
    is not so, the take-profit is on and the price has reached the reported
    take-profit price in favour of the position. The reported trailing-stop
    price is the enforced one only while the price does not move the anchor. *)
Theorem GetPositionRisk_thresholds (m : risk.Manager) (pos : Position.t) (price : float) :
  let r := risk.GetPositionRisk m pos price in
  let stopped := risk.UseStopLoss (risk.settings m)
                 && adverse (Position.Side pos) price (risk.StopLossPrice r) in
  let taken := risk.UseTakeProfit (risk.settings m)
               && favourable (Position.Side pos) price (risk.TakeProfitPrice r) in
  (snd (risk.checkExitConditions m pos price) = "stop_loss" <-> stopped = true)
  /\ (snd (risk.checkExitConditions m pos price) = "take_profit"
      <-> stopped = false /\ taken = true)
  /\ (ratchet pos price = Position.TrailingStopHigh pos ->
      (snd (risk.checkExitConditions m pos price) = "trailing_stop"
       <-> stopped = false /\ taken = false
           /\ risk.UseTrailingStop (risk.settings m)
              && adverse (Position.Side pos) price (risk.TrailingStopPrice r) = true)).
Proof.
  intros r stopped taken.
  destruct (checkExitConditions_verdict m pos price) as (_ & -> & _).
  assert (Hs : stopped = stopLossHit m pos price).
  { unfold stopped, stopLossHit, adverse. simpl. unfold risk.calculateStopLossPrice.
    destruct (Position.Side pos); reflexivity. }
  assert (Ht : taken = takeProfitHit m pos price).
  { unfold taken, takeProfitHit, favourable. simpl. unfold risk.calculateTakeProfitPrice.
    destruct (Position.Side pos); reflexivity. }
  rewrite Hs, Ht. clear Hs Ht stopped taken. unfold firstTrigger.
  split; [|split].
  - destruct (stopLossHit m pos price), (takeProfitHit m pos price),
      (trailingStopHit m pos price); simpl; split; intros H; first [reflexivity|discriminate H].
  - destruct (stopLossHit m pos price), (takeProfitHit m pos price),
      (trailingStopHit m pos price); simpl;
      (split; [intros H; first [discriminate H | split; reflexivity]
              |intros [H1 H2]; first [reflexivity | discriminate H1 | discriminate H2]]).
  - intros Hanchor.
    assert (Hts : risk.UseTrailingStop (risk.settings m)
                  && adverse (Position.Side pos) price (risk.TrailingStopPrice r)
                  = trailingStopHit m pos price).
    { unfold trailingStopHit, adverse. rewrite Hanchor. simpl.
      unfold risk.calculateTrailingStopPrice. destruct (Position.Side pos); reflexivity. }
    rewrite Hts.
    destruct (stopLossHit m pos price), (takeProfitHit m pos price),
      (trailingStopHit m pos price); simpl;
      (split; [intros H; first [discriminate H | repeat split; reflexivity]
              |intros (H1 & H2 & H3);
               first [reflexivity | discriminate H1 | discriminate H2 | discriminate H3]]).
Qed.

Lemma GetPositionRisk_thresholds_witness :
  let m := risk.New (risk.mkSettings 0 0 true 0.5 true 0.5 true 0.25) in
  let pos := Position.mk "AAPL" Long 10 100 0 Open [] 1 0 0 0 0 0 0 0 100 in
  ratchet pos 75 = Position.TrailingStopHigh pos
  /\ risk.TrailingStopPrice (risk.GetPositionRisk m pos 75) = 75%float
  /\ snd (risk.checkExitConditions m pos 75) = "trailing_stop".
Proof.
  intros m pos.
  assert (Hanchor : ratchet pos 75 = Position.TrailingStopHigh pos) by reflexivity.
  split; [exact Hanchor|]. split; [reflexivity|].
  apply (proj2 (proj2 (GetPositionRisk_thresholds m pos 75)) Hanchor).
  repeat split.
Defined.

(** ** The runner: failing orders, failing runs and quiet runs *)

Section RunnerSteps.
Context {S : Type} `{Strategy S}.
Implicit Types (r : Runner.t S).

Lemma with_Portfolio_same r pf :
  Runner.Portfolio_ r = Some pf -> Runner.with_Portfolio (Some pf) r = r.
Proof. destruct r; simpl; intros ->; reflexivity. Qed.

(** What a failing [processOrder] reports, the runner staying as it was. *)
Lemma processOrder_failure r ord r' e :
  Runner.processOrder r ord = (r', Some e) ->
  r' = r
  /\ match e with
     | ErrRiskValidation cause =>
         exists pf rm, Runner.Portfolio_ r = Some pf /\ Runner.RiskManager r = Some rm
                       /\ risk.ValidateOrder rm pf ord = Some cause
     | ErrOrderProcessing cause =>
         exists pf rm, Runner.Portfolio_ r = Some pf /\ Runner.RiskManager r = Some rm
                       /\ risk.ValidateOrder rm pf ord = None
                       /\ Portfolio.ProcessOrder pf ord = (pf, Some cause)
     | ErrStrategyNotSet => Runner.Strategy_ r = None
     | ErrPortfolioNotSet => Runner.Portfolio_ r = None
     | ErrRiskManagerNotSet => Runner.RiskManager r = None
     | _ => False
     end.
Proof.
  unfold Runner.processOrder.
  destruct (Runner.Strategy_ r) as [st|] eqn:Hst, (Runner.Portfolio_ r) as [pf|] eqn:Hpf,
    (Runner.RiskManager r) as [rm|] eqn:Hrm;
    try (intros Heq; inversion Heq; subst; split; reflexivity).
  destruct (risk.ValidateOrder rm pf ord) as [cause|] eqn:Hrisk.
  - intros Heq; inversion Heq; subst. split; [reflexivity|]. eauto.
  - destruct (Portfolio.ProcessOrder pf ord) as [pf' [cause|]] eqn:Hrun; [|discriminate].
    intros Heq; inversion Heq; subst.
    apply ProcessOrder_failure in Hrun as Hsame. subst pf'.
    split; [apply with_Portfolio_same; assumption|]. eauto 6.
Qed.

Lemma processOrders_cons r ord orders :
  Runner.processOrders r (ord :: orders)
  = match Runner.processOrder r ord with
    | (r1, None) => Runner.processOrders r1 orders
    | failed => failed
    end.
Proof.
  simpl. destruct (Runner.processOrder r ord) as [r1 [e|]]; reflexivity.
Qed.

Lemma processOrders_app r front back :
  Runner.processOrders r (front ++ back)
  = match Runner.processOrders r front with
    | (r1, None) => Runner.processOrders r1 back
    | failed => failed
    end.
Proof.
  revert r. induction front as [|ord front IH]; intros r; [reflexivity|].
  rewrite <- app_comm_cons, !processOrders_cons.
  destruct (Runner.processOrder r ord) as [r1 [e|]]; [reflexivity|apply IH].
Qed.

Lemma processOrders_failure r orders r' e :
  Runner.processOrders r orders = (r', Some e) ->
  exists done ord rest,
    orders = done ++ ord :: rest
    /\ Runner.processOrders r done = (r', None)
    /\ Runner.processOrder r' ord = (r', Some e).
Proof.
  revert r. induction orders as [|ord orders IH]; intros r; [discriminate|].
  rewrite processOrders_cons.
  destruct (Runner.processOrder r ord) as [r1 [e1|]] eqn:Hone.
  - intros Heq; inversion Heq; subst.
    destruct (processOrder_failure r ord r' e Hone) as [-> _].
    exists [], ord, orders. repeat split. assumption.
  - intros Hrest. destruct (IH r1 Hrest) as (done & bad & rest & -> & Hdone & Hbad).
    exists (ord :: done), bad, rest. repeat split; [|assumption].
    rewrite processOrders_cons, Hone. assumption.
Qed.
End RunnerSteps.

(** X17. [processOrder] is all or nothing: when it reports an error the
    runner, its portfolio and its strategy are what they were. A risk error
    is the verdict of [ValidateOrder] on the portfolio as it stood, and a
    processing error that of [ProcessOrder] on an order the risk manager has
    let through; the strategy hears of an order only when it is filled. *)
Theorem processOrder_all_or_nothing {S : Type} `{Strategy S} (r r' : Runner.t S)
    (ord : Order.t) (e : error) :
  Runner.processOrder r ord = (r', Some e) ->
  r' = r
  /\ (forall cause, e = ErrRiskValidation cause ->
        exists pf rm, Runner.Portfolio_ r = Some pf /\ Runner.RiskManager r = Some rm
                      /\ risk.ValidateOrder rm pf ord = Some cause)
  /\ (forall cause, e = ErrOrderProcessing cause ->
        exists pf rm, Runner.Portfolio_ r = Some pf /\ Runner.RiskManager r = Some rm
                      /\ risk.ValidateOrder rm pf ord = None
                      /\ Portfolio.ProcessOrder pf ord = (pf, Some cause))
  /\ ((exists cause, e = ErrRiskValidation cause)
      \/ (exists cause, e = ErrOrderProcessing cause)
      \/ Runner.Strategy_ r = None \/ Runner.Portfolio_ r = None
      \/ Runner.RiskManager r = None).
Proof.
  intros Hrun. destruct (processOrder_failure r ord r' e Hrun) as [Hsame He].
  split; [exact Hsame|]. split; [|split].
  - intros cause ->. exact He.
  - intros cause ->. exact He.
  - destruct e; try contradiction; eauto 6.
Qed.

Lemma processOrder_all_or_nothing_witness :
  let p := Portfolio.New (Portfolio.mkSettings 600 false 0) in
  let m := risk.New (risk.mkSettings 2 0 false 0 false 0 false 0) in
  let r := Runner.New tt (Some p) (Some m) (Some []) in
  let big := Fill (NewOrder "ord_1" "AAPL" Long Entry 10 1) 100 in
  let geared := Fill (NewOrder "ord_2" "AAPL" Long Entry 1 3) 100 in
  Runner.processOrder r big
  = (r, Some (ErrOrderProcessing (ErrInsufficientCash 600 1000)))
  /\ Runner.processOrder r geared = (r, Some (ErrRiskValidation (ErrLeverage 3 2)))
  /\ (fst (Runner.processOrder r big) = r /\ fst (Runner.processOrder r geared) = r).
Proof.
  intros p m r big geared.
  assert (Hbig : Runner.processOrder r big
                 = (r, Some (ErrOrderProcessing (ErrInsufficientCash 600 1000))))
    by (vm_compute; reflexivity).
  assert (Hgeared : Runner.processOrder r geared
                    = (r, Some (ErrRiskValidation (ErrLeverage 3 2))))
    by (vm_compute; reflexivity).
  split; [exact Hbig|]. split; [exact Hgeared|].
  split.
  - rewrite Hbig. exact (proj1 (processOrder_all_or_nothing r r big _ Hbig)).
  - rewrite Hgeared. exact (proj1 (processOrder_all_or_nothing r r geared _ Hgeared)).
Defined.

(** X18. [processOrders] works through a batch from the front and stops at
    the first order that fails: a batch in two parts is the first part, then
    the second on the runner the first has left, unless the first fails; and
    a failing batch leaves the runner as the orders before the failing one
    have left it, that order and the ones behind it not applied. *)
Theorem processOrders_fail_fast {S : Type} `{Strategy S} (r : Runner.t S)
    (front back : list Order.t) :
  Runner.processOrders r (front ++ back)
  = match Runner.processOrders r front with
    | (r1, None) => Runner.processOrders r1 back
    | failed => failed
    end
  /\ (forall r' e,
         Runner.processOrders r front = (r', Some e) ->
         Runner.processOrders r (front ++ back) = (r', Some e)
         /\ exists done ord rest,
             front = done ++ ord :: rest
             /\ Runner.processOrders r done = (r', None)
             /\ Runner.processOrder r' ord = (r', Some e)).
Proof.
  split; [apply processOrders_app|].
  intros r' e Hfail. split.
  - rewrite processOrders_app, Hfail. reflexivity.
  - apply processOrders_failure. exact Hfail.
Qed.

Lemma processOrders_fail_fast_witness :
  let p := Portfolio.New (Portfolio.mkSettings 1500 false 0) in
  let m := risk.New (risk.mkSettings 0 0 false 0 false 0 false 0) in
  let r := Runner.New tt (Some p) (Some m) (Some []) in
  let first := Fill (NewOrder "ord_1" "AAPL" Long Entry 10 1) 100 in
  let second := Fill (NewOrder "ord_2" "MSFT" Long Entry 10 1) 100 in
  let third := Fill (NewOrder "ord_3" "GOOG" Long Entry 1 1) 100 in
  let r' := fst (Runner.processOrders r [first; second]) in
  Runner.processOrders r [first; second]
  = (r', Some (ErrOrderProcessing (ErrInsufficientCash 500 1000)))
  /\ Runner.processOrders r ([first; second] ++ [third])
     = (r', Some (ErrOrderProcessing (ErrInsufficientCash 500 1000)))
  /\ Runner.processOrders r [first] = (r', None).
Proof.
  intros p m r first second third r'.
  assert (Hfail : Runner.processOrders r [first; second]
                  = (r', Some (ErrOrderProcessing (ErrInsufficientCash 500 1000))))
    by (vm_compute; reflexivity).
  split; [exact Hfail|]. split.
  - exact (proj1 (proj2 (processOrders_fail_fast r [first; second] [third]) r' _ Hfail)).
  - vm_compute. reflexivity.
Defined.

Section RunnerRuns.
Context {S : Type} `{Strategy S}.
Implicit Types (r : Runner.t S).

Lemma processTick_curve r data :
  Runner.EquityCurve (fst (Runner.processTick r data)) = Runner.EquityCurve r.
Proof.
  unfold Runner.processTick.
  destruct (Runner.Strategy_ r) as [st|] eqn:Hst; [|reflexivity].
  destruct (Runner.Portfolio_ r) as [pf|] eqn:Hpf; [|reflexivity].
  destruct (Runner.RiskManager r) as [rm|] eqn:Hrm; [|reflexivity].
  destruct (risk.CheckPositionExits rm _ _) as [pf1 exitOrders].
  match goal with
  | |- context [Runner.processOrders ?r0 exitOrders] =>
      pose proof (processOrders_frame r0 exitOrders) as Hexits;
      destruct (Runner.processOrders r0 exitOrders) as [r2 [err|]]
  end; destruct Hexits as (Hc & _); simpl in Hc; [exact Hc|].
  destruct (Runner.Strategy_ r2) as [st2|]; [|destruct (Runner.Portfolio_ r2); exact Hc].
  destruct (Runner.Portfolio_ r2) as [pf2|]; [|exact Hc].
  destruct (OnTick st2 pf2 data) as [st3 orders].
  match goal with
  | |- context [Runner.processOrders ?r0 orders] =>
      destruct (processOrders_frame r0 orders) as (Hc' & _)
  end.
  rewrite Hc'. exact Hc.
Qed.

Lemma runRows_failure r rows r' e :
  Runner.runRows r rows = (r', Some e) ->
  exists done row rest posts rq,
    rows = done ++ row :: rest
    /\ ticks r done posts rq
    /\ length posts = length done
    /\ Runner.EquityCurve r' = Runner.EquityCurve r ++ snapshots done posts
    /\ match TimeseriesRow.Get row with
       | None => r' = rq /\ e = ErrData (TimeseriesRow.Timestamp row)
       | Some data =>
           exists cause,
             Runner.processTick
               (Runner.with_CurrentTime (TimeseriesRow.Timestamp row) rq) data
             = (r', Some cause)
             /\ e = ErrProcessing (TimeseriesRow.Timestamp row) cause
       end.
Proof.
  revert r. induction rows as [|row rows IH]; intros r; simpl; [discriminate|].
  destruct (TimeseriesRow.Get row) as [data|] eqn:Hget.
  - destruct (Runner.processTick _ data) as [r1 [err|]] eqn:Htick.
    + intros Heq; inversion Heq; subst.
      exists [], row, rows, [], r. rewrite Hget. repeat split.
      * constructor.
      * pose proof (processTick_curve
                      (Runner.with_CurrentTime (TimeseriesRow.Timestamp row) r) data) as Hc.
        rewrite Htick in Hc. simpl in Hc. rewrite Hc.
        unfold snapshots. simpl. rewrite app_nil_r. reflexivity.
      * exists err. split; [assumption|reflexivity].
    + destruct (processTick_frame _ _ _ Htick) as (Hc & Ht & [pf Hpf]).
      intros Hrun.
      destruct (IH _ Hrun) as (done & bad & rest & posts & rq & -> & Hticks & Hlen & Hcurve & Hbad).
      exists (row :: done), bad, rest, (pf :: posts), rq. repeat split.
      * econstructor; eassumption.
      * simpl. congruence.
      * rewrite Hcurve. unfold Runner.updateEquityCurve. rewrite Hpf. simpl.
        rewrite Hc, Ht. simpl. rewrite <- app_assoc. reflexivity.
      * exact Hbad.
  - intros Heq; inversion Heq; subst.
    exists [], row, rows, [], r'. rewrite Hget. repeat split.
    + constructor.
    + unfold snapshots. simpl. rewrite app_nil_r. reflexivity.
Qed.

(** A tick on which no exit rule is on and the strategy places no order
    marks the positions and does nothing else. *)
Lemma processTick_quiet r st pf rm data :
  Runner.Strategy_ r = Some st ->
  Runner.Portfolio_ r = Some pf ->
  Runner.RiskManager r = Some rm ->
  risk.UseStopLoss (risk.settings rm) = false ->
  risk.UseTakeProfit (risk.settings rm) = false ->
  risk.UseTrailingStop (risk.settings rm) = false ->
  (forall st pf data, snd (OnTick st pf data) = []) ->
  let pf' := Portfolio.UpdatePositions pf (Runner.getCurrentPrices data) in
  Runner.processTick r data
  = (Runner.with_Strategy (Some (fst (OnTick st pf' data)))
       (Runner.with_Portfolio (Some pf') r), None).
Proof.
  intros Hst Hpf Hrm Hsl Htp Hts Hquiet pf'.
  unfold Runner.processTick. rewrite Hst, Hpf, Hrm.
  fold pf'. rewrite (CheckPositionExits_off rm pf' _ Hsl Htp Hts).
  cbn [Runner.processOrders Runner.with_Portfolio Runner.Strategy_ Runner.Portfolio_].
  rewrite Hst. specialize (Hquiet st pf' data).
  destruct (OnTick st pf' data) as [st' orders]. simpl in Hquiet. subst orders.
  reflexivity.
Qed.

Lemma runRows_quiet rows : forall r st pf rm,
  Runner.Strategy_ r = Some st ->
  Runner.Portfolio_ r = Some pf ->
  Runner.RiskManager r = Some rm ->
  risk.UseStopLoss (risk.settings rm) = false ->
  risk.UseTakeProfit (risk.settings rm) = false ->
  risk.UseTrailingStop (risk.settings rm) = false ->
  (forall st pf data, snd (OnTick st pf data) = []) ->
  Forall (fun row => is_Some (TimeseriesRow.Get row)) rows ->
  exists r',
    Runner.runRows r rows = (r', None)
    /\ Runner.Portfolio_ r' = Some (marked pf rows)
    /\ Runner.EquityCurve r' = Runner.EquityCurve r ++ quietCurve pf rows.
Proof.
  induction rows as [|row rows IH]; intros r st pf rm Hst Hpf Hrm Hsl Htp Hts Hquiet Hrows.
  - exists r. simpl. rewrite app_nil_r. repeat split. assumption.
  - apply Forall_cons in Hrows as [[data Hget] Hrows].
    cbn [Runner.runRows]. rewrite Hget.
    rewrite (processTick_quiet _ st pf rm data) by assumption.
    set (pf' := Portfolio.UpdatePositions pf (Runner.getCurrentPrices data)).
    set (st' := fst (OnTick st pf' data)).
    match goal with
    | |- context [Runner.runRows ?r1 rows] =>
        destruct (IH r1 st' pf' rm) as (r' & Hrun & Hport & Hcurve);
          try assumption; try reflexivity
    end.
    exists r'. split; [exact Hrun|].
    assert (Hcloses : Portfolio.UpdatePositions pf (closes row) = pf')
      by (unfold closes; rewrite Hget; reflexivity).
    split.
    + cbn [marked fold_left]. rewrite Hcloses. exact Hport.
    + rewrite Hcurve. cbn [quietCurve]. rewrite Hcloses.
      unfold Runner.updateEquityCurve. simpl. rewrite <- app_assoc. reflexivity.
Qed.

Lemma quietCurve_facts rows : forall pf,
  length (quietCurve pf rows) = length rows
  /\ AccountValue.Time <$> quietCurve pf rows = TimeseriesRow.Timestamp <$> rows
  /\ Forall (fun a => AccountValue.Cash a = Portfolio.cash pf
                      /\ AccountValue.OpenPositions a
                         = Z.of_nat (size (Portfolio.openPositions pf)))
            (quietCurve pf rows).
Proof.
  induction rows as [|row rows IH]; intros pf; [repeat split; constructor|].
  cbn [quietCurve].
  destruct (IH (Portfolio.UpdatePositions pf (closes row))) as (Hlen & Htimes & Hall).
  assert (Hsize : size (Portfolio.openPositions (Portfolio.UpdatePositions pf (closes row)))
                  = size (Portfolio.openPositions pf)).
  { unfold Portfolio.UpdatePositions. simpl.
    rewrite <- !length_map_to_list.
    rewrite <- (length_fmap fst (map_to_list (map_imap _ _))).
    rewrite <- (length_fmap fst (map_to_list (Portfolio.openPositions pf))).
    apply Permutation_length, NoDup_Permutation.
    - apply NoDup_fst_map_to_list.
    - apply NoDup_fst_map_to_list.
    - intros k. rewrite !list_elem_of_fmap. split.
      + intros ([k' x] & -> & Hin). apply elem_of_map_to_list in Hin. simpl.
        rewrite map_lookup_imap in Hin.
        destruct (Portfolio.openPositions pf !! k') as [y|] eqn:Hk; [|discriminate].
        exists (k', y). split; [reflexivity|]. apply elem_of_map_to_list. exact Hk.
      + intros ([k' x] & -> & Hin). apply elem_of_map_to_list in Hin. simpl.
        eexists (k', _). split; [reflexivity|]. apply elem_of_map_to_list.
        rewrite map_lookup_imap, Hin. reflexivity. }
  repeat split.
  - simpl. congruence.
  - rewrite !fmap_cons. f_equal. exact Htimes.
  - constructor.
    + split; [reflexivity|]. unfold Runner.snapshot, Portfolio.Positions.
      cbn [AccountValue.OpenPositions]. rewrite Hsize. reflexivity.
    + rewrite Hsize in Hall. exact Hall.
Qed.
End RunnerRuns.



(** X20. With the three exit rules off and a strategy that places no order,
    as [BaseStrategy] does, a run over rows that all have data ends without
    an error. Its portfolio is the one it started with, marked to the closes
    of the rows one after the other; the equity curve holds one snapshot per
    row under the timestamp of the row, each with the cash and the number of
    open positions of the start. *)
Theorem quiet_run {S : Type} `{Strategy S} (st : S) (p : Portfolio.t) (m : risk.Manager)
    (rows : list TimeseriesRow.t) :
  risk.UseStopLoss (risk.settings m) = false ->
  risk.UseTakeProfit (risk.settings m) = false ->
  risk.UseTrailingStop (risk.settings m) = false ->
  (forall st pf data, snd (OnTick st pf data) = []) ->
  Forall (fun row => is_Some (TimeseriesRow.Get row)) rows ->
  exists r',
    Runner.Start (Runner.New st (Some p) (Some m) (Some rows)) = (r', None)
    /\ Runner.Portfolio_ r' = Some (marked p rows)
    /\ Runner.EquityCurve r' = quietCurve p rows
    /\ length (Runner.EquityCurve r') = length rows
    /\ AccountValue.Time <$> Runner.EquityCurve r' = TimeseriesRow.Timestamp <$> rows
    /\ Forall (fun a => AccountValue.Cash a = Portfolio.cash p
                        /\ AccountValue.OpenPositions a
                           = Z.of_nat (size (Portfolio.openPositions p)))
              (Runner.EquityCurve r').
Proof.
  intros Hsl Htp Hts Hquiet Hrows.
  destruct (runRows_quiet rows (Runner.New st (Some p) (Some m) (Some rows)) st p m)
    as (r' & Hrun & Hport & Hcurve); try assumption; try reflexivity.
  simpl in Hcurve.
  destruct (quietCurve_facts rows p) as (Hlen & Htimes & Hall).
  exists r'. rewrite Hcurve. repeat split; assumption.
Qed.

Lemma quiet_run_witness :
  let entry := Fill (NewOrder "ord_1" "AAPL" Long Entry 10 1) 100 in
  let p := fst (Portfolio.ProcessOrder (Portfolio.New (Portfolio.mkSettings 10000 false 0)) entry) in
  let m := risk.New (risk.mkSettings 0 0 false 0 false 0 false 0) in
  let candle (close : float) : gmap string Candle.t :=
    {["AAPL" := Candle.mk close close close close 1]} in
  let rows := [TimeseriesRow.mk 1 (Some (candle 120%float));
               TimeseriesRow.mk 2 (Some (candle 90%float))] in
  Forall (fun row => is_Some (TimeseriesRow.Get row)) rows
  /\ exists r', Runner.Start (Runner.New tt (Some p) (Some m) (Some rows)) = (r', None)
                /\ length (Runner.EquityCurve r') = 2%nat.
Proof.
  intros entry p m candle rows.
  assert (Hrows : Forall (fun row => is_Some (TimeseriesRow.Get row)) rows)
    by (repeat constructor; eexists; reflexivity).
  split; [exact Hrows|].
  assert (Hquiet : forall (st : unit) (pf : Portfolio.t) (data : gmap string Candle.t),
             snd (OnTick st pf data) = []) by reflexivity.
  destruct (quiet_run tt p m rows eq_refl eq_refl eq_refl Hquiet Hrows)
    as (r' & Hrun & _ & _ & Hlen & _).
  exists r'. split; [exact Hrun|exact Hlen].
Defined.

(** ** Tables *)

Section TableFacts.
Context {V : Type}.
Implicit Types (tb : Table.t V) (row : Table.Row V).

Lemma elem_Ret {A} (s : list A) i a :
  0 <= i -> s !! Z.to_nat i = Some a -> elem s i = Ret a.
Proof.
  intros Hi Hs. unfold elem. destruct (Z.ltb_spec i 0); [lia|]. rewrite Hs. reflexivity.
Qed.

Lemma in_range_spec {A} (l : list A) i :
  (i <? 0) || (i >=? len l) = false <-> 0 <= i < len l.
Proof.
  unfold len. rewrite orb_false_iff, Z.ltb_ge, Z.geb_leb, Z.leb_gt. reflexivity.
Qed.

Lemma in_range_lookup {A} (l : list A) i :
  0 <= i < len l -> is_Some (l !! Z.to_nat i).
Proof.
  unfold len. intros Hi. apply lookup_lt_is_Some. lia.
Qed.

Lemma indexColumns_spec columns : forall i (m : gmap string Z) (before : list string),
  i = len before ->
  (forall c j, m !! c = Some j -> 0 <= j /\ before !! Z.to_nat j = Some c) ->
  (forall c, c ∈ before -> is_Some (m !! c)) ->
  (forall c j, Table.indexColumns i columns m !! c = Some j ->
               0 <= j /\ (before ++ columns) !! Z.to_nat j = Some c)
  /\ (forall c, c ∈ before ++ columns -> is_Some (Table.indexColumns i columns m !! c)).
Proof.
  induction columns as [|name columns IH]; intros i m before Hi Hm Hin; simpl.
  - rewrite app_nil_r. split; assumption.
  - replace (before ++ name :: columns) with ((before ++ [name]) ++ columns)
      by (rewrite <- app_assoc; reflexivity).
    apply IH.
    + unfold len in *. rewrite length_app. simpl. lia.
    + intros c j Hc. destruct (decide (c = name)) as [->|Hne].
      * rewrite lookup_insert_eq in Hc. inversion Hc; subst j. unfold len in *. subst i.
        split; [lia|]. rewrite Nat2Z.id. rewrite lookup_app_r by lia.
        rewrite Nat.sub_diag. reflexivity.
      * rewrite lookup_insert_ne in Hc by congruence.
        destruct (Hm c j Hc) as [Hj Hb]. split; [assumption|].
        rewrite lookup_app_l; [assumption|]. eapply lookup_lt_Some; eassumption.
    + intros c Hc. apply elem_of_app in Hc as [Hc|Hc].
      * destruct (decide (c = name)) as [->|Hne].
        -- rewrite lookup_insert_eq. eexists; reflexivity.
        -- rewrite lookup_insert_ne by congruence. apply Hin, Hc.
      * apply list_elem_of_singleton in Hc as ->. rewrite lookup_insert_eq. eexists; reflexivity.
Qed.

Lemma NewTable_wf columns : tableWf (Table.NewTable (V:=V) columns).
Proof.
  unfold tableWf, Table.NewTable. simpl.
  destruct (indexColumns_spec columns 0 ∅ []) as [Hmap Hin]; try reflexivity.
  - intros c j Hc. rewrite lookup_empty in Hc. discriminate.
  - intros c Hc. inversion Hc.
  - split; [constructor|]. split; assumption.
Qed.

Lemma NewRow_wf tb : tableWf tb -> tableWf (fst (Table.NewRow tb)).
Proof.
  intros (Hrows & Hmap & Hin). unfold Table.NewRow, tableWf. simpl.
  split; [|split; assumption].
  apply Forall_app. split; [assumption|].
  constructor; [|constructor]. apply length_replicate.
Qed.

Lemma tableWf_injective tb c1 c2 i :
  tableWf tb -> Table.columnMap tb !! c1 = Some i -> Table.columnMap tb !! c2 = Some i ->
  c1 = c2.
Proof.
  intros (_ & Hmap & _) H1 H2.
  destruct (Hmap _ _ H1) as [_ Hc1], (Hmap _ _ H2) as [_ Hc2]. congruence.
Qed.

Lemma tableWf_column_range tb c i row :
  tableWf tb -> Table.columnMap tb !! c = Some i -> row ∈ Table.rows tb ->
  0 <= i < len row.
Proof.
  intros (Hrows & Hmap & _) Hc Hrow. destruct (Hmap _ _ Hc) as [Hi Hcol].
  rewrite Forall_forall in Hrows. specialize (Hrows _ Hrow).
  apply lookup_lt_Some in Hcol. unfold len. lia.
Qed.

(** What [SetValueByIndex] does on a well-formed table. *)
Lemma SetValueByIndex_ok tb index column value ci :
  tableWf tb -> 0 <= index < len (Table.rows tb) ->
  Table.columnMap tb !! column = Some ci ->
  exists tb',
    Table.SetValueByIndex tb index column value = Ret (tb', None)
    /\ tableWf tb'
    /\ Table.columns tb' = Table.columns tb
    /\ Table.columnMap tb' = Table.columnMap tb
    /\ length (Table.rows tb') = length (Table.rows tb)
    /\ (forall i c, cell tb' i c
                    = if decide (i = index /\ c = column) then Some value else cell tb i c).
Proof.
  intros Hwf Hindex Hcol. unfold Table.SetValueByIndex. rewrite Hcol.
  rewrite (proj2 (in_range_spec _ _) Hindex).
  destruct (in_range_lookup _ _ Hindex) as [row Hrow].
  rewrite (elem_Ret _ _ row) by (lia || assumption). cbn [mbind run_bind].
  assert (Hci : 0 <= ci < len row).
  { eapply tableWf_column_range; try eassumption. eapply list_elem_of_lookup_2, Hrow. }
  destruct (in_range_lookup _ _ Hci) as [old Hold].
  rewrite (elem_Ret _ _ old) by (lia || assumption). cbn [mbind run_bind].
  eexists. split; [reflexivity|].
  destruct Hwf as (Hrows & Hmap & Hin).
  split; [|split; [reflexivity|split; [reflexivity|split]]].
  - unfold tableWf. simpl. split; [|split; assumption].
    apply Forall_insert; [assumption|]. rewrite length_insert.
    rewrite Forall_forall in Hrows. apply Hrows. eapply list_elem_of_lookup_2, Hrow.
  - simpl. apply length_insert.
  - intros i c. unfold cell. simpl. unfold Table.Row in *.
    destruct (Z.ltb_spec i 0) as [Hneg|Hpos].
    { destruct (decide _) as [[-> _]|_]; [lia|reflexivity]. }
    destruct (decide (Z.to_nat i = Z.to_nat index)) as [Heq|Hne].
    + assert (i = index) by lia. subst i.
      rewrite list_lookup_insert_eq by (apply lookup_lt_is_Some; eexists; exact Hrow).
      rewrite Hrow. simpl.
      destruct (Table.columnMap tb !! c) as [cj|] eqn:Hc; simpl.
      * destruct (decide (c = column)) as [->|Hcne].
        -- rewrite Hcol in Hc. inversion Hc; subst cj.
           destruct (Z.ltb_spec ci 0); [lia|].
           rewrite list_lookup_insert_eq by (apply lookup_lt_is_Some; eexists; exact Hold).
           destruct (decide _) as [_|Hno]; [reflexivity|]. exfalso. apply Hno. auto.
        -- destruct (decide _) as [[_ ->]|_]; [congruence|].
           destruct (Z.ltb_spec cj 0); [reflexivity|].
           rewrite list_lookup_insert_ne; [reflexivity|].
           intros Hsame. apply Hcne.
           assert (cj = ci) by (destruct (Hmap _ _ Hc); lia). subst cj.
           eapply tableWf_injective; [split; [eassumption|split; eassumption]|eassumption..].
      * destruct (decide _) as [[_ ->]|_]; [congruence|reflexivity].
    + rewrite list_lookup_insert_ne by congruence.
      destruct (decide _) as [[-> _]|_]; [congruence|reflexivity].
Qed.

Lemma setValues_app tb index front back :
  Table.setValues tb index (front ++ back)
  = '(tb1, err) ← Table.setValues tb index front;
    match err with
    | Some err => Ret (tb1, Some err)
    | None => Table.setValues tb1 index back
    end.
Proof.
  revert tb. induction front as [|[c v] front IH]; intros tb; [reflexivity|].
  simpl. destruct (Table.SetValueByIndex tb index c v) as [[tb1 [e|]]|]; simpl;
    [reflexivity|apply IH|reflexivity].
Qed.

Lemma setValues_ok entries : forall tb index,
  tableWf tb -> 0 <= index < len (Table.rows tb) ->
  knownColumns tb entries -> NoDup entries.*1 ->
  exists tb',
    Table.setValues tb index entries = Ret (tb', None)
    /\ tableWf tb'
    /\ Table.columns tb' = Table.columns tb
    /\ Table.columnMap tb' = Table.columnMap tb
    /\ length (Table.rows tb') = length (Table.rows tb)
    /\ (forall i c, cell tb' i c
                    = if decide (i = index)
                      then match (list_to_map entries : gmap string (option V)) !! c with
                           | Some v => Some v
                           | None => cell tb i c
                           end
                      else cell tb i c).
Proof.
  induction entries as [|[k v] entries IH]; intros tb index Hwf Hindex Hknown Hnodup.
  - exists tb. split; [reflexivity|]. split; [assumption|]. do 3 (split; [reflexivity|]).
    intros i c. simpl. rewrite lookup_empty. destruct (decide _); reflexivity.
  - apply Forall_cons in Hknown as [[ci Hk] Hknown]. simpl in Hk.
    rewrite fmap_cons in Hnodup. apply NoDup_cons in Hnodup as [Hfresh Hnodup].
    destruct (SetValueByIndex_ok tb index k v ci Hwf Hindex Hk)
      as (tb1 & Hset & Hwf1 & Hcols1 & Hmap1 & Hlen1 & Hcell1).
    destruct (IH tb1 index Hwf1) as (tb' & Hrun & Hwf' & Hcols & Hmap & Hlen & Hcell);
      [unfold len in *; lia| |assumption|].
    { unfold knownColumns in *. rewrite Hmap1. assumption. }
    exists tb'. cbn [Table.setValues]. rewrite Hset. cbn [mbind run_bind].
    split; [exact Hrun|]. split; [assumption|].
    split; [congruence|]. split; [congruence|]. split; [congruence|].
    intros i c. rewrite Hcell, Hcell1. cbn [list_to_map foldr fst snd uncurry].
    destruct (decide (i = index)) as [->|Hne].
    + destruct (decide (c = k)) as [->|Hck].
      * rewrite lookup_insert_eq.
        rewrite (not_elem_of_list_to_map_1 _ _ Hfresh).
        destruct (decide _) as [_|Hno]; [reflexivity|]. exfalso. apply Hno. auto.
      * rewrite lookup_insert_ne by congruence.
        destruct (decide _) as [[_ ->]|_]; [congruence|reflexivity].
    + destruct (decide _) as [[-> _]|_]; [congruence|reflexivity].
Qed.

Lemma SetValueByIndex_unknown tb index column value :
  Table.columnMap tb !! column = None ->
  Table.SetValueByIndex tb index column value = Ret (tb, Some (ErrColumnMissing column)).
Proof. intros Hc. unfold Table.SetValueByIndex. rewrite Hc. reflexivity. Qed.

Lemma GetValueByIndex_cell tb index column :
  tableWf tb ->
  Table.GetValueByIndex tb index column
  = Ret (match cell tb index column with
         | Some value => (value, true)
         | None => (None, false)
         end).
Proof.
  intros Hwf. unfold Table.GetValueByIndex, cell.
  destruct ((index <? 0) || (index >=? len (Table.rows tb))) eqn:Hrange.
  - apply orb_true_iff in Hrange as [Hneg|Hbig].
    + rewrite Hneg. reflexivity.
    + destruct (index <? 0); [reflexivity|].
      rewrite Z.geb_leb, Z.leb_le in Hbig. unfold len in Hbig.
      rewrite lookup_ge_None_2 by lia. reflexivity.
  - apply in_range_spec in Hrange.
    destruct (Z.ltb_spec index 0); [lia|].
    destruct (in_range_lookup _ _ Hrange) as [row Hrow]. rewrite Hrow. simpl.
    destruct (Table.columnMap tb !! column) as [ci|] eqn:Hc; simpl; [|reflexivity].
    rewrite (elem_Ret _ _ row) by (lia || assumption). cbn [mbind run_bind].
    assert (Hci : 0 <= ci < len row).
    { eapply tableWf_column_range; try eassumption. eapply list_elem_of_lookup_2, Hrow. }
    destruct (in_range_lookup _ _ Hci) as [value Hvalue].
    rewrite (elem_Ret _ _ value) by (lia || assumption). cbn [mbind run_bind].
    destruct (Z.ltb_spec ci 0); [lia|]. unfold Table.Row in *. rewrite Hvalue. reflexivity.
Qed.

Lemma cell_is_Some tb index column :
  tableWf tb -> 0 <= index < len (Table.rows tb) ->
  is_Some (Table.columnMap tb !! column) -> is_Some (cell tb index column).
Proof.
  intros Hwf Hrange [ci Hc]. unfold cell.
  destruct (Z.ltb_spec index 0); [lia|].
  destruct (in_range_lookup _ _ Hrange) as [row Hrow]. rewrite Hrow, Hc. simpl.
  assert (Hci : 0 <= ci < len row).
  { eapply tableWf_column_range; try eassumption. eapply list_elem_of_lookup_2, Hrow. }
  destruct (Z.ltb_spec ci 0); [lia|]. apply in_range_lookup. assumption.
Qed.

Lemma cell_unknown tb index column :
  Table.columnMap tb !! column = None -> cell tb index column = None.
Proof.
  intros Hc. unfold cell. destruct (index <? 0); [reflexivity|].
  destruct (Table.rows tb !! Z.to_nat index); simpl; [|reflexivity].
  rewrite Hc. reflexivity.
Qed.

Lemma convertColumns_spec tb index columns : forall result,
  tableWf tb ->
  exists result',
    Table.convertColumns tb index columns result = Ret result'
    /\ forall c, result' !! c
                 = if decide (c ∈ columns) then Some (default None (cell tb index c))
                   else result !! c.
Proof.
  induction columns as [|name columns IH]; intros result Hwf.
  - exists result. split; [reflexivity|]. intros c.
    destruct (decide _) as [Hin|_]; [inversion Hin|reflexivity].
  - cbn [Table.convertColumns]. rewrite GetValueByIndex_cell by assumption.
    cbn [mbind run_bind].
    destruct (IH (<[name := default None (cell tb index name)]> result) Hwf)
      as (result' & Hrun & Hlook).
    exists result'. split.
    + destruct (cell tb index name); exact Hrun.
    + intros c. rewrite Hlook.
      destruct (decide (c ∈ columns)) as [Hin|Hout].
      * destruct (decide _) as [_|Hno]; [reflexivity|]. exfalso. apply Hno. right. exact Hin.
      * destruct (decide (c = name)) as [->|Hne].
        -- rewrite lookup_insert_eq.
           destruct (decide _) as [_|Hno]; [reflexivity|]. exfalso. apply Hno. left.
        -- rewrite lookup_insert_ne by congruence.
           destruct (decide _) as [Hin|_]; [|reflexivity].
           apply elem_of_cons in Hin as [?|?]; contradiction.
Qed.

Lemma GetRow_spec tb index :
  tableWf tb -> 0 <= index < len (Table.rows tb) ->
  exists result,
    Table.GetRow tb index = Ret (Some result)
    /\ forall c, result !! c = cell tb index c.
Proof.
  intros Hwf Hrange. unfold Table.GetRow, Table.convertRow.
  rewrite (proj2 (in_range_spec _ _) Hrange).
  destruct (convertColumns_spec tb index (Table.columns tb) ∅ Hwf) as (result & -> & Hlook).
  exists result. split; [reflexivity|]. intros c. rewrite Hlook.
  destruct Hwf as (Hrows & Hmap & Hin).
  destruct (decide (c ∈ Table.columns tb)) as [Hc|Hc].
  - destruct (cell_is_Some tb index c) as [v ->]; try assumption; [|apply Hin, Hc|reflexivity].
    split; [assumption|split; assumption].
  - rewrite lookup_empty. symmetry. apply cell_unknown.
    destruct (Table.columnMap tb !! c) as [ci|] eqn:Hci; [|reflexivity].
    exfalso. apply Hc. destruct (Hmap _ _ Hci) as [_ Hcol].
    eapply list_elem_of_lookup_2, Hcol.
Qed.
End TableFacts.

(** ** Timeseries tables *)

Section SeriesFacts.
Context {T : Type} (zero : T).
Implicit Types (tbl : TimeseriesTable.t T) (tb : Table.t T).

Ltac same_table :=
  split; [first [reflexivity | eassumption]|];
  split; [eassumption|];
  split; [first [reflexivity | eassumption]|];
  split; first [reflexivity | eassumption].

Lemma SetValueByIndex_total tb index column value :
  tableWf tb ->
  exists tb' err,
    Table.SetValueByIndex tb index column value = Ret (tb', err)
    /\ tableWf tb'
    /\ Table.columns tb' = Table.columns tb
    /\ Table.columnMap tb' = Table.columnMap tb
    /\ length (Table.rows tb') = length (Table.rows tb).
Proof.
  intros Hwf.
  destruct (Table.columnMap tb !! column) as [ci|] eqn:Hc.
  - destruct ((index <? 0) || (index >=? len (Table.rows tb))) eqn:Hrange.
    + exists tb, (Some (ErrRowMissing index)). unfold Table.SetValueByIndex.
      rewrite Hc, Hrange. same_table.
    + apply in_range_spec in Hrange.
      destruct (SetValueByIndex_ok tb index column value ci Hwf Hrange Hc)
        as (tb' & Hset & Hwf' & Hcols & Hmap & Hlen & _).
      exists tb', None. same_table.
  - exists tb, (Some (ErrColumnMissing column)).
    rewrite SetValueByIndex_unknown by assumption. same_table.
Qed.

Lemma setValues_total entries : forall tb index,
  tableWf tb ->
  exists tb' err,
    Table.setValues tb index entries = Ret (tb', err)
    /\ tableWf tb'
    /\ Table.columns tb' = Table.columns tb
    /\ Table.columnMap tb' = Table.columnMap tb
    /\ length (Table.rows tb') = length (Table.rows tb).
Proof.
  induction entries as [|[c v] entries IH]; intros tb index Hwf.
  - exists tb, None. same_table.
  - destruct (SetValueByIndex_total tb index c v Hwf)
      as (tb1 & err1 & Hset & Hwf1 & Hcols1 & Hmap1 & Hlen1).
    cbn [Table.setValues]. rewrite Hset. cbn [mbind run_bind].
    destruct err1 as [e|].
    + exists tb1, (Some e). same_table.
    + destruct (IH tb1 index Hwf1) as (tb' & err & Hrun & Hwf' & Hcols & Hmap & Hlen).
      exists tb', err. split; [exact Hrun|]. split; [exact Hwf'|].
      split; [congruence|]. split; congruence.
Qed.

Lemma InsertRowAtIndex_total tb index entries :
  tableWf tb ->
  exists tb' err,
    Table.InsertRowAtIndex tb index entries = Ret (tb', err)
    /\ tableWf tb'
    /\ Table.columns tb' = Table.columns tb
    /\ Table.columnMap tb' = Table.columnMap tb
    /\ length (Table.rows tb') = length (Table.rows tb).
Proof.
  intros Hwf. unfold Table.InsertRowAtIndex.
  destruct ((index <? 0) || (index >=? len (Table.rows tb))).
  - exists tb, (Some (ErrIndexOutOfRange index)). same_table.
  - apply setValues_total. assumption.
Qed.

Lemma seriesWf_with_table tbl tb' :
  seriesWf tbl -> tableWf tb' ->
  length (Table.rows tb') = length (Table.rows (TimeseriesTable.table tbl)) ->
  seriesWf (TimeseriesTable.with_table tb' tbl).
Proof.
  intros (Htb & Hrange & Hinj & Hnodup & Hmem & Hsorted) Hwf' Hlen.
  unfold seriesWf. simpl. split; [exact Hwf'|].
  split; [intros ts i Hi; unfold len; rewrite Hlen; exact (Hrange ts i Hi)|].
  split; [exact Hinj|]. split; [exact Hnodup|]. split; [exact Hmem|exact Hsorted].
Qed.

Lemma CreateRow_fresh tbl timestamp :
  seriesWf tbl -> TimeseriesTable.timestampMap tbl !! timestamp = None ->
  exists tbl',
    TimeseriesTable.CreateRow tbl timestamp = (tbl', None)
    /\ seriesWf tbl'
    /\ TimeseriesTable.timestampMap tbl'
       = <[timestamp := len (Table.rows (TimeseriesTable.table tbl))]>
           (TimeseriesTable.timestampMap tbl)
    /\ TimeseriesTable.timestampArr tbl' = TimeseriesTable.timestampArr tbl ++ [timestamp]
    /\ TimeseriesTable.table tbl' = fst (Table.NewRow (TimeseriesTable.table tbl))
    /\ (forall i c, cell (TimeseriesTable.table tbl') i c
                    = if decide (i = len (Table.rows (TimeseriesTable.table tbl)))
                      then (if Table.columnMap (TimeseriesTable.table tbl) !! c is Some _
                            then Some None else None)
                      else cell (TimeseriesTable.table tbl) i c).
Proof.
  intros (Htb & Hrange & Hinj & Hnodup & Hmem & Hsorted) Hfresh.
  unfold TimeseriesTable.CreateRow. rewrite Hfresh.
  set (n := len (Table.rows (TimeseriesTable.table tbl))).
  assert (Hindex : snd (Table.NewRow (TimeseriesTable.table tbl)) = n).
  { unfold Table.NewRow, n, len. simpl. rewrite length_app. simpl. lia. }
  destruct (Table.NewRow (TimeseriesTable.table tbl)) as [tb index] eqn:Hnew.
  simpl in Hindex. subst index.
  assert (Htb' : tb = fst (Table.NewRow (TimeseriesTable.table tbl))) by (rewrite Hnew; reflexivity).
  eexists. split; [reflexivity|]. simpl.
  assert (Hrows : Table.rows tb
                  = Table.rows (TimeseriesTable.table tbl)
                    ++ [replicate (length (Table.columns (TimeseriesTable.table tbl))) None]).
  { rewrite Htb'. reflexivity. }
  split; [|split; [reflexivity|split; [reflexivity|split; [reflexivity|]]]].
  - unfold seriesWf. simpl.
    split; [rewrite Htb'; apply NewRow_wf, Htb|].
    split; [|split; [|split; [|split; [intros ts; split|discriminate]]]].
    + intros ts i H. unfold len. rewrite Hrows, length_app. simpl.
      destruct (decide (ts = timestamp)) as [->|Hne].
      * rewrite lookup_insert_eq in H. inversion H. unfold n, len. lia.
      * rewrite lookup_insert_ne in H by congruence.
        pose proof (Hrange _ _ H) as Hr. unfold len in Hr. lia.
    + intros ts1 ts2 i H1 H2.
      destruct (decide (ts1 = timestamp)) as [->|Hne1], (decide (ts2 = timestamp)) as [->|Hne2];
        try reflexivity.
      * rewrite lookup_insert_eq in H1. rewrite lookup_insert_ne in H2 by congruence.
        inversion H1; subst i. pose proof (Hrange _ _ H2). unfold n in *. lia.
      * rewrite lookup_insert_eq in H2. rewrite lookup_insert_ne in H1 by congruence.
        inversion H2; subst i. pose proof (Hrange _ _ H1). unfold n in *. lia.
      * rewrite lookup_insert_ne in H1, H2 by congruence. eapply Hinj; eassumption.
    + apply NoDup_app. split; [assumption|]. split; [|apply NoDup_singleton].
      intros ts Hin Hin'. apply list_elem_of_singleton in Hin' as ->.
      apply Hmem in Hin as [i Hi]. congruence.
    + intros Hin. apply elem_of_app in Hin as [Hin|Hin].
      * destruct (decide (ts = timestamp)) as [->|Hne];
          [rewrite lookup_insert_eq; eexists; reflexivity|].
        rewrite lookup_insert_ne by congruence. apply Hmem, Hin.
      * apply list_elem_of_singleton in Hin as ->. rewrite lookup_insert_eq. eexists; reflexivity.
    + intros Hin. destruct (decide (ts = timestamp)) as [->|Hne].
      * apply elem_of_app. right. left.
      * rewrite lookup_insert_ne in Hin by congruence. apply elem_of_app. left. apply Hmem, Hin.
  - intros i c. unfold cell. rewrite Hrows.
    assert (Hcm : Table.columnMap tb = Table.columnMap (TimeseriesTable.table tbl))
      by (rewrite Htb'; reflexivity).
    rewrite Hcm.
    destruct (Z.ltb_spec i 0) as [Hneg|Hpos].
    { destruct (decide _) as [->|_]; [unfold n, len in Hneg; lia|reflexivity]. }
    destruct (decide (i = n)) as [->|Hne].
    + unfold n, len. rewrite Nat2Z.id. rewrite lookup_app_r by lia.
      rewrite Nat.sub_diag. simpl.
      destruct (Table.columnMap (TimeseriesTable.table tbl) !! c) as [ci|] eqn:Hc; simpl;
        [|reflexivity].
      destruct Htb as (_ & Hmap & _). destruct (Hmap _ _ Hc) as [Hci Hcol].
      destruct (Z.ltb_spec ci 0); [lia|].
      apply lookup_replicate_2. eapply lookup_lt_Some, Hcol.
    + destruct (decide (Z.to_nat i < length (Table.rows (TimeseriesTable.table tbl)))%nat).
      * rewrite lookup_app_l by assumption. reflexivity.
      * rewrite lookup_ge_None_2 by (rewrite length_app; simpl; unfold n, len in Hne; lia).
        rewrite lookup_ge_None_2 by lia. reflexivity.
Qed.

Lemma CreateRow_wf tbl timestamp :
  seriesWf tbl -> seriesWf (fst (TimeseriesTable.CreateRow tbl timestamp)).
Proof.
  intros Hwf.
  destruct (TimeseriesTable.timestampMap tbl !! timestamp) as [i|] eqn:Hts.
  - unfold TimeseriesTable.CreateRow. rewrite Hts. exact Hwf.
  - destruct (CreateRow_fresh tbl timestamp Hwf Hts) as (tbl' & -> & Hwf' & _). exact Hwf'.
Qed.

Lemma SetRow_total tbl timestamp row :
  seriesWf tbl ->
  exists tb' err,
    TimeseriesTable.SetRow tbl timestamp row = Ret (TimeseriesTable.with_table tb' tbl, err)
    /\ seriesWf (TimeseriesTable.with_table tb' tbl).
Proof.
  intros Hwf. unfold TimeseriesTable.SetRow, Table.SetRow.
  destruct (TimeseriesTable.GetIndexFor tbl timestamp) as [index ok].
  destruct (InsertRowAtIndex_total (TimeseriesTable.table tbl) index
              ((fun kv => (fst kv, Some (snd kv))) <$> row))
    as (tb' & err & Hrun & Hwf' & _ & _ & Hlen); [apply Hwf|].
  rewrite Hrun. exists tb', err. split; [reflexivity|].
  apply seriesWf_with_table; assumption.
Qed.

Lemma SetValue_total tbl timestamp column value :
  seriesWf tbl ->
  exists tbl' err,
    TimeseriesTable.SetValue tbl timestamp column value = Ret (tbl', err) /\ seriesWf tbl'.
Proof.
  intros Hwf. unfold TimeseriesTable.SetValue, Table.Set_.
  destruct (TimeseriesTable.GetIndexFor tbl timestamp) as [index [|]]; simpl.
  - destruct (SetValueByIndex_total (TimeseriesTable.table tbl) index column (Some value))
      as (tb' & err & Hrun & Hwf' & _ & _ & Hlen); [apply Hwf|].
    rewrite Hrun. eexists _, _. split; [reflexivity|].
    apply seriesWf_with_table; assumption.
  - eexists _, _. split; [reflexivity|exact Hwf].
Qed.

Lemma Rows_wf tbl :
  seriesWf tbl ->
  seriesWf (fst (TimeseriesTable.Rows tbl))
  /\ TimeseriesTable.isDirty (fst (TimeseriesTable.Rows tbl)) = false
  /\ snd (TimeseriesTable.Rows tbl) = TimeseriesTable.timestampArr (fst (TimeseriesTable.Rows tbl))
  /\ snd (TimeseriesTable.Rows tbl) ≡ₚ TimeseriesTable.timestampArr tbl.
Proof.
  intros (Htb & Hrange & Hinj & Hnodup & Hmem & Hsorted).
  unfold TimeseriesTable.Rows, TimeseriesTable.sortTimestamps. simpl.
  destruct (TimeseriesTable.isDirty tbl) eqn:Hdirty.
  - pose proof (merge_sort_Permutation Time.notAfter (TimeseriesTable.timestampArr tbl)) as Hperm.
    split; [|split; [reflexivity|split; [reflexivity|exact Hperm]]].
    unfold seriesWf. simpl.
    split; [exact Htb|]. split; [exact Hrange|]. split; [exact Hinj|].
    split; [rewrite Hperm; exact Hnodup|].
    split; [intros ts; rewrite Hperm; apply Hmem|].
    intros _. apply StronglySorted_merge_sort.
    + intros x y z. unfold Time.notAfter, Time.Before. lia.
    + intros x y. unfold Time.notAfter, Time.Before. lia.
  - split; [|split; [reflexivity|split; reflexivity]].
    unfold seriesWf. simpl.
    split; [exact Htb|]. split; [exact Hrange|]. split; [exact Hinj|].
    split; [exact Hnodup|]. split; [exact Hmem|]. intros _. apply Hsorted. reflexivity.
Qed.

Lemma tableCall_wf tbl c :
  seriesWf tbl -> exists tbl', tableCall tbl c = Ret tbl' /\ seriesWf tbl'.
Proof.
  intros Hwf. destruct c as [ts|ts row|ts row|ts column value|]; simpl.
  - eexists. split; [reflexivity|]. apply CreateRow_wf, Hwf.
  - destruct (SetRow_total tbl ts row Hwf) as (tb' & err & -> & Hwf').
    eexists. split; [reflexivity|exact Hwf'].
  - unfold TimeseriesTable.AddRow.
    pose proof (CreateRow_wf tbl ts Hwf) as Hwf1.
    destruct (TimeseriesTable.CreateRow tbl ts) as [tbl1 [e|]]; simpl in Hwf1.
    + eexists. split; [reflexivity|exact Hwf1].
    + destruct (SetRow_total tbl1 ts row Hwf1) as (tb' & err & -> & Hwf').
      eexists. split; [reflexivity|exact Hwf'].
  - destruct (SetValue_total tbl ts column value Hwf) as (tbl' & err & -> & Hwf').
    eexists. split; [reflexivity|exact Hwf'].
  - eexists. split; [reflexivity|]. apply Rows_wf, Hwf.
Qed.

Lemma NewTimeseriesTable_wf columns :
  seriesWf (TimeseriesTable.NewTimeseriesTable (T:=T) columns).
Proof.
  unfold seriesWf, TimeseriesTable.NewTimeseriesTable. simpl.
  split; [apply NewTable_wf|].
  split; [intros ts i Hi; rewrite lookup_empty in Hi; discriminate|].
  split; [intros ts1 ts2 i Hi; rewrite lookup_empty in Hi; discriminate|].
  split; [constructor|].
  split; [|intros _; constructor].
  intros ts. split.
  - intros Hin. inversion Hin.
  - intros [i Hi]. rewrite lookup_empty in Hi. discriminate.
Qed.

Lemma tableCalls_wf cs : forall tbl,
  seriesWf tbl -> exists tbl', tableCalls tbl cs = Ret tbl' /\ seriesWf tbl'.
Proof.
  induction cs as [|c cs IH]; intros tbl Hwf.
  - exists tbl. split; [reflexivity|exact Hwf].
  - destruct (tableCall_wf tbl c Hwf) as (tbl1 & Hcall & Hwf1).
    cbn [tableCalls]. rewrite Hcall. cbn [mbind run_bind]. apply IH, Hwf1.
Qed.
End SeriesFacts.

Section SeriesReads.
Context {T : Type} (zero : T).
Implicit Types (tbl : TimeseriesTable.t T) (tb : Table.t T).

Lemma series_GetRow tbl timestamp i :
  seriesWf tbl -> TimeseriesTable.timestampMap tbl !! timestamp = Some i ->
  exists data,
    TimeseriesTable.GetRow zero tbl timestamp = Ret (Some data)
    /\ forall c, data !! c
                 = TimeseriesTable.typed zero <$> cell (TimeseriesTable.table tbl) i c.
Proof.
  intros (Htb & Hrange & _) Hts.
  unfold TimeseriesTable.GetRow, TimeseriesTable.GetIndexFor. rewrite Hts. simpl.
  destruct (GetRow_spec (TimeseriesTable.table tbl) i Htb (Hrange _ _ Hts))
    as (result & -> & Hlook).
  eexists. split; [reflexivity|]. intros c. simpl. rewrite lookup_fmap, Hlook. reflexivity.
Qed.

Lemma series_GetRow_missing tbl timestamp :
  TimeseriesTable.timestampMap tbl !! timestamp = None ->
  TimeseriesTable.GetRow zero tbl timestamp = Ret None.
Proof.
  intros Hts. unfold TimeseriesTable.GetRow, TimeseriesTable.GetIndexFor. rewrite Hts.
  reflexivity.
Qed.

Lemma series_GetValue tbl timestamp i column :
  seriesWf tbl -> TimeseriesTable.timestampMap tbl !! timestamp = Some i ->
  TimeseriesTable.GetValue zero tbl timestamp column
  = Ret (match cell (TimeseriesTable.table tbl) i column with
         | Some value => (TimeseriesTable.typed zero value, true)
         | None => (zero, false)
         end).
Proof.
  intros (Htb & _) Hts.
  unfold TimeseriesTable.GetValue, TimeseriesTable.GetIndexFor, Table.Get. rewrite Hts. simpl.
  rewrite GetValueByIndex_cell by assumption. cbn [mbind run_bind].
  destruct (cell (TimeseriesTable.table tbl) i column); reflexivity.
Qed.

Lemma with_table_same tbl : TimeseriesTable.with_table (TimeseriesTable.table tbl) tbl = tbl.
Proof. destruct tbl; reflexivity. Qed.

Lemma setValues_unknown (entries : list (string * option T)) : forall tb index,
  tableWf tb -> 0 <= index < len (Table.rows tb) ->
  Exists (fun kv => Table.columnMap tb !! fst kv = None) entries ->
  exists tb' column,
    Table.setValues tb index entries = Ret (tb', Some (ErrColumnMissing column))
    /\ column ∈ entries.*1
    /\ Table.columnMap tb !! column = None
    /\ tableWf tb'
    /\ length (Table.rows tb') = length (Table.rows tb).
Proof.
  induction entries as [|[k v] entries IH]; intros tb index Hwf Hindex Hex;
    [inversion Hex|].
  cbn [Table.setValues].
  destruct (Table.columnMap tb !! k) as [ci|] eqn:Hk.
  - apply Exists_cons in Hex as [Hex|Hex]; [simpl in Hex; congruence|].
    destruct (SetValueByIndex_ok tb index k v ci Hwf Hindex Hk)
      as (tb1 & Hset & Hwf1 & Hcols1 & Hmap1 & Hlen1 & _).
    rewrite Hset. cbn [mbind run_bind].
    destruct (IH tb1 index Hwf1) as (tb' & column & Hrun & Hin & Hunknown & Hwf' & Hlen).
    { unfold len in *. lia. }
    { rewrite Hmap1. exact Hex. }
    exists tb', column. split; [exact Hrun|]. split; [right; exact Hin|].
    split; [congruence|]. split; [exact Hwf'|congruence].
  - rewrite SetValueByIndex_unknown by assumption. cbn [mbind run_bind].
    exists tb, k. split; [reflexivity|]. split; [left|].
    split; [exact Hk|]. split; [exact Hwf|reflexivity].
Qed.
End SeriesReads.

(** X21. Whatever calls are made on a table fresh from [NewTimeseriesTable],
    in whatever order and with whatever arguments, none of them runs into an
    index out of range, and the table stays well formed: every timestamp of
    the map has a row of its own inside the table, as wide as the table, and
    the array lists the timestamps of the map, each once. *)
Theorem table_calls_never_panic {T : Type} (columns : list string) (cs : list (TableCall T)) :
  exists tbl,
    tableCalls (TimeseriesTable.NewTimeseriesTable columns) cs = Ret tbl
    /\ seriesWf tbl.
Proof.
  apply tableCalls_wf, NewTimeseriesTable_wf.
Qed.

(** X22. A row added under a new timestamp, with values for columns of the
    table only, is read back as written, in whatever order the values were
    set: [GetRow] answers every column of the table, with the value given for
    it or the zero value when none was, and [GetValue] answers each value
    given. The rows of the other timestamps read as before. *)
Theorem AddRow_then_GetRow {T : Type} (zero : T) (tbl : TimeseriesTable.t T)
    (timestamp : Time.t) (values : gmap string T) (row : list (string * T)) :
  seriesWf tbl ->
  TimeseriesTable.timestampMap tbl !! timestamp = None ->
  row ≡ₚ map_to_list values ->
  (forall column, is_Some (values !! column) -> column ∈ TimeseriesTable.Cols tbl) ->
  exists tbl' data,
    TimeseriesTable.AddRow tbl timestamp row = Ret (tbl', None)
    /\ seriesWf tbl'
    /\ TimeseriesTable.GetRow zero tbl' timestamp = Ret (Some data)
    /\ (forall column,
           data !! column
           = if decide (column ∈ TimeseriesTable.Cols tbl)
             then Some (default zero (values !! column)) else None)
    /\ (forall column value,
           values !! column = Some value ->
           TimeseriesTable.GetValue zero tbl' timestamp column = Ret (value, true))
    /\ (forall other, other <> timestamp ->
                      TimeseriesTable.GetRow zero tbl' other
                      = TimeseriesTable.GetRow zero tbl other).
Proof.
  intros Hwf Hfresh Hperm Hknown.
  assert (Hvalues : values = list_to_map row)
    by (apply list_to_map_flip; symmetry; exact Hperm).
  assert (Hnodup : NoDup row.*1).
  { rewrite Hperm. apply NoDup_fst_map_to_list. }
  assert (Hcols : forall c, c ∈ TimeseriesTable.Cols tbl
                            <-> is_Some (Table.columnMap (TimeseriesTable.table tbl) !! c)).
  { destruct Hwf as ((_ & Hmap & Hin) & _). intros c. split; [apply Hin|].
    intros [ci Hci]. destruct (Hmap _ _ Hci) as [_ Hcol].
    eapply list_elem_of_lookup_2, Hcol. }
  destruct (CreateRow_fresh tbl timestamp Hwf Hfresh)
    as (tbl1 & Hcreate & Hwf1 & Hmap1 & Harr1 & Htb1 & Hcell1).
  set (n := len (Table.rows (TimeseriesTable.table tbl))) in *.
  set (entries := (fun kv : string * T => (fst kv, Some (snd kv))) <$> row).
  assert (Hn : 0 <= n < len (Table.rows (TimeseriesTable.table tbl1))).
  { rewrite Htb1. unfold Table.NewRow, n, len. simpl. rewrite length_app. simpl. lia. }
  assert (Hcm1 : Table.columnMap (TimeseriesTable.table tbl1)
                 = Table.columnMap (TimeseriesTable.table tbl))
    by (rewrite Htb1; reflexivity).
  assert (Hentries : list_to_map entries = (Some <$> values : gmap string (option T))).
  { rewrite Hvalues. unfold entries. clear. induction row as [|[k v] row IH]; simpl.
    - rewrite fmap_empty. reflexivity.
    - rewrite fmap_insert. f_equal. exact IH. }
  destruct (setValues_ok entries (TimeseriesTable.table tbl1) n)
    as (tb' & Hset & Hwf' & Hcols' & Hcm' & Hlen' & Hcell'); try assumption.
  { apply Hwf1. }
  { unfold knownColumns, entries. rewrite Forall_fmap. apply Forall_forall.
    intros [c v] Hin. simpl. rewrite Hcm1. apply Hcols, Hknown.
    rewrite Hvalues. exists v. apply elem_of_list_to_map_1; [|exact Hin].
    exact Hnodup. }
  { unfold entries. rewrite <- list_fmap_compose.
    replace (fst ∘ (fun kv : string * T => (fst kv, Some (snd kv)))) with (@fst string T)
      by reflexivity.
    exact Hnodup. }
  assert (Hrun : TimeseriesTable.AddRow tbl timestamp row
                 = Ret (TimeseriesTable.with_table tb' tbl1, None)).
  { unfold TimeseriesTable.AddRow. rewrite Hcreate.
    unfold TimeseriesTable.SetRow, TimeseriesTable.GetIndexFor, Table.SetRow,
      Table.InsertRowAtIndex.
    rewrite Hmap1, lookup_insert_eq. fold entries.
    rewrite (proj2 (in_range_spec _ _) Hn), Hset. reflexivity. }
  assert (Hwf2 : seriesWf (TimeseriesTable.with_table tb' tbl1))
    by (apply seriesWf_with_table; assumption).
  assert (Hts2 : TimeseriesTable.timestampMap (TimeseriesTable.with_table tb' tbl1)
                 !! timestamp = Some n).
  { simpl. rewrite Hmap1. apply lookup_insert_eq. }
  assert (Hcell2 : forall c,
             cell tb' n c
             = if decide (c ∈ TimeseriesTable.Cols tbl) then Some (values !! c) else None).
  { intros c. rewrite Hcell', Hentries, lookup_fmap, Hcell1.
    destruct (decide (n = n)) as [_|]; [|congruence].
    destruct (values !! c) as [v|] eqn:Hv; simpl.
    - destruct (decide _) as [_|Hno]; [reflexivity|].
      exfalso. apply Hno, Hknown. eexists; exact Hv.
    - destruct (decide (c ∈ TimeseriesTable.Cols tbl)) as [Hin|Hout].
      + apply Hcols in Hin as [ci ->]. reflexivity.
      + destruct (Table.columnMap (TimeseriesTable.table tbl) !! c) as [ci|] eqn:Hci;
          [|reflexivity].
        exfalso. apply Hout, Hcols. eexists; exact Hci. }
  destruct (series_GetRow zero _ timestamp n Hwf2 Hts2) as (data & Hget & Hdata).
  exists (TimeseriesTable.with_table tb' tbl1), data.
  split; [exact Hrun|]. split; [exact Hwf2|]. split; [exact Hget|].
  split; [|split].
  - intros c. rewrite Hdata. cbn [TimeseriesTable.with_table TimeseriesTable.table].
    rewrite Hcell2. destruct (decide _); [|reflexivity].
    simpl. destruct (values !! c); reflexivity.
  - intros c v Hv. rewrite (series_GetValue zero _ timestamp n) by assumption.
    cbn [TimeseriesTable.with_table TimeseriesTable.table]. rewrite Hcell2.
    destruct (decide _) as [_|Hno]; [rewrite Hv; reflexivity|].
    exfalso. apply Hno, Hknown. eexists; exact Hv.
  - intros other Hother.
    destruct (TimeseriesTable.timestampMap tbl !! other) as [i|] eqn:Hi.
    + assert (Hi2 : TimeseriesTable.timestampMap (TimeseriesTable.with_table tb' tbl1)
                    !! other = Some i).
      { simpl. rewrite Hmap1, lookup_insert_ne by congruence. exact Hi. }
      destruct (series_GetRow zero _ other i Hwf2 Hi2) as (d2 & -> & Hd2).
      destruct (series_GetRow zero _ other i Hwf Hi) as (d1 & -> & Hd1).
      do 2 f_equal. apply map_eq. intros c. rewrite Hd2, Hd1.
      cbn [TimeseriesTable.with_table TimeseriesTable.table].
      rewrite Hcell', Hcell1.
      assert (i <> n).
      { destruct Hwf as (_ & Hrange & _). pose proof (Hrange _ _ Hi). unfold n. lia. }
      destruct (decide (i = n)); [congruence|]. reflexivity.
    + rewrite !series_GetRow_missing; [reflexivity|assumption|].
      simpl. rewrite Hmap1, lookup_insert_ne by congruence. exact Hi.
Qed.

Lemma AddRow_then_GetRow_witness :
  let tbl := TimeseriesTable.NewTimeseriesTable (T:=Z) ["AAPL"; "MSFT"] in
  let values : gmap string Z := {["AAPL" := 5]} in
  exists tbl' data,
    TimeseriesTable.AddRow tbl (Time.mk 1 0) (map_to_list values) = Ret (tbl', None)
    /\ TimeseriesTable.GetRow 0 tbl' (Time.mk 1 0) = Ret (Some data)
    /\ data !! "AAPL" = Some 5
    /\ data !! "MSFT" = Some 0.
Proof.
  intros tbl values.
  assert (Hknown : forall column, is_Some (values !! column) ->
                                  column ∈ TimeseriesTable.Cols tbl).
  { intros column [v Hv]. apply lookup_singleton_Some in Hv as [<- _]. left. }
  destruct (AddRow_then_GetRow 0 tbl (Time.mk 1 0) values (map_to_list values)
              (NewTimeseriesTable_wf ["AAPL"; "MSFT"]) eq_refl (reflexivity _) Hknown)
    as (tbl' & data & Hrun & _ & Hget & Hdata & _).
  exists tbl', data. split; [exact Hrun|]. split; [exact Hget|].
  split; rewrite Hdata; reflexivity.
Defined.

(** X23. [AddRow] is not all or nothing. Under a new timestamp, with a value
    for a name that is no column of the table, it reports that name as
    missing, yet the row it has created stays: the table has one row more,
    the timestamp is taken, and adding under it again is refused as a
    duplicate. *)
Theorem AddRow_keeps_failed_row {T : Type} (tbl : TimeseriesTable.t T)
    (timestamp : Time.t) (row : list (string * T)) :
  seriesWf tbl ->
  TimeseriesTable.timestampMap tbl !! timestamp = None ->
  Exists (fun kv => fst kv ∉ TimeseriesTable.Cols tbl) row ->
  exists tbl' column,
    TimeseriesTable.AddRow tbl timestamp row = Ret (tbl', Some (ErrColumnMissing column))
    /\ column ∈ row.*1
    /\ (column ∉ TimeseriesTable.Cols tbl)
    /\ seriesWf tbl'
    /\ Table.NumRows (TimeseriesTable.table tbl')
       = Table.NumRows (TimeseriesTable.table tbl) + 1
    /\ TimeseriesTable.timestampArr tbl' = TimeseriesTable.timestampArr tbl ++ [timestamp]
    /\ (forall again,
           TimeseriesTable.AddRow tbl' timestamp again
           = Ret (tbl', Some (ErrTimestampExists timestamp))).
Proof.
  intros Hwf Hfresh Hex.
  assert (Hcols : forall c, Table.columnMap (TimeseriesTable.table tbl) !! c = None
                            <-> c ∉ TimeseriesTable.Cols tbl).
  { destruct Hwf as ((_ & Hmap & Hin) & _). intros c. split.
    - intros Hnone Hc. apply Hin in Hc as [ci Hci]. congruence.
    - intros Hout. destruct (Table.columnMap (TimeseriesTable.table tbl) !! c) as [ci|] eqn:Hci;
        [|reflexivity].
      exfalso. apply Hout. destruct (Hmap _ _ Hci) as [_ Hcol].
      eapply list_elem_of_lookup_2, Hcol. }
  destruct (CreateRow_fresh tbl timestamp Hwf Hfresh)
    as (tbl1 & Hcreate & Hwf1 & Hmap1 & Harr1 & Htb1 & _).
  set (n := len (Table.rows (TimeseriesTable.table tbl))) in *.
  set (entries := (fun kv : string * T => (fst kv, Some (snd kv))) <$> row).
  assert (Hn : 0 <= n < len (Table.rows (TimeseriesTable.table tbl1))).
  { rewrite Htb1. unfold Table.NewRow, n, len. simpl. rewrite length_app. simpl. lia. }
  assert (Hcm1 : Table.columnMap (TimeseriesTable.table tbl1)
                 = Table.columnMap (TimeseriesTable.table tbl))
    by (rewrite Htb1; reflexivity).
  destruct (setValues_unknown entries (TimeseriesTable.table tbl1) n)
    as (tb' & column & Hset & Hin & Hunknown & Hwf' & Hlen'); try assumption.
  { apply Hwf1. }
  { unfold entries. rewrite Exists_fmap. eapply Exists_impl; [exact Hex|].
    intros [c v] Hc. simpl in *. rewrite Hcm1. apply Hcols, Hc. }
  exists (TimeseriesTable.with_table tb' tbl1), column.
  split; [|split; [|split; [|split; [|split; [|split]]]]].
  - unfold TimeseriesTable.AddRow. rewrite Hcreate.
    unfold TimeseriesTable.SetRow, TimeseriesTable.GetIndexFor, Table.SetRow,
      Table.InsertRowAtIndex.
    rewrite Hmap1, lookup_insert_eq. fold entries.
    rewrite (proj2 (in_range_spec _ _) Hn), Hset. reflexivity.
  - unfold entries in Hin. rewrite <- list_fmap_compose in Hin. exact Hin.
  - apply Hcols. rewrite <- Hcm1. exact Hunknown.
  - apply seriesWf_with_table; assumption.
  - cbn [TimeseriesTable.with_table TimeseriesTable.table]. unfold Table.NumRows, len.
    rewrite Hlen', Htb1. unfold Table.NewRow. simpl. rewrite length_app. simpl. lia.
  - exact Harr1.
  - intros again. unfold TimeseriesTable.AddRow, TimeseriesTable.CreateRow.
    cbn [TimeseriesTable.with_table TimeseriesTable.timestampMap].
    rewrite Hmap1, lookup_insert_eq. reflexivity.
Qed.

Lemma AddRow_keeps_failed_row_witness :
  let tbl := TimeseriesTable.NewTimeseriesTable (T:=Z) ["AAPL"] in
  exists tbl',
    TimeseriesTable.AddRow tbl (Time.mk 1 0) [("AAPL", 5); ("GOOG", 7)]
    = Ret (tbl', Some (ErrColumnMissing "GOOG"))
    /\ TimeseriesTable.timestampArr tbl' = [Time.mk 1 0].
Proof.
  intros tbl.
  assert (Hex : Exists (fun kv : string * Z => fst kv ∉ TimeseriesTable.Cols tbl)
                       [("AAPL", 5); ("GOOG", 7)]).
  { right. left. simpl. intros Hin. apply list_elem_of_singleton in Hin. discriminate. }
  destruct (AddRow_keeps_failed_row tbl (Time.mk 1 0) [("AAPL", 5); ("GOOG", 7)]
              (NewTimeseriesTable_wf ["AAPL"]) eq_refl Hex)
    as (tbl' & column & Hrun & _ & _ & _ & _ & Harr & _).
  exists tbl'. split; [|exact Harr].
  rewrite Hrun. vm_compute in Hrun. inversion Hrun. reflexivity.
Defined.

(** X24. What the setters answer when there is nothing to set. [SetRow] under
    a timestamp the table does not have goes to the table with index -1 and
    is refused as out of range; [SetValue] under such a timestamp reports the
    timestamp as not found; and [SetValue] for a name that is no column
    reports no error at all. In each case the table is what it was. *)
Theorem setters_with_nothing_to_set {T : Type} (tbl : TimeseriesTable.t T)
    (timestamp : Time.t) :
  seriesWf tbl ->
  (TimeseriesTable.timestampMap tbl !! timestamp = None ->
   (forall row, TimeseriesTable.SetRow tbl timestamp row
                = Ret (tbl, Some (ErrIndexOutOfRange (-1))))
   /\ (forall column value,
          TimeseriesTable.SetValue tbl timestamp column value
          = Ret (tbl, Some (ErrTimestampNotFound timestamp))))
  /\ (is_Some (TimeseriesTable.timestampMap tbl !! timestamp) ->
      forall column value,
        column ∉ TimeseriesTable.Cols tbl ->
        TimeseriesTable.SetValue tbl timestamp column value = Ret (tbl, None)).
Proof.
  intros Hwf. split.
  - intros Hts. split.
    + intros row. unfold TimeseriesTable.SetRow, TimeseriesTable.GetIndexFor, Table.SetRow,
        Table.InsertRowAtIndex.
      rewrite Hts. simpl. rewrite with_table_same. reflexivity.
    + intros column value. unfold TimeseriesTable.SetValue, TimeseriesTable.GetIndexFor.
      rewrite Hts. reflexivity.
  - intros [i Hts] column value Hout.
    unfold TimeseriesTable.SetValue, TimeseriesTable.GetIndexFor, Table.Set_.
    rewrite Hts. simpl.
    rewrite SetValueByIndex_unknown; [simpl; rewrite with_table_same; reflexivity|].
    destruct Hwf as ((_ & Hmap & _) & _).
    destruct (Table.columnMap (TimeseriesTable.table tbl) !! column) as [ci|] eqn:Hci;
      [|reflexivity].
    exfalso. apply Hout. destruct (Hmap _ _ Hci) as [_ Hcol].
    eapply list_elem_of_lookup_2, Hcol.
Qed.

Lemma setters_with_nothing_to_set_witness :
  let tbl := TimeseriesTable.NewTimeseriesTable (T:=Z) ["AAPL"] in
  TimeseriesTable.SetRow tbl (Time.mk 1 0) [("AAPL", 5)]
  = Ret (tbl, Some (ErrIndexOutOfRange (-1)))
  /\ TimeseriesTable.SetValue tbl (Time.mk 1 0) "AAPL" 5
     = Ret (tbl, Some (ErrTimestampNotFound (Time.mk 1 0))).
Proof.
  intros tbl.
  destruct (proj1 (setters_with_nothing_to_set tbl (Time.mk 1 0)
                     (NewTimeseriesTable_wf ["AAPL"])) eq_refl)
    as [Hrow Hvalue].
  split; [apply Hrow|apply Hvalue].
Defined.

Lemma notAfter_instants (l : list Time.t) :
  StronglySorted Time.notAfter l -> StronglySorted Z.le (Time.instant <$> l).
Proof.
  induction 1 as [|x l Hsorted IH Hall]; simpl; constructor; [exact IH|].
  rewrite Forall_fmap. eapply Forall_impl; [exact Hall|].
  intros y. unfold Time.notAfter, Time.Before. simpl. lia.
Qed.

Lemma StronglySorted_pairs {A} (R : A -> A -> Prop) (l : list A) :
  StronglySorted R l ->
  forall (i j : nat) a b, (i < j)%nat -> l !! i = Some a -> l !! j = Some b -> R a b.
Proof.
  induction 1 as [|x l Hsorted IH Hall]; intros i j a b Hij Ha Hb; [inversion Ha|].
  destruct j as [|j]; [lia|]. simpl in Hb. destruct i as [|i].
  - inversion Ha; subst a. rewrite Forall_forall in Hall.
    apply Hall. eapply list_elem_of_lookup_2, Hb.
  - simpl in Ha. apply (IH i j); [lia|assumption..].
Qed.

Lemma StronglySorted_strict (l : list Z) :
  StronglySorted Z.le l -> NoDup l -> StronglySorted Z.lt l.
Proof.
  induction 1 as [|x l Hsorted IH Hall]; intros Hnodup; constructor.
  - apply IH. apply NoDup_cons in Hnodup as [_ ?]. assumption.
  - apply NoDup_cons in Hnodup as [Hx _].
    rewrite Forall_forall in *. intros y Hy.
    assert (x <> y) by (intros ->; contradiction).
    pose proof (Hall y Hy). lia.
Qed.

(** X25. The rows the runner walks. [Rows] hands out the timestamps of the
    table, each key once, and so that none is before one ahead of it: the
    instants of the rows ascend, and strictly so when no two keys of the
    table are of one instant. Two keys of one instant each have a row, one
    next to the other. Handing the rows out again gives the same rows. Every
    row has data: [Get] answers a map with exactly the columns of the table.
    A run of [Start] over these rows therefore never ends in a data error. *)
Theorem Rows_ascending_with_data (tbl : TimeseriesTable.t Candle.t) :
  seriesWf tbl ->
  let timestamps := snd (TimeseriesTable.Rows tbl) in
  let rows := runnerRows tbl in
  (timestamps ≡ₚ TimeseriesTable.timestampArr tbl /\ NoDup timestamps)
  /\ (forall (i j : nat) a b,
         (i < j)%nat -> timestamps !! i = Some a -> timestamps !! j = Some b ->
         Time.Before b a = false)
  /\ TimeseriesRow.Timestamp <$> rows = Time.instant <$> timestamps
  /\ StronglySorted Z.le (TimeseriesRow.Timestamp <$> rows)
  /\ (NoDup (Time.instant <$> TimeseriesTable.timestampArr tbl) ->
      StronglySorted Z.lt (TimeseriesRow.Timestamp <$> rows))
  /\ snd (TimeseriesTable.Rows (fst (TimeseriesTable.Rows tbl)))
     = snd (TimeseriesTable.Rows tbl)
  /\ Forall (fun row =>
               exists data,
                 TimeseriesRow.Get row = Some data
                 /\ forall column, is_Some (data !! column)
                                   <-> column ∈ TimeseriesTable.Cols tbl) rows
  /\ (forall (S : Type) (H : Strategy S) (r r' : Runner.t S) (e : error),
         Runner.Data r = Some rows ->
         Runner.Start r = (r', Some e) ->
         forall timestamp, e <> ErrData timestamp).
Proof.
  intros Hwf timestamps rows.
  destruct (Rows_wf tbl Hwf) as (Hwf' & Hclean & Harr & Hperm).
  assert (Hsorted : StronglySorted Time.notAfter timestamps).
  { unfold timestamps. rewrite Harr.
    destruct Hwf' as (_ & _ & _ & _ & _ & Hsorted). apply Hsorted, Hclean. }
  assert (Htimes : TimeseriesRow.Timestamp <$> rows = Time.instant <$> timestamps).
  { unfold rows, timestamps, runnerRows.
    destruct (TimeseriesTable.Rows tbl) as [tbl' arr].
    rewrite <- list_fmap_compose. reflexivity. }
  assert (Hdata : Forall (fun row =>
               exists data,
                 TimeseriesRow.Get row = Some data
                 /\ forall column, is_Some (data !! column)
                                   <-> column ∈ TimeseriesTable.Cols tbl) rows).
  { unfold rows, runnerRows.
    destruct (TimeseriesTable.Rows tbl) as [tbl' arr] eqn:Hrows.
    simpl in Hwf', Harr, Hclean.
    assert (Htable : TimeseriesTable.table tbl' = TimeseriesTable.table tbl).
    { unfold TimeseriesTable.Rows in Hrows. inversion Hrows. reflexivity. }
    rewrite Forall_fmap. apply Forall_forall. intros ts Hts. simpl.
    pose proof Hwf' as (Htb & Hrange & _ & _ & Hmem & _).
    rewrite Harr in Hts. apply Hmem in Hts as [i Hi].
    destruct (series_GetRow (Candle.mk 0 0 0 0 0) tbl' ts i Hwf' Hi) as (data & Hget & Hlook).
    unfold TimeseriesTable.RowGet. rewrite Hget. exists data. split; [reflexivity|].
    intros column. rewrite Hlook. unfold TimeseriesTable.Cols, Table.Cols. rewrite <- Htable.
    destruct Htb as (Hrows' & Hmap & Hin). split.
    - intros [v Hv].
      destruct (Table.columnMap (TimeseriesTable.table tbl') !! column) as [ci|] eqn:Hci.
      + destruct (Hmap _ _ Hci) as [_ Hcol]. eapply list_elem_of_lookup_2, Hcol.
      + rewrite (cell_unknown _ _ _ Hci) in Hv. discriminate.
    - intros Hcol.
      destruct (cell_is_Some (TimeseriesTable.table tbl') i column) as [v ->];
        [split; [assumption|split; assumption]|eapply Hrange; eassumption|apply Hin, Hcol|].
      eexists; reflexivity. }
  split.
  { split; [exact Hperm|]. unfold timestamps. rewrite Hperm. apply Hwf. }
  split.
  { intros i j a b Hij Ha Hb.
    exact (StronglySorted_pairs Time.notAfter timestamps Hsorted i j a b Hij Ha Hb). }
  split; [exact Htimes|].
  split; [rewrite Htimes; apply notAfter_instants, Hsorted|].
  split.
  { intros Hdistinct. rewrite Htimes. apply StronglySorted_strict.
    - apply notAfter_instants, Hsorted.
    - unfold timestamps. rewrite Hperm. exact Hdistinct. }
  split.
  { unfold TimeseriesTable.Rows at 1. rewrite Hclean. simpl. symmetry. exact Harr. }
  split; [exact Hdata|].
  intros S H r r' e Hrows Hrun timestamp ->.
  unfold Runner.Start in Hrun.
  destruct (Runner.validateComponents r); [discriminate|].
  rewrite Hrows in Hrun.
  destruct (runRows_failure r rows r' _ Hrun)
    as (done & row & rest & posts & rq & Hsplit & _ & _ & _ & Hbad).
  assert (Hrow : row ∈ rows) by (rewrite Hsplit; apply elem_of_app; right; left).
  rewrite Forall_forall in Hdata. destruct (Hdata row Hrow) as (data & Hget & _).
  rewrite Hget in Hbad. destruct Hbad as (cause & _ & Hcause). discriminate.
Qed.

Lemma Rows_ascending_with_data_witness :
  let candle (close : float) : Candle.t := Candle.mk close close close close 1 in
  let fresh := TimeseriesTable.NewTimeseriesTable (T:=Candle.t) ["AAPL"] in
  exists tbl,
    tableCalls fresh [CallAddRow (Time.mk 3 0) [("AAPL", candle 95%float)];
                      CallAddRow (Time.mk 1 1) [("AAPL", candle 120%float)];
                      CallAddRow (Time.mk 1 0) [("AAPL", candle 110%float)]]
    = Ret tbl
    /\ seriesWf tbl
    /\ TimeseriesTable.timestampArr tbl = [Time.mk 3 0; Time.mk 1 1; Time.mk 1 0]
    /\ snd (TimeseriesTable.Rows tbl) ≡ₚ [Time.mk 3 0; Time.mk 1 1; Time.mk 1 0]
    /\ TimeseriesRow.Timestamp <$> runnerRows tbl = [1; 1; 3]
    /\ StronglySorted Z.le (TimeseriesRow.Timestamp <$> runnerRows tbl)
    /\ Forall (fun row => is_Some (TimeseriesRow.Get row)) (runnerRows tbl).
Proof.
  intros candle fresh.
  destruct (tableCalls_wf [CallAddRow (Time.mk 3 0) [("AAPL", candle 95%float)];
                           CallAddRow (Time.mk 1 1) [("AAPL", candle 120%float)];
                           CallAddRow (Time.mk 1 0) [("AAPL", candle 110%float)]] fresh
              (NewTimeseriesTable_wf ["AAPL"]))
    as (tbl & Hrun & Hwf).
  assert (Harr : TimeseriesTable.timestampArr tbl = [Time.mk 3 0; Time.mk 1 1; Time.mk 1 0]).
  { vm_compute in Hrun. inversion Hrun. reflexivity. }
  destruct (Rows_ascending_with_data tbl Hwf)
    as ([Hperm _] & _ & Htimes & Hsorted & _ & _ & Hdata & _).
  exists tbl. split; [exact Hrun|]. split; [exact Hwf|]. split; [exact Harr|].
  split; [rewrite <- Harr; exact Hperm|].
  split; [|split; [exact Hsorted|]].
  - vm_compute in Hrun. inversion Hrun. vm_compute. reflexivity.
  - eapply Forall_impl; [exact Hdata|]. intros row (data & -> & _). eexists; reflexivity.
Defined.

Section TableColumns.
Context {V : Type}.
Implicit Types (tb : Table.t V).

Lemma columnValues_spec (rows : list (Table.Row V)) : forall ci values,
  0 <= ci -> Forall (fun row : Table.Row V => (Z.to_nat ci < length row)%nat) rows ->
  Table.columnValues ci rows values
  = Ret (values ++ ((fun row => default None (row !! Z.to_nat ci)) <$> rows)).
Proof.
  induction rows as [|row rows IH]; intros ci values Hci Hall; simpl.
  - rewrite app_nil_r. reflexivity.
  - apply Forall_cons in Hall as [Hrow Hall].
    destruct (lookup_lt_is_Some_2 _ _ Hrow) as [value Hvalue].
    rewrite (elem_Ret _ _ value) by assumption. cbn [mbind run_bind].
    rewrite IH by assumption. unfold Table.Row in *. rewrite Hvalue. simpl.
    rewrite <- app_assoc. reflexivity.
Qed.
End TableColumns.

(** X26. [GetColumnValues] of a column of the table answers twice as many
    values as the table has rows: a [nil] for every row, and behind them the
    cells of the column from the first row to the last. For a name that is no
    column it answers nothing. *)
Theorem GetColumnValues_doubles {V : Type} (tb : Table.t V) (column : string) :
  tableWf tb ->
  (column ∈ Table.Cols tb ->
   exists values,
     Table.GetColumnValues tb column = Ret (Some values)
     /\ len values = 2 * Table.NumRows tb
     /\ take (length (Table.rows tb)) values = replicate (length (Table.rows tb)) None
     /\ (forall i, 0 <= i < Table.NumRows tb ->
                   values !! (length (Table.rows tb) + Z.to_nat i)%nat = cell tb i column))
  /\ (column ∉ Table.Cols tb -> Table.GetColumnValues tb column = Ret None).
Proof.
  intros Hwf. pose proof Hwf as (Hrows & Hmap & Hin). split.
  - intros Hcol. apply Hin in Hcol as [ci Hci].
    destruct (Hmap _ _ Hci) as [Hpos Hname].
    unfold Table.GetColumnValues. rewrite Hci.
    rewrite columnValues_spec; [|assumption|].
    2:{ eapply Forall_impl; [exact Hrows|]. intros row ->. eapply lookup_lt_Some, Hname. }
    cbn [mbind run_bind]. eexists. split; [reflexivity|].
    unfold Table.NumRows, len. rewrite Nat2Z.id.
    split; [|split].
    + rewrite length_app, length_replicate, length_fmap. lia.
    + rewrite take_app_length'; [reflexivity|rewrite length_replicate; reflexivity].
    + intros i Hi. rewrite lookup_app_r by (rewrite length_replicate; lia).
      rewrite length_replicate.
      replace (length (Table.rows tb) + Z.to_nat i - length (Table.rows tb))%nat
        with (Z.to_nat i) by lia.
      rewrite list_lookup_fmap. unfold cell.
      destruct (Z.ltb_spec i 0); [lia|].
      destruct (in_range_lookup (Table.rows tb) i Hi) as [row Hrow]. rewrite Hrow, Hci. simpl.
      destruct (Z.ltb_spec ci 0); [lia|].
      assert (Hlen : (Z.to_nat ci < length row)%nat).
      { rewrite Forall_forall in Hrows.
        rewrite (Hrows row) by (eapply list_elem_of_lookup_2, Hrow).
        eapply lookup_lt_Some, Hname. }
      destruct (lookup_lt_is_Some_2 _ _ Hlen) as [value Hvalue].
      unfold Table.Row in *. rewrite Hvalue. reflexivity.
  - intros Hout. unfold Table.GetColumnValues.
    destruct (Table.columnMap tb !! column) as [ci|] eqn:Hci; [|reflexivity].
    exfalso. apply Hout. destruct (Hmap _ _ Hci) as [_ Hname].
    eapply list_elem_of_lookup_2, Hname.
Qed.

Lemma GetColumnValues_doubles_witness :
  let tb := Table.mk ["AAPL"] {["AAPL" := 0]} [[Some 5]; [Some 7]] in
  tableWf tb
  /\ Table.GetColumnValues tb "AAPL" = Ret (Some [None; None; Some 5; Some 7]).
Proof.
  intros tb.
  assert (Hwf : tableWf tb).
  { split; [repeat constructor|]. split.
    - intros column i Hi. cbn in Hi.
      apply lookup_singleton_Some in Hi as [<- <-]. split; [lia|reflexivity].
    - intros column Hin. cbn in Hin.
      apply list_elem_of_singleton in Hin as ->. eexists; reflexivity. }
  split; [exact Hwf|].
  destruct (proj1 (GetColumnValues_doubles tb "AAPL" Hwf)) as (values & Hrun & _);
    [left|].
  rewrite Hrun. vm_compute in Hrun. inversion Hrun. reflexivity.
Defined.

(** X27. [AddColumn] refuses the empty name and, after that, a name the table
    has; the table stays as it is. Any other name becomes the last column:
    the rows keep their number and their cells, every row holds the default
    value under the new name, and the table stays well formed. *)
Theorem AddColumn_adds_default {V : Type} (tb : Table.t V) (name : string)
    (defaultValue : option V) :
  tableWf tb ->
  (name = "" -> Table.AddColumn tb name defaultValue = (tb, Some ErrEmptyColumnName))
  /\ (name <> "" -> name ∈ Table.Cols tb ->
      Table.AddColumn tb name defaultValue = (tb, Some (ErrColumnExists name)))
  /\ (name <> "" -> name ∉ Table.Cols tb ->
      exists tb',
        Table.AddColumn tb name defaultValue = (tb', None)
        /\ tableWf tb'
        /\ Table.Cols tb' = Table.Cols tb ++ [name]
        /\ Table.NumRows tb' = Table.NumRows tb
        /\ (forall i column,
               cell tb' i column
               = if decide (column = name)
                 then (if decide (0 <= i < Table.NumRows tb) then Some defaultValue else None)
                 else cell tb i column)).
Proof.
  intros Hwf. pose proof Hwf as (Hrows & Hmap & Hin).
  assert (Hnew : forall c, c ∉ Table.Cols tb -> Table.columnMap tb !! c = None).
  { intros c Hout. destruct (Table.columnMap tb !! c) as [ci|] eqn:Hci; [|reflexivity].
    exfalso. apply Hout. destruct (Hmap _ _ Hci) as [_ Hname].
    eapply list_elem_of_lookup_2, Hname. }
  unfold Table.AddColumn. split; [|split].
  - intros ->. reflexivity.
  - intros Hne Hcol. apply String.eqb_neq in Hne. rewrite Hne.
    apply Hin in Hcol as [ci ->]. reflexivity.
  - intros Hne Hout. apply String.eqb_neq in Hne. rewrite Hne, (Hnew _ Hout).
    eexists. split; [reflexivity|].
    assert (Hlast : len (Table.columns tb ++ [name]) - 1 = len (Table.columns tb)).
    { unfold len. rewrite length_app. simpl. lia. }
    rewrite Hlast.
    split; [|split; [reflexivity|split]].
    + unfold tableWf. simpl. split; [|split].
      * rewrite Forall_fmap. eapply Forall_impl; [exact Hrows|].
        intros row Hrow. simpl. rewrite !length_app, Hrow. reflexivity.
      * intros c i Hc. destruct (decide (c = name)) as [->|Hcn].
        -- rewrite lookup_insert_eq in Hc. inversion Hc; subst i. unfold len.
           split; [lia|]. rewrite Nat2Z.id, lookup_app_r by lia.
           rewrite Nat.sub_diag. reflexivity.
        -- rewrite lookup_insert_ne in Hc by congruence.
           destruct (Hmap _ _ Hc) as [Hi Hname]. split; [assumption|].
           rewrite lookup_app_l; [assumption|]. eapply lookup_lt_Some, Hname.
      * intros c Hc. apply elem_of_app in Hc as [Hc|Hc].
        -- destruct (decide (c = name)) as [->|Hcn];
             [rewrite lookup_insert_eq; eexists; reflexivity|].
           rewrite lookup_insert_ne by congruence. apply Hin, Hc.
        -- apply list_elem_of_singleton in Hc as ->. rewrite lookup_insert_eq.
           eexists; reflexivity.
    + unfold Table.NumRows, len. simpl. rewrite length_fmap. reflexivity.
    + intros i c. unfold cell, Table.NumRows. simpl.
      destruct (Z.ltb_spec i 0) as [Hneg|Hpos].
      { destruct (decide (c = name)); [|reflexivity].
        destruct (decide _) as [?|_]; [lia|reflexivity]. }
      rewrite list_lookup_fmap.
      unfold Table.Row in *.
      match goal with
      | |- context [fmap _ ?x ≫= _] => destruct x as [row|] eqn:Hrow
      end; simpl.
      * assert (Hlen : length row = length (Table.columns tb)).
        { rewrite Forall_forall in Hrows. apply Hrows. eapply list_elem_of_lookup_2, Hrow. }
        destruct (decide (c = name)) as [->|Hcn].
        -- rewrite lookup_insert_eq. simpl.
           destruct (Z.ltb_spec (len (Table.columns tb)) 0); [unfold len in *; lia|].
           unfold len. rewrite Nat2Z.id, lookup_app_r by lia.
           rewrite Hlen, Nat.sub_diag. simpl.
           destruct (decide _) as [_|Hno]; [reflexivity|].
           exfalso. apply Hno. apply lookup_lt_Some in Hrow. lia.
        -- rewrite lookup_insert_ne by congruence.
           destruct (Table.columnMap tb !! c) as [ci|] eqn:Hci; simpl; [|reflexivity].
           destruct (ci <? 0); [reflexivity|].
           destruct (Hmap _ _ Hci) as [_ Hname]. apply lookup_lt_Some in Hname.
           rewrite lookup_app_l by lia. reflexivity.
      * destruct (decide (c = name)); [|reflexivity].
        destruct (decide _) as [Hyes|_]; [|reflexivity].
        apply lookup_ge_None_1 in Hrow. unfold len in Hyes. lia.
Qed.

Lemma AddColumn_adds_default_witness :
  let tb := Table.NewTable (V:=Z) ["AAPL"] in
  Table.AddColumn tb "" None = (tb, Some ErrEmptyColumnName)
  /\ Table.AddColumn tb "AAPL" None = (tb, Some (ErrColumnExists "AAPL"))
  /\ exists tb', Table.AddColumn tb "MSFT" None = (tb', None)
                 /\ Table.Cols tb' = ["AAPL"; "MSFT"].
Proof.
  intros tb.
  destruct (AddColumn_adds_default tb "" None (NewTable_wf ["AAPL"])) as (Hempty & _).
  destruct (AddColumn_adds_default tb "AAPL" None (NewTable_wf ["AAPL"])) as (_ & Hdup & _).
  destruct (AddColumn_adds_default tb "MSFT" None (NewTable_wf ["AAPL"])) as (_ & _ & Hadd).
  split; [exact (Hempty eq_refl)|].
  split; [apply Hdup; [discriminate|left]|].
  destruct Hadd as (tb' & Hrun & _ & Hcols & _).
  - discriminate.
  - intros Hin. apply list_elem_of_singleton in Hin. discriminate.
  - exists tb'. split; [exact Hrun|exact Hcols].
Defined.

(** ** Indicators *)

Section LoopFacts.
Lemma forLoop_addClose candles : forall n j sum,
  0 <= j -> (Z.to_nat j + n <= length candles)%nat ->
  forLoop (addClose candles) j n sum
  = Ret (sumCloses (take n (drop (Z.to_nat j) candles)) sum).
Proof.
  induction n as [|n IH]; intros j sum Hj Hlen; [reflexivity|].
  cbn [forLoop].
  destruct (lookup_lt_is_Some_2 candles (Z.to_nat j)) as [c Hc]; [lia|].
  assert (Hstep : addClose candles sum j = Ret (sum + Candle.Close c)%float).
  { unfold addClose. rewrite (elem_Ret _ _ c) by assumption. reflexivity. }
  rewrite Hstep. cbn [mbind run_bind].
  rewrite IH by lia.
  replace (Z.to_nat (j + 1)) with (S (Z.to_nat j)) by lia.
  rewrite (drop_S _ _ _ Hc). reflexivity.
Qed.

(** A loop whose body sets slot [i] to a value that depends on [i] only. *)
Lemma forLoop_set {A} (body : list A -> Z -> run (list A)) (f : Z -> A) : forall n i st,
  0 <= i ->
  (forall j st, i <= j < i + Z.of_nat n -> body st j = Ret (<[Z.to_nat j := f j]> st)) ->
  exists st',
    forLoop body i n st = Ret st'
    /\ length st' = length st
    /\ forall k : nat,
        st' !! k = if decide (i <= Z.of_nat k < i + Z.of_nat n /\ (k < length st)%nat)
                   then Some (f (Z.of_nat k)) else st !! k.
Proof.
  induction n as [|n IH]; intros i st Hi Hbody.
  - exists st. split; [reflexivity|]. split; [reflexivity|]. intros k.
    destruct (decide _) as [[? _]|_]; [lia|reflexivity].
  - cbn [forLoop]. rewrite Hbody by lia. cbn [mbind run_bind].
    destruct (IH (i + 1) (<[Z.to_nat i := f i]> st)) as (st' & Hrun & Hlen & Hlook); [lia| |].
    { intros j st0 Hj. apply Hbody. lia. }
    exists st'. split; [exact Hrun|]. rewrite length_insert in Hlen. split; [exact Hlen|].
    intros k. rewrite Hlook, length_insert.
    destruct (decide (Z.of_nat k = i)) as [Hk|Hk].
    + subst i. rewrite Nat2Z.id.
      destruct (decide (_ /\ _)) as [[? _]|_]; [lia|].
      destruct (decide (k < length st)%nat) as [Hin|Hout].
      * rewrite list_lookup_insert_eq by assumption.
        destruct (decide _) as [_|Hno]; [reflexivity|]. exfalso. apply Hno. lia.
      * rewrite list_insert_ge by lia.
        destruct (decide _) as [[_ ?]|_]; [lia|reflexivity].
    + destruct (decide (i + 1 <= Z.of_nat k < i + 1 + Z.of_nat n /\ (k < length st)%nat))
        as [Hyes|Hno].
      * destruct (decide _) as [_|Hno]; [reflexivity|]. exfalso. apply Hno. lia.
      * rewrite list_lookup_insert_ne by lia.
        destruct (decide _) as [Hyes|_]; [|reflexivity]. exfalso. apply Hno. lia.
Qed.

(** A loop whose body panics at [i0], having returned until then. *)
Lemma forLoop_panic {St} (body : St -> Z -> run St) (i0 : Z) : forall n i st,
  i <= i0 < i + Z.of_nat n ->
  (forall j st, i <= j < i0 -> exists st', body st j = Ret st') ->
  (forall st, body st i0 = Panic) ->
  forLoop body i n st = Panic.
Proof.
  induction n as [|n IH]; intros i st Hi Hbefore Hat; [lia|].
  cbn [forLoop]. destruct (decide (i = i0)) as [->|Hne].
  - rewrite Hat. reflexivity.
  - destruct (Hbefore i st) as [st' ->]; [lia|]. cbn [mbind run_bind].
    apply IH; [lia| |assumption]. intros j st0 Hj. apply Hbefore. lia.
Qed.
End LoopFacts.

Section SMAFacts.
Lemma SMA_step period candles result i :
  0 <= i < len candles ->
  len candles <= Int.max_int ->
  i + 1 - period <= Int.max_int ->
  SMA.step (SMA.NewSMA period) candles result i
  = Ret (<[Z.to_nat i := smaValue period candles (Z.to_nat i)]> result).
Proof.
  intros Hi Hlen Hperiod. unfold SMA.step, smaValue. simpl.
  rewrite Z2Nat.id by lia.
  destruct (Z.ltb_spec (i + 1) period) as [Hwarm|Hfull]; [reflexivity|].
  assert (Hfrom : Int.sub (i + 1) period = i + 1 - period).
  { unfold Int.sub. apply wrap_in_range.
    unfold Int.in_range, Int.min_int, Int.max_int, len in *. lia. }
  rewrite Hfrom.
  assert (Hsum : forLoop (addClose candles) (i + 1 - period)
                         (Z.to_nat (i - (i + 1 - period) + 1)) 0%float
                 = Ret (sumCloses (window period candles (Z.to_nat i)) 0)).
  { unfold window. rewrite Z2Nat.id by lia.
    replace (i - (i + 1 - period) + 1) with period by lia.
    destruct (Z.to_nat period) as [|p] eqn:Hp; [reflexivity|].
    rewrite <- Hp. apply forLoop_addClose; [lia|]. unfold len in *. lia. }
  rewrite Hsum. reflexivity.
Qed.

(** Where [i+1-period] is beyond the largest [int], the start of the window
    wraps to a negative index. *)
Lemma SMA_step_wraps period candles result i :
  0 <= i < len candles ->
  len candles <= Int.max_int ->
  Int.min_int <= period ->
  Int.max_int < i + 1 - period ->
  SMA.step (SMA.NewSMA period) candles result i = Panic.
Proof.
  intros Hi Hlen Hmin Hwrap. unfold SMA.step. simpl.
  destruct (Z.ltb_spec (i + 1) period) as [Hwarm|_].
  { unfold Int.max_int in *. lia. }
  assert (Hfrom : Int.sub (i + 1) period = i + 1 - period - 2 ^ 64).
  { unfold Int.sub, Int.wrap.
    replace (i + 1 - period + 2 ^ 63) with (i + 1 - period - 2 ^ 63 + 1 * 2 ^ 64) by lia.
    rewrite Z_mod_plus_full, Z.mod_small; unfold Int.min_int, Int.max_int in *; lia. }
  rewrite Hfrom.
  destruct (Z.to_nat (i - (i + 1 - period - 2 ^ 64) + 1)) as [|n] eqn:Hn.
  { unfold Int.min_int, Int.max_int in *. lia. }
  assert (Hread : addClose candles 0 (i + 1 - period - 2 ^ 64) = Panic).
  { unfold addClose, elem.
    destruct (Z.ltb_spec (i + 1 - period - 2 ^ 64) 0) as [_|Hpos]; [reflexivity|].
    unfold Int.min_int, Int.max_int in *. lia. }
  cbn [forLoop]. rewrite Hread. reflexivity.
Qed.

Lemma SMA_Calculate_wraps period candles :
  candles <> [] ->
  len candles <= Int.max_int ->
  Int.min_int <= period < len candles - Int.max_int ->
  SMA.Calculate (SMA.NewSMA period) candles = Panic.
Proof.
  intros Hcandles Hlen Hperiod. unfold SMA.Calculate.
  assert (Hsome : 0 < len candles).
  { destruct candles; [congruence|]. unfold len. simpl. lia. }
  apply (forLoop_panic _ (Z.max 0 (period + Int.max_int))).
  - unfold len in *. lia.
  - intros j st Hj. eexists. apply SMA_step; lia.
  - intros st. apply SMA_step_wraps; lia.
Qed.

Lemma SMA_Calculate_spec period candles :
  len candles <= Int.max_int ->
  len candles - Int.max_int <= period ->
  exists result,
    SMA.Calculate (SMA.NewSMA period) candles = Ret result
    /\ length result = length candles
    /\ forall i, (i < length candles)%nat -> result !! i = Some (smaValue period candles i).
Proof.
  intros Hlen Hperiod. unfold SMA.Calculate.
  destruct (forLoop_set (SMA.step (SMA.NewSMA period) candles)
              (fun j => smaValue period candles (Z.to_nat j))
              (length candles) 0 (replicate (length candles) None))
    as (result & Hrun & Hlength & Hlook); [lia| |].
  { intros j st Hj. apply SMA_step; unfold len in *; lia. }
  exists result. split; [exact Hrun|]. rewrite length_replicate in Hlength.
  split; [exact Hlength|]. intros i Hi. rewrite Hlook, length_replicate, Nat2Z.id.
  destruct (decide _) as [_|Hno]; [reflexivity|]. exfalso. apply Hno. lia.
Qed.

Lemma window_app period candles more i :
  (i < length candles)%nat -> period <= Z.of_nat i + 1 ->
  window period (candles ++ more) i = window period candles i.
Proof.
  intros Hi Hfull. unfold window.
  destruct (Z.to_nat period) as [|p] eqn:Hp; [reflexivity|].
  rewrite drop_app_le by lia. rewrite take_app_le; [reflexivity|].
  rewrite length_drop. lia.
Qed.

Lemma smaValue_app period candles more i :
  (i < length candles)%nat ->
  smaValue period (candles ++ more) i = smaValue period candles i.
Proof.
  intros Hi. unfold smaValue, windowMean.
  destruct (Z.ltb_spec (Z.of_nat i + 1) period); [reflexivity|].
  rewrite window_app by assumption. reflexivity.
Qed.

Lemma prefix_by_lookup {A} (short long : list A) :
  (length short <= length long)%nat ->
  (forall i, (i < length short)%nat -> short !! i = long !! i) ->
  short `prefix_of` long.
Proof.
  intros Hlen Hlook. exists (drop (length short) long).
  rewrite <- (take_drop (length short) long) at 1. f_equal.
  apply list_eq. intros i. destruct (decide (i < length short)%nat) as [Hi|Hi].
  - rewrite lookup_take_lt by assumption. symmetry. apply Hlook, Hi.
  - rewrite lookup_take_ge by lia. symmetry. apply lookup_ge_None_2. lia.
Qed.
End SMAFacts.

(** X28. [SMA.Calculate] on a slice of candles and a [period] for which
    [i+1-period] stays an [int] at every index, which is every period above
    [len - 2^63], answers one value per candle and never reads outside the
    slice: [nil] while fewer than [period] candles have been seen, then the
    sum of the closes of the last [period] candles, added up from the oldest,
    over the period. It does not look ahead: the values for a series are the
    first values for any longer series that starts with it. For the periods
    below, those within [len] of the smallest [int], the start of a window
    wraps to a negative index and the call on a slice that is not empty
    panics. *)
Theorem SMA_no_look_ahead (period : Z) (candles more : list Candle.t) :
  len (candles ++ more) <= Int.max_int ->
  (len (candles ++ more) - Int.max_int <= period ->
   exists result result',
     SMA.Calculate (SMA.NewSMA period) candles = Ret result
     /\ SMA.Calculate (SMA.NewSMA period) (candles ++ more) = Ret result'
     /\ length result = length candles
     /\ (forall i, (i < length candles)%nat ->
                   result !! i
                   = Some (if Z.of_nat i + 1 <? period then None
                           else Some (windowMean period candles i)))
     /\ result `prefix_of` result')
  /\ (Int.min_int <= period < len candles - Int.max_int ->
      candles <> [] ->
      SMA.Calculate (SMA.NewSMA period) candles = Panic
      /\ SMA.Calculate (SMA.NewSMA period) (candles ++ more) = Panic).
Proof.
  intros Hlen.
  assert (Hshort : len candles <= len (candles ++ more))
    by (unfold len; rewrite length_app; lia).
  split.
  - intros Hperiod.
    destruct (SMA_Calculate_spec period candles) as (result & Hrun & Hlength & Hlook); [lia..|].
    destruct (SMA_Calculate_spec period (candles ++ more) Hlen Hperiod)
      as (result' & Hrun' & Hlength' & Hlook').
    exists result, result'. split; [exact Hrun|]. split; [exact Hrun'|].
    split; [exact Hlength|]. split; [exact Hlook|].
    apply prefix_by_lookup.
    + rewrite Hlength, Hlength', length_app. lia.
    + intros i Hi. rewrite Hlength in Hi.
      rewrite Hlook by assumption. rewrite Hlook' by (rewrite length_app; lia).
      rewrite smaValue_app by assumption. reflexivity.
  - intros Hperiod Hcandles. split.
    + apply SMA_Calculate_wraps; [assumption|lia|assumption].
    + apply SMA_Calculate_wraps; [|assumption|lia].
      destruct candles; [congruence|discriminate].
Qed.

Lemma SMA_no_look_ahead_witness :
  let candle (close : float) : Candle.t := Candle.mk close close close close 1 in
  let candles := [candle 1; candle 2; candle 3]%float in
  let more := [candle 10]%float in
  (SMA.Calculate (SMA.NewSMA 2) candles = Ret [None; Some 1.5; Some 2.5]%float
   /\ exists result',
       SMA.Calculate (SMA.NewSMA 2) (candles ++ more) = Ret result'
       /\ [None; Some 1.5; Some 2.5]%float `prefix_of` result')
  /\ SMA.Calculate (SMA.NewSMA Int.min_int) candles = Panic
  /\ SMA.Calculate (SMA.NewSMA (Int.min_int + 3)) candles = Panic
  /\ SMA.Calculate (SMA.NewSMA (Int.min_int + 4)) candles
     = Ret [Some (0 / Int.to_float64 (Int.min_int + 4));
            Some (0 / Int.to_float64 (Int.min_int + 4));
            Some (0 / Int.to_float64 (Int.min_int + 4))]%float.
Proof.
  intros candle candles more.
  assert (Hlen : len (candles ++ more) <= Int.max_int) by (vm_compute; congruence).
  split; [|split; [|split]].
  - destruct (proj1 (SMA_no_look_ahead 2 candles more Hlen))
      as (result & result' & Hrun & Hrun' & _ & _ & Hprefix);
      [vm_compute; congruence|].
    assert (Hresult : result = [None; Some 1.5; Some 2.5]%float).
    { vm_compute in Hrun. inversion Hrun. reflexivity. }
    rewrite Hresult in *. split; [exact Hrun|].
    exists result'. split; [exact Hrun'|exact Hprefix].
  - apply (proj2 (SMA_no_look_ahead Int.min_int candles more Hlen)); [|discriminate].
    split; vm_compute; congruence.
  - apply (proj2 (SMA_no_look_ahead (Int.min_int + 3) candles more Hlen)); [|discriminate].
    split; vm_compute; congruence.
  - destruct (proj1 (SMA_no_look_ahead (Int.min_int + 4) candles [] Hlen))
      as (result & _ & Hrun & _ & Hlength & Hlook & _);
      [vm_compute; congruence|].
    rewrite Hrun. f_equal. apply list_eq. intros [|[|[|i]]].
    + rewrite (Hlook 0%nat) by (simpl; lia). reflexivity.
    + rewrite (Hlook 1%nat) by (simpl; lia). reflexivity.
    + rewrite (Hlook 2%nat) by (simpl; lia). reflexivity.
    + simpl. apply lookup_ge_None_2. rewrite Hlength. simpl. lia.
Defined.

Section EMAFacts.
Context (mulAdd : float -> float -> float -> float).

Lemma emaValue_unfold period candles i :
  emaValue mulAdd period candles i
  = if Z.of_nat i + 1 <? period then None
    else if Z.of_nat i + 1 =? period then Some (windowMean period candles i)
    else match candles !! i with
         | None => None
         | Some c =>
             Some (mulAdd (Candle.Close c - emaBefore mulAdd period candles i)%float
                          (emaMultiplier period) (emaBefore mulAdd period candles i))
         end.
Proof. destruct i; reflexivity. Qed.

Lemma emaBefore_warm period candles i :
  Z.of_nat i + 1 <= period -> emaBefore mulAdd period candles i = 0%float.
Proof.
  intros Hwarm. destruct i as [|j]; [reflexivity|]. simpl emaBefore.
  rewrite emaValue_unfold.
  destruct (Z.ltb_spec (Z.of_nat j + 1) period); [reflexivity|lia].
Qed.

Lemma EMA_step period candles result i c :
  candles !! i = Some c ->
  len candles <= Int.max_int ->
  EMA.step mulAdd (EMA.NewEMA period) candles (emaMultiplier period)
    (emaBefore mulAdd period candles i, result) (Z.of_nat i)
  = Ret (emaBefore mulAdd period candles (S i), <[i := emaValue mulAdd period candles i]> result).
Proof.
  intros Hc Hlen. unfold EMA.step. simpl EMA.period. rewrite Nat2Z.id.
  cbn [emaBefore]. rewrite (emaValue_unfold period candles i).
  pose proof (lookup_lt_Some _ _ _ Hc) as Hi.
  destruct (Z.ltb_spec (Z.of_nat i + 1) period) as [Hwarm|Hfull].
  { simpl. rewrite emaBefore_warm by lia. reflexivity. }
  destruct (Z.eqb_spec (Z.of_nat i + 1) period) as [Hseed|Hrun].
  - assert (Hsum : forLoop (addClose candles) 0 (Z.to_nat period) 0%float
                   = Ret (sumCloses (window period candles i) 0)).
    { unfold window. replace (Z.of_nat i + 1 - period) with 0 by lia.
      rewrite forLoop_addClose by lia. reflexivity. }
    rewrite Hsum. reflexivity.
  - rewrite (elem_Ret _ _ c) by (lia || rewrite Nat2Z.id; assumption).
    rewrite Hc. reflexivity.
Qed.

Lemma EMA_loop period candles : forall n i result,
  (i + n <= length candles)%nat ->
  len candles <= Int.max_int ->
  exists result',
    forLoop (EMA.step mulAdd (EMA.NewEMA period) candles (emaMultiplier period))
      (Z.of_nat i) n (emaBefore mulAdd period candles i, result)
    = Ret (emaBefore mulAdd period candles (i + n), result')
    /\ length result' = length result
    /\ forall k, result' !! k
                 = if decide (i <= k < i + n /\ k < length result)%nat
                   then Some (emaValue mulAdd period candles k) else result !! k.
Proof.
  induction n as [|n IH]; intros i result Hn Hlen.
  - exists result. rewrite Nat.add_0_r. split; [reflexivity|]. split; [reflexivity|].
    intros k. destruct (decide _) as [[? _]|_]; [lia|reflexivity].
  - destruct (lookup_lt_is_Some_2 candles i) as [c Hc]; [lia|].
    cbn [forLoop]. rewrite (EMA_step _ _ _ _ c) by assumption. cbn [mbind run_bind].
    replace (Z.of_nat i + 1) with (Z.of_nat (S i)) by lia.
    destruct (IH (S i) (<[i := emaValue mulAdd period candles i]> result)) as (result' & Hrun & Hlength & Hlook);
      [lia|assumption|].
    exists result'. replace (i + S n)%nat with (S i + n)%nat by lia.
    split; [exact Hrun|]. rewrite length_insert in Hlength. split; [exact Hlength|].
    intros k. rewrite Hlook, length_insert.
    destruct (decide (k = i)) as [->|Hk].
    + destruct (decide (_ /\ _)) as [[? _]|_]; [lia|].
      destruct (decide (i < length result)%nat) as [Hin|Hout].
      * rewrite list_lookup_insert_eq by assumption.
        destruct (decide _) as [_|Hno]; [reflexivity|]. exfalso. apply Hno. lia.
      * rewrite list_insert_ge by lia.
        destruct (decide _) as [[_ ?]|_]; [lia|reflexivity].
    + destruct (decide (S i <= k < S i + n /\ k < length result)%nat) as [Hyes|Hno].
      * destruct (decide _) as [_|Hno]; [reflexivity|]. exfalso. apply Hno. lia.
      * rewrite list_lookup_insert_ne by lia.
        destruct (decide _) as [Hyes|_]; [|reflexivity]. exfalso. apply Hno. lia.
Qed.

Lemma EMA_Calculate_spec period candles :
  len candles <= Int.max_int ->
  exists result,
    EMA.Calculate mulAdd (EMA.NewEMA period) candles = Ret result
    /\ length result = length candles
    /\ forall i, (i < length candles)%nat -> result !! i = Some (emaValue mulAdd period candles i).
Proof.
  intros Hlen. unfold EMA.Calculate.
  destruct (Z.eqb_spec (len candles) 0) as [Hempty|_].
  - exists (replicate (length candles) None). split; [reflexivity|].
    split; [apply length_replicate|]. intros i Hi. unfold len in Hempty. lia.
  - destruct (EMA_loop period candles (length candles) 0 (replicate (length candles) None))
      as (result & Hrun & Hlength & Hlook); [lia|assumption|].
    simpl EMA.period. fold (emaMultiplier period).
    change 0%float with (emaBefore mulAdd period candles 0) at 1.
    change 0 with (Z.of_nat 0) at 1.
    rewrite Hrun. cbn [mbind run_bind].
    exists result. split; [reflexivity|]. rewrite length_replicate in Hlength.
    split; [exact Hlength|]. intros i Hi. rewrite Hlook, length_replicate.
    destruct (decide _) as [_|Hno]; [reflexivity|]. exfalso. apply Hno. lia.
Qed.

Lemma emaValue_app period candles more : forall i,
  (i < length candles)%nat ->
  emaValue mulAdd period (candles ++ more) i = emaValue mulAdd period candles i.
Proof.
  induction i as [|i IH]; intros Hi; rewrite !emaValue_unfold.
  - destruct (Z.ltb_spec (Z.of_nat 0 + 1) period); [reflexivity|].
    destruct (Z.eqb_spec (Z.of_nat 0 + 1) period).
    + unfold windowMean. rewrite window_app by (assumption || lia). reflexivity.
    + rewrite lookup_app_l by assumption. reflexivity.
  - destruct (Z.ltb_spec (Z.of_nat (S i) + 1) period); [reflexivity|].
    destruct (Z.eqb_spec (Z.of_nat (S i) + 1) period).
    + unfold windowMean. rewrite window_app by (assumption || lia). reflexivity.
    + rewrite lookup_app_l by assumption. cbn [emaBefore]. rewrite IH by lia. reflexivity.
Qed.
End EMAFacts.

(** X29. [EMA.Calculate] answers one value per candle and never reads outside
    the slice. It answers [nil] while fewer than [period] candles have been
    seen; its first value is the one [SMA.Calculate] has at that index, the
    mean of the first [period] closes; every later value is
    [(close - before)*multiplier + before] for the value [before] it follows
    and the multiplier [2/(period+1)], as the build computes that expression,
    with the product rounded or fused into the sum; [before] is 0 at the
    first index when the period is below 1. It does not look ahead: the
    values for a series are the first values for any longer series that
    starts with it. *)
Theorem EMA_seeded_and_recursive (mulAdd : float -> float -> float -> float)
    (period : Z) (candles more : list Candle.t) :
  len (candles ++ more) <= Int.max_int ->
  exists result result',
    EMA.Calculate mulAdd (EMA.NewEMA period) candles = Ret result
    /\ EMA.Calculate mulAdd (EMA.NewEMA period) (candles ++ more) = Ret result'
    /\ length result = length candles
    /\ (forall i, (i < length candles)%nat ->
                  (result !! i = Some None <-> Z.of_nat i + 1 < period))
    /\ (forall i sma,
           Z.of_nat i + 1 = period -> (i < length candles)%nat ->
           SMA.Calculate (SMA.NewSMA period) candles = Ret sma ->
           result !! i = Some (Some (windowMean period candles i))
           /\ result !! i = sma !! i)
    /\ (forall c, period < 1 -> candles !! 0%nat = Some c ->
                  result !! 0%nat
                  = Some (Some (mulAdd (Candle.Close c - 0)%float (emaMultiplier period) 0%float)))
    /\ (forall i c,
           period < Z.of_nat (S i) + 1 -> candles !! S i = Some c ->
           exists before,
             result !! i = Some (Some before)
             /\ result !! S i
                = Some (Some (mulAdd (Candle.Close c - before)%float (emaMultiplier period) before)))
    /\ result `prefix_of` result'.
Proof.
  intros Hlen.
  assert (Hshort : len candles <= len (candles ++ more))
    by (unfold len; rewrite length_app; lia).
  destruct (EMA_Calculate_spec mulAdd period candles) as (result & Hrun & Hlength & Hlook); [lia|].
  destruct (EMA_Calculate_spec mulAdd period (candles ++ more) Hlen)
    as (result' & Hrun' & Hlength' & Hlook').
  exists result, result'. split; [exact Hrun|]. split; [exact Hrun'|].
  split; [exact Hlength|].
  split; [|split; [|split; [|split]]].
  - intros i Hi. rewrite Hlook by assumption. rewrite emaValue_unfold.
    destruct (Z.ltb_spec (Z.of_nat i + 1) period) as [Hwarm|Hfull].
    + split; [intros _; assumption|reflexivity].
    + destruct (Z.eqb_spec (Z.of_nat i + 1) period).
      * split; [discriminate|lia].
      * destruct (lookup_lt_is_Some_2 candles i Hi) as [c ->].
        split; [discriminate|lia].
  - intros i sma Hseed Hi Hsma.
    assert (Hvalue : result !! i = Some (Some (windowMean period candles i))).
    { rewrite Hlook by assumption. rewrite emaValue_unfold.
      destruct (Z.ltb_spec (Z.of_nat i + 1) period); [lia|].
      destruct (Z.eqb_spec (Z.of_nat i + 1) period); [reflexivity|lia]. }
    split; [exact Hvalue|].
    destruct (SMA_Calculate_spec period candles) as (sma' & Hsma' & _ & Hsmalook);
      [lia|unfold len in *; lia|].
    rewrite Hsma in Hsma'. inversion Hsma'; subst sma'.
    rewrite Hvalue, Hsmalook by assumption. unfold smaValue.
    destruct (Z.ltb_spec (Z.of_nat i + 1) period); [lia|reflexivity].
  - intros c Hperiod Hc. pose proof (lookup_lt_Some _ _ _ Hc) as Hi.
    rewrite Hlook by assumption. rewrite emaValue_unfold, Hc.
    destruct (Z.ltb_spec (Z.of_nat 0 + 1) period); [lia|].
    destruct (Z.eqb_spec (Z.of_nat 0 + 1) period); [lia|reflexivity].
  - intros i c Hperiod Hc. pose proof (lookup_lt_Some _ _ _ Hc) as Hi.
    destruct (lookup_lt_is_Some_2 candles i) as [c0 Hc0]; [lia|].
    assert (Hbefore : exists before, emaValue mulAdd period candles i = Some before).
    { rewrite emaValue_unfold.
      destruct (Z.ltb_spec (Z.of_nat i + 1) period); [lia|].
      destruct (Z.eqb_spec (Z.of_nat i + 1) period); [eexists; reflexivity|].
      rewrite Hc0. eexists; reflexivity. }
    destruct Hbefore as [before Hbefore]. exists before.
    rewrite !Hlook by lia. split; [rewrite Hbefore; reflexivity|].
    rewrite (emaValue_unfold mulAdd period candles (S i)), Hc.
    destruct (Z.ltb_spec (Z.of_nat (S i) + 1) period); [lia|].
    destruct (Z.eqb_spec (Z.of_nat (S i) + 1) period); [lia|].
    cbn [emaBefore]. rewrite Hbefore. reflexivity.
  - apply prefix_by_lookup.
    + rewrite Hlength, Hlength', length_app. lia.
    + intros i Hi. rewrite Hlength in Hi.
      rewrite Hlook by assumption. rewrite Hlook' by (rewrite length_app; lia).
      rewrite emaValue_app by assumption. reflexivity.
Qed.

Lemma EMA_seeded_and_recursive_witness :
  let candle (close : float) : Candle.t := Candle.mk close close close close 1 in
  let candles := [candle 1; candle 2; candle 3; candle 5]%float in
  let more := [candle 10]%float in
  EMA.Calculate unfused (EMA.NewEMA 3) candles = Ret [None; None; Some 2; Some 3.5]%float
  /\ EMA.Calculate unfused (EMA.NewEMA 3) (candles ++ more)
     = Ret [None; None; Some 2; Some 3.5; Some 6.75]%float
  /\ EMA.Calculate unfused (EMA.NewEMA 2) [candle 1; candle 2; candle 4]%float
     = Ret [None; Some 1.5; Some (19 / 6)]%float
  /\ exists result',
      EMA.Calculate unfused (EMA.NewEMA 3) (candles ++ more) = Ret result'
      /\ [None; None; Some 2; Some 3.5]%float `prefix_of` result'.
Proof.
  intros candle candles more.
  destruct (EMA_seeded_and_recursive unfused 3 candles more)
    as (result & result' & Hrun & Hrun' & _ & _ & _ & _ & _ & Hprefix);
    [vm_compute; congruence|].
  assert (Hresult : result = [None; None; Some 2; Some 3.5]%float).
  { vm_compute in Hrun. inversion Hrun. reflexivity. }
  rewrite Hresult in *. split; [exact Hrun|].
  split; [vm_compute; reflexivity|]. split; [vm_compute; reflexivity|].
  exists result'. split; [exact Hrun'|exact Hprefix].
Defined.

(** ** The cash account *)

Lemma entryCost_settings p q ord :
  Portfolio.settings q = Portfolio.settings p -> entryCost q ord = entryCost p ord.
Proof. intros Hs. unfold entryCost. rewrite Hs. reflexivity. Qed.

Lemma call_cash p c :
  Portfolio.cash (call p c) = fold_left (settle p) (acceptedOrders p [c]) (Portfolio.cash p).
Proof.
  destruct c as [ord|prices]; simpl; [|reflexivity].
  destruct (Portfolio.ProcessOrder p ord) as [p' [e|]] eqn:Hrun; simpl.
  - apply ProcessOrder_failure in Hrun. subst p'. reflexivity.
  - apply ProcessOrder_accepted in Hrun as [_ Hrun]. unfold settle.
    destruct (Order.Type_ ord).
    + destruct (handleEntryOrder_effect p ord p' Hrun) as (_ & _ & ->). reflexivity.
    + destruct (handleExitOrder_effect p ord p' Hrun) as (_ & _ & ->). reflexivity.
Qed.

Lemma settle_settings p q :
  Portfolio.settings q = Portfolio.settings p -> settle q = settle p.
Proof.
  intros Hs. unfold settle, entryCost. rewrite Hs. reflexivity.
Qed.

(** X30. The cash of a portfolio is accounted for by the orders it has
    accepted. Over any sequence of [ProcessOrder] and [UpdatePositions] calls
    it is the cash at the start with the cost of every accepted entry taken
    off and the notional of every accepted exit added, one after the other in
    the order of the calls; a refused order and a mark update leave it
    alone. *)
Theorem calls_cash (p : Portfolio.t) (cs : list Call) :
  Portfolio.cash (calls p cs)
  = fold_left (settle p) (acceptedOrders p cs) (Portfolio.cash p).
Proof.
  assert (Hcash : forall q, Portfolio.settings q = Portfolio.settings p ->
                            Portfolio.cash (calls q cs)
                            = fold_left (settle p) (acceptedOrders q cs) (Portfolio.cash q)).
  { induction cs as [|c cs IH]; intros q Hs; [reflexivity|].
    change (calls q (c :: cs)) with (calls (call q c) cs).
    destruct (call_history q c) as (_ & _ & Hs').
    rewrite IH by congruence. rewrite call_cash, (settle_settings p q Hs).
    cbn [acceptedOrders]. rewrite app_nil_r, fold_left_app. reflexivity. }
  apply Hcash. reflexivity.
Qed.
